(** * Axiom web client: a shallow embedding and its checked properties

    The development follows the TypeScript sources of the web front end:
    the WebSocket client ([lib/api/websocket.ts]), the LLM dispatcher and
    the workspace configuration store, the server actions
    ([app/actions/agent.ts], [app/actions/terminal.ts]) and the workspace
    page ([handleSendMessage], [updateAgentStatus]); the PTY output parser
    of the backend is described from the specification.  It also covers
    the path handling of the file picker, the dashboard and the page, and
    the file list and the reply parsing of the agents ([lib/agents]).
    The first part
    embeds the source functions, module by module; the second
    part states and proves the properties. *)

From stdpp Require Import base list strings pretty.
From Stdlib Require Import ZArith Lia.

Set Default Proof Using "Type".

(** ** JavaScript values shared by the modules below *)

Module JS.

(** [a || b] on strings: the empty string is falsy. *)
Definition or_else (a b : string) : string := if decide (a = "") then b else a.

(** The same on an optional string property ([undefined] is falsy). *)
Definition opt_or_else (a : option string) (b : string) : string :=
  match a with Some x => or_else x b | None => b end.

(** Truthiness of an optional string property. *)
Definition truthy (a : option string) : bool :=
  match a with Some x => negb (bool_decide (x = "")) | None => false end.

(** Completion of a call that can throw an [Error] with the given
    message (for an [async] function: the promise resolves or rejects). *)
Inductive Result (A : Type) :=
| Ok (a : A)
| Throw (message : string).
Arguments Ok {A} a.
Arguments Throw {A} message.

(** A string as a sequence of UTF-16 code units, where the code units
    matter. *)
Definition jsstring := list N.

(** WhiteSpace and LineTerminator code points of ECMAScript, which
    [String.prototype.trim] removes. *)
Definition white_space : list N :=
  [9; 10; 11; 12; 13; 32; 160; 5760;
   8192; 8193; 8194; 8195; 8196; 8197; 8198; 8199; 8200; 8201; 8202;
   8232; 8233; 8239; 8287; 12288; 65279]%N.

Definition is_white_space (c : N) : bool := bool_decide (c ∈ white_space).

(** [s.trimStart()], [s.trimEnd()], [s.trim()] *)
Fixpoint trimStart (s : jsstring) : jsstring :=
  match s with
  | c :: rest => if is_white_space c then trimStart rest else s
  | [] => []
  end.

Definition trimEnd (s : jsstring) : jsstring := reverse (trimStart (reverse s)).

Definition trim (s : jsstring) : jsstring := trimEnd (trimStart s).

(** [s.startsWith(c)] for a one-unit search string. *)
Definition startsWith (c : N) (s : jsstring) : bool :=
  match s with
  | x :: _ => bool_decide (x = c)
  | [] => false
  end.

(** The code unit of ['/']. *)
Definition slash : N := 47%N.

End JS.

(** ** WebSocket client ([lib/api/websocket.ts]) *)

Module WebSocketClient.

(** [Command], from [lib/api/types.ts]: the tagged union sent to the
    backend.  Every value is a JavaScript object, hence truthy. *)
Inductive Command :=
| ProcessInput (text : string)
| ExecuteShell (command : string)
| InvokeCliAgent (agent_id prompt : string)
| SendPtyInput (agent_id : string) (data : list Z)
| ResizePty (agent_id : string) (cols rows : Z)
| ReadFile (path : string)
| WriteFile (path content : string)
| CancelAgent (agent_id : string)
| ListWorkspaces
| CreateWorkspace (name path : string)
| DeleteWorkspace (workspace_id : string)
| ActivateWorkspace (workspace_id : string)
| ListFiles (path : string) (include_hidden : bool).

#[global] Instance Command_eq_dec : EqDecision Command.
Proof. solve_decision. Defined.

(** [WebSocket.readyState] of a browser socket. *)
Inductive ReadyState := CONNECTING | OPEN | CLOSING | CLOSED.

#[global] Instance ReadyState_eq_dec : EqDecision ReadyState.
Proof. solve_decision. Defined.

Inductive ConnectionState := connecting | connected | disconnected | error.

#[global] Instance ConnectionState_eq_dec : EqDecision ConnectionState.
Proof. solve_decision. Defined.

(** [WebSocketClientOptions] merged over [DEFAULT_OPTIONS].  The state
    listener is user code that holds the client; it is represented by the
    commands it passes to [send] while it runs and then returns: a
    listener that throws, or that calls [connect] or [disconnect], is not
    represented.  The notification and
    error listeners run last in their handlers, so what they do to the
    client is covered by the calls that may follow the handler; they are
    left out.  The counters are non-negative whole numbers. *)
Record Options := {
  onStateChange : option (ConnectionState -> list Command);
  reconnect : bool;
  reconnectInterval : nat;
  maxReconnectAttempts : nat;
}.

Definition DEFAULT_OPTIONS : Options :=
  {| onStateChange := None; reconnect := true;
     reconnectInterval := 2000; maxReconnectAttempts := 5 |}.

(** A browser timer created by [setTimeout]. *)
Record Timer := { delay : nat; pending : bool }.

(** The client object together with the browser objects it talks to:
    [sockets] are the [WebSocket] objects created so far (a socket is
    named by its creation index), [timers] the timers created so far, and
    [sent] the frames handed to [WebSocket.send], oldest first. *)
Record World := {
  sockets : list ReadyState;
  timers : list Timer;
  sent : list Command;
  url_ok : bool;
  ws : option nat;
  options : Options;
  state : ConnectionState;
  reconnectAttempts : nat;
  reconnectTimer : option nat;
  messageQueue : list Command;
}.

Definition set_sockets (x : list ReadyState) (w : World) : World :=
  {| sockets := x; timers := timers w; sent := sent w; url_ok := url_ok w;
     ws := ws w; options := options w; state := state w;
     reconnectAttempts := reconnectAttempts w;
     reconnectTimer := reconnectTimer w; messageQueue := messageQueue w |}.

Definition set_timers (x : list Timer) (w : World) : World :=
  {| sockets := sockets w; timers := x; sent := sent w; url_ok := url_ok w;
     ws := ws w; options := options w; state := state w;
     reconnectAttempts := reconnectAttempts w;
     reconnectTimer := reconnectTimer w; messageQueue := messageQueue w |}.

Definition set_sent (x : list Command) (w : World) : World :=
  {| sockets := sockets w; timers := timers w; sent := x; url_ok := url_ok w;
     ws := ws w; options := options w; state := state w;
     reconnectAttempts := reconnectAttempts w;
     reconnectTimer := reconnectTimer w; messageQueue := messageQueue w |}.

Definition set_ws (x : option nat) (w : World) : World :=
  {| sockets := sockets w; timers := timers w; sent := sent w;
     url_ok := url_ok w; ws := x; options := options w; state := state w;
     reconnectAttempts := reconnectAttempts w;
     reconnectTimer := reconnectTimer w; messageQueue := messageQueue w |}.

Definition set_options (x : Options) (w : World) : World :=
  {| sockets := sockets w; timers := timers w; sent := sent w;
     url_ok := url_ok w; ws := ws w; options := x; state := state w;
     reconnectAttempts := reconnectAttempts w;
     reconnectTimer := reconnectTimer w; messageQueue := messageQueue w |}.

Definition set_state (x : ConnectionState) (w : World) : World :=
  {| sockets := sockets w; timers := timers w; sent := sent w;
     url_ok := url_ok w; ws := ws w; options := options w; state := x;
     reconnectAttempts := reconnectAttempts w;
     reconnectTimer := reconnectTimer w; messageQueue := messageQueue w |}.

Definition set_reconnectAttempts (x : nat) (w : World) : World :=
  {| sockets := sockets w; timers := timers w; sent := sent w;
     url_ok := url_ok w; ws := ws w; options := options w; state := state w;
     reconnectAttempts := x;
     reconnectTimer := reconnectTimer w; messageQueue := messageQueue w |}.

Definition set_reconnectTimer (x : option nat) (w : World) : World :=
  {| sockets := sockets w; timers := timers w; sent := sent w;
     url_ok := url_ok w; ws := ws w; options := options w; state := state w;
     reconnectAttempts := reconnectAttempts w;
     reconnectTimer := x; messageQueue := messageQueue w |}.

Definition set_messageQueue (x : list Command) (w : World) : World :=
  {| sockets := sockets w; timers := timers w; sent := sent w;
     url_ok := url_ok w; ws := ws w; options := options w; state := state w;
     reconnectAttempts := reconnectAttempts w;
     reconnectTimer := reconnectTimer w; messageQueue := x |}.

(** [new AxiomWebSocket(url, options)]: the constructor, in a browser
    that has no sockets or timers yet. *)
Definition new_client (ok : bool) (o : Options) : World :=
  {| sockets := []; timers := []; sent := []; url_ok := ok;
     ws := None; options := o; state := disconnected;
     reconnectAttempts := 0; reconnectTimer := None; messageQueue := [] |}.

(** [this.ws?.readyState === WebSocket.OPEN] *)
Definition ws_open (w : World) : bool :=
  match ws w with
  | Some i => match sockets w !! i with Some OPEN => true | _ => false end
  | None => false
  end.

(** [send(command)]: the result and the world after the call. *)
Definition send (c : Command) (w : World) : bool * World :=
  if ws_open w then (true, set_sent (sent w ++ [c]) w)
  else if reconnect (options w)
       then (false, set_messageQueue (messageQueue w ++ [c]) w)
       else (false, w).

(** [flushMessageQueue()]: one unit of fuel per loop iteration; [None]
    when the fuel does not suffice for the loop to leave. *)
Fixpoint flushMessageQueue (fuel : nat) (w : World) : option World :=
  match messageQueue w with
  | [] => Some w
  | c :: rest =>
      match fuel with
      | O => None
      | S fuel' => flushMessageQueue fuel' (send c (set_messageQueue rest w)).2
      end
  end.

(** [setState(state)]: store the state, then run the listener. *)
Definition setState (s : ConnectionState) (w : World) : World :=
  let w1 := set_state s w in
  match onStateChange (options w1) with
  | Some listener => foldl (fun acc c => (send c acc).2) w1 (listener s)
  | None => w1
  end.

(** [handleError(error)] *)
Definition handleError (w : World) : World := setState error w.

(** [clearReconnectTimer()] *)
Definition clearReconnectTimer (w : World) : World :=
  match reconnectTimer w with
  | Some t =>
      set_reconnectTimer None
        (set_timers (alter (fun tm => {| delay := delay tm; pending := false |}) t (timers w)) w)
  | None => w
  end.

(** [connect()]: [new WebSocket(url)] throws on a URL it does not accept. *)
Definition connect (w : World) : World :=
  if ws_open w then w
  else
    let w1 := setState connecting w in
    if url_ok w1
    then set_ws (Some (length (sockets w1))) (set_sockets (sockets w1 ++ [CONNECTING]) w1)
    else handleError w1.

(** [WebSocket.close()] as the browser performs it. *)
Definition close_socket (r : ReadyState) : ReadyState :=
  match r with
  | CONNECTING | OPEN => CLOSING
  | CLOSING => CLOSING
  | CLOSED => CLOSED
  end.

(** [disconnect()] *)
Definition disconnect (w : World) : World :=
  let o := options w in
  let w1 := set_options {| onStateChange := onStateChange o; reconnect := false;
                           reconnectInterval := reconnectInterval o;
                           maxReconnectAttempts := maxReconnectAttempts o |} w in
  let w2 := clearReconnectTimer w1 in
  let w3 := match ws w2 with
            | Some i => set_ws None (set_sockets (alter close_socket i (sockets w2)) w2)
            | None => w2
            end in
  setState disconnected w3.

(** [scheduleReconnect()] *)
Definition scheduleReconnect (w : World) : World :=
  if decide (maxReconnectAttempts (options w) <= reconnectAttempts w) then w
  else
    let w1 := clearReconnectTimer w in
    let d := reconnectInterval (options w1) * 2 ^ reconnectAttempts w1 in
    let w2 := set_reconnectAttempts (S (reconnectAttempts w1)) w1 in
    set_reconnectTimer (Some (length (timers w2)))
      (set_timers (timers w2 ++ [{| delay := d; pending := true |}]) w2).

(** The handlers installed by [setupEventHandlers()]. *)
Definition onopen (fuel : nat) (w : World) : option World :=
  flushMessageQueue fuel (set_reconnectAttempts 0 (setState connected w)).

Definition onclose (wasClean : bool) (w : World) : World :=
  let w1 := setState disconnected w in
  if reconnect (options w1) && negb wasClean then scheduleReconnect w1 else w1.

Definition onerror (w : World) : World := handleError w.

(** What can happen to a client: calls of its public methods, events of
    the sockets it created (which run the handlers above), and the
    reconnect timer coming due (which runs [connect()]). *)
Inductive Event :=
| CallSend (c : Command)
| CallConnect
| CallDisconnect
| SocketOpen (i : nat)
| SocketClose (i : nat) (wasClean : bool)
| SocketError (i : nat)
| TimerFire (t : nat).

(** One event.  [None]: the event cannot happen in this world (the socket
    or timer is not in the required state), or the handler does not
    return within [fuel] loop iterations. *)
Definition step (fuel : nat) (e : Event) (w : World) : option World :=
  match e with
  | CallSend c => Some (send c w).2
  | CallConnect => Some (connect w)
  | CallDisconnect => Some (disconnect w)
  | SocketOpen i =>
      match sockets w !! i with
      | Some CONNECTING => onopen fuel (set_sockets (<[i:=OPEN]> (sockets w)) w)
      | _ => None
      end
  | SocketClose i wasClean =>
      match sockets w !! i with
      | Some CLOSED | None => None
      | Some _ => Some (onclose wasClean (set_sockets (<[i:=CLOSED]> (sockets w)) w))
      end
  | SocketError i =>
      match sockets w !! i with
      | Some CLOSED | None => None
      | Some _ => Some (onerror w)
      end
  | TimerFire t =>
      match timers w !! t with
      | Some tm =>
          if pending tm
          then Some (connect (set_timers (<[t:={| delay := delay tm; pending := false |}]> (timers w)) w))
          else None
      | None => None
      end
  end.

(** A finite execution. *)
Inductive run : World -> list Event -> World -> Prop :=
| run_done w : run w [] w
| run_step fuel w e w1 es w2 :
    step fuel e w = Some w1 -> run w1 es w2 -> run w (e :: es) w2.

(** The same, as a function, for evaluation. *)
Fixpoint exec (fuel : nat) (es : list Event) (w : World) : option World :=
  match es with
  | [] => Some w
  | e :: es' =>
      match step fuel e w with
      | Some w1 => exec fuel es' w1
      | None => None
      end
  end.

(** The commands that the callers passed to [send], in call order. *)
Definition calls_of (es : list Event) : list Command :=
  omap (fun e => match e with CallSend c => Some c | _ => None end) es.

Definition is_SocketOpen (e : Event) : bool :=
  match e with SocketOpen _ => true | _ => false end.

(** The fields that only [connect], [disconnect], the handlers and the
    browser change. *)
Definition same_control (w w' : World) : Prop :=
  sockets w' = sockets w /\ timers w' = timers w /\ url_ok w' = url_ok w /\
  ws w' = ws w /\ options w' = options w /\
  reconnectAttempts w' = reconnectAttempts w /\
  reconnectTimer w' = reconnectTimer w.

(** The reconnect bookkeeping: attempts made, timers created, and the
    two limits taken from the options. *)
Definition counters (w : World) : nat * nat * nat * nat :=
  (reconnectAttempts w, length (timers w),
   maxReconnectAttempts (options w), reconnectInterval (options w)).

(** Events other than a socket opening. *)
Definition no_open (es : list Event) : bool :=
  forallb (fun e => negb (is_SocketOpen e)) es.

(** Two connection attempts that both fail: the initial [connect()], an
    unclean close, the reconnect timer, and another unclean close. *)
Definition two_failures : list Event :=
  [CallConnect; SocketClose 0 false; TimerFire 0; SocketClose 1 false].

Definition after_two_failures : World :=
  Eval vm_compute in
    default (new_client true DEFAULT_OPTIONS)
      (exec 0 two_failures (new_client true DEFAULT_OPTIONS)).

(** The reconnect timer then comes due and the third socket opens. *)
Definition two_failures_then_open : list Event :=
  two_failures ++ [TimerFire 1; SocketOpen 2].

(** A client whose first socket has opened. *)
Definition connected_world : World :=
  Eval vm_compute in
    default (new_client true DEFAULT_OPTIONS)
      (exec 0 [CallConnect; SocketOpen 0] (new_client true DEFAULT_OPTIONS)).

(** A listener that sends [c] as soon as the client reports [connected]. *)
Definition send_on_connected (c : Command) (s : ConnectionState) : list Command :=
  match s with connected => [c] | _ => [] end.

(** Options whose listener asks for the workspace list on [connected]. *)
Definition greeting_options : Options :=
  {| onStateChange := Some (send_on_connected ListWorkspaces);
     reconnect := true; reconnectInterval := 2000; maxReconnectAttempts := 5 |}.

(** A command sent before the connection exists, then the connection. *)
Definition queued_then_opened : list Event :=
  [CallSend (ReadFile "a.txt"); CallConnect; SocketOpen 0].

Definition after_queued_then_opened : World :=
  Eval vm_compute in
    default (new_client true greeting_options)
      (exec 1 queued_then_opened (new_client true greeting_options)).

(** There is no state listener, or one that does nothing to the client:
    it returns without having called [send] (nor, as every listener
    represented here, [connect] or [disconnect]). *)
Definition silent (o : Options) : Prop :=
  match onStateChange o with
  | Some listener => forall s, listener s = []
  | None => True
  end.

(** What the first-in first-out argument maintains, [log] being the
    commands passed to [send] so far: an open socket means an empty
    queue, and the transmitted commands followed by the queued ones
    respect the call order. *)
Definition fifo_inv (log : list Command) (w : World) : Prop :=
  silent (options w) /\
  (ws_open w = true -> messageQueue w = []) /\
  (sent w ++ messageQueue w) `sublist_of` log.

(** Every timer that is still pending is the one the client remembers. *)
Definition timers_tracked (w : World) : Prop :=
  forall t tm, timers w !! t = Some tm -> pending tm = true -> reconnectTimer w = Some t.

(** No reconnect will happen: reconnecting is switched off and no timer
    is pending. *)
Definition quiet (w : World) : Prop :=
  reconnect (options w) = false /\
  Forall (fun tm => pending tm = false) (timers w).

Definition is_TimerFire (e : Event) : bool :=
  match e with TimerFire _ => true | _ => false end.

(** Two commands sent around the opening of the connection. *)
Definition send_open_send : list Event :=
  [CallSend (ReadFile "a.txt"); CallConnect; SocketOpen 0; CallSend ListWorkspaces].

Definition after_send_open_send : World :=
  Eval vm_compute in
    default (new_client true DEFAULT_OPTIONS)
      (exec 1 send_open_send (new_client true DEFAULT_OPTIONS)).

(** The client of [two_failures], disconnected and then used again. *)
Definition after_disconnect_events : list Event :=
  [CallSend ListWorkspaces; CallConnect; SocketClose 2 false].

Definition after_disconnect_world : World :=
  Eval vm_compute in
    default (new_client true DEFAULT_OPTIONS)
      (exec 0 after_disconnect_events (disconnect after_two_failures)).

End WebSocketClient.

(** ** Configuration store and LLM dispatch
    ([lib/workspace-config.ts], [lib/llm/api.ts]) *)

Module Config.
Import JS.

Inductive WorkspaceType := local | remote.

#[global] Instance WorkspaceType_eq_dec : EqDecision WorkspaceType.
Proof. solve_decision. Defined.

Module WorkspaceConfig.
Record t := {
  id : string;
  title : string;
  path : string;
  type : WorkspaceType;
  lastAccessed : string;
  createdAt : string;
}.
End WorkspaceConfig.

Module LLMProvider.
Record t := {
  id : string;
  name : string;
  apiKey : string;
  baseUrl : option string;
  defaultModel : string;
  enabled : bool;
}.
End LLMProvider.

Module AgentMapping.
Record t := {
  agentId : string;
  providerId : string;
  modelId : string;
}.
End AgentMapping.

#[global] Instance WorkspaceConfig_eq_dec : EqDecision WorkspaceConfig.t.
Proof. solve_decision. Defined.
#[global] Instance LLMProvider_eq_dec : EqDecision LLMProvider.t.
Proof. solve_decision. Defined.
#[global] Instance AgentMapping_eq_dec : EqDecision AgentMapping.t.
Proof. solve_decision. Defined.

Record LLMSettings := {
  providers : list LLMProvider.t;
  agentMappings : list AgentMapping.t;
}.

Record AppConfig := {
  workspaces : list WorkspaceConfig.t;
  llmSettings : LLMSettings;
}.

Definition DEFAULT_CONFIG : AppConfig :=
  {| workspaces := [];
     llmSettings :=
       {| providers :=
            [ {| LLMProvider.id := "openai"; LLMProvider.name := "OpenAI";
                 LLMProvider.apiKey := ""; LLMProvider.baseUrl := None;
                 LLMProvider.defaultModel := "gpt-4o";
                 LLMProvider.enabled := false |};
              {| LLMProvider.id := "anthropic"; LLMProvider.name := "Anthropic";
                 LLMProvider.apiKey := ""; LLMProvider.baseUrl := None;
                 LLMProvider.defaultModel := "claude-3-5-sonnet-20240620";
                 LLMProvider.enabled := false |};
              {| LLMProvider.id := "gemini"; LLMProvider.name := "Google Gemini";
                 LLMProvider.apiKey := ""; LLMProvider.baseUrl := None;
                 LLMProvider.defaultModel := "gemini-1.5-pro";
                 LLMProvider.enabled := false |};
              {| LLMProvider.id := "ollama"; LLMProvider.name := "Ollama (Local)";
                 LLMProvider.apiKey := "na";
                 LLMProvider.baseUrl := Some "http://localhost:11434";
                 LLMProvider.defaultModel := "llama3";
                 LLMProvider.enabled := false |} ];
          agentMappings :=
            [ {| AgentMapping.agentId := "orchestrator";
                 AgentMapping.providerId := "openai"; AgentMapping.modelId := "gpt-4o" |};
              {| AgentMapping.agentId := "po";
                 AgentMapping.providerId := "openai"; AgentMapping.modelId := "gpt-4o" |};
              {| AgentMapping.agentId := "architect";
                 AgentMapping.providerId := "openai"; AgentMapping.modelId := "gpt-4o" |};
              {| AgentMapping.agentId := "developer";
                 AgentMapping.providerId := "openai"; AgentMapping.modelId := "gpt-4o" |} ]
       |} |}.

(** *** [chatCompletion] ([lib/llm/api.ts]) *)

Inductive Role := system | user | assistant.

Record LLMMessage := { role : Role; content : string }.

(** The four provider calls, with the arguments they are given. *)
Inductive ProviderCall :=
| callOpenAI (apiKey model : string) (messages : list LLMMessage) (baseUrl : option string)
| callAnthropic (apiKey model : string) (messages : list LLMMessage)
| callGemini (apiKey model : string) (messages : list LLMMessage)
| callOllama (baseUrl model : string) (messages : list LLMMessage).

(** [Array.prototype.find] with an equality test on a string key. *)
Definition find_by {A} (key : A -> string) (k : string) (l : list A) : option A :=
  List.find (fun x => bool_decide (key x = k)) l.

(** [chatCompletion(agentId, messages)] from its second statement on, up
    to the provider call; [settings] is what [getLLMSettings()] resolved
    to.  Either an error is thrown, or exactly one provider function is
    called. *)
Definition chatCompletion_with (settings : LLMSettings) (agentId : string)
    (messages : list LLMMessage) : Result ProviderCall :=
  match find_by AgentMapping.agentId agentId (agentMappings settings) with
  | None => Throw ("No mapping found for agent: " +:+ agentId)
  | Some mapping =>
      match find_by LLMProvider.id (AgentMapping.providerId mapping) (providers settings) with
      | None =>
          Throw ("Provider " +:+ AgentMapping.providerId mapping
                 +:+ " is not configured or enabled")
      | Some provider =>
          if negb (LLMProvider.enabled provider)
             || bool_decide (LLMProvider.apiKey provider = "")
          then Throw ("Provider " +:+ AgentMapping.providerId mapping
                      +:+ " is not configured or enabled")
          else
            let modelId :=
              or_else (AgentMapping.modelId mapping) (LLMProvider.defaultModel provider) in
            if decide (LLMProvider.id provider = "openai") then
              Ok (callOpenAI (LLMProvider.apiKey provider) modelId messages
                    (LLMProvider.baseUrl provider))
            else if decide (LLMProvider.id provider = "anthropic") then
              Ok (callAnthropic (LLMProvider.apiKey provider) modelId messages)
            else if decide (LLMProvider.id provider = "gemini") then
              Ok (callGemini (LLMProvider.apiKey provider) modelId messages)
            else if decide (LLMProvider.id provider = "ollama") then
              Ok (callOllama
                    (opt_or_else (LLMProvider.baseUrl provider) "http://localhost:11434")
                    modelId messages)
            else Throw ("Unsupported provider: " +:+ LLMProvider.id provider)
      end
  end.

(** What a provider call is addressed to, and with which model. *)
Definition call_provider (c : ProviderCall) : string :=
  match c with
  | callOpenAI _ _ _ _ => "openai"
  | callAnthropic _ _ _ => "anthropic"
  | callGemini _ _ _ => "gemini"
  | callOllama _ _ _ => "ollama"
  end.

Definition call_model (c : ProviderCall) : string :=
  match c with
  | callOpenAI _ m _ _ | callAnthropic _ m _ | callGemini _ m _ | callOllama _ m _ => m
  end.

Definition call_messages (c : ProviderCall) : list LLMMessage :=
  match c with
  | callOpenAI _ _ ms _ | callAnthropic _ _ ms | callGemini _ _ ms | callOllama _ _ ms => ms
  end.


Definition supported_providers : list string :=
  ["openai"; "anthropic"; "gemini"; "ollama"].

(** [x] is the first element of [l] whose key is [k]. *)
Definition first_with {A} (key : A -> string) (k : string) (l : list A) (x : A) : Prop :=
  exists l1 l2, l = l1 ++ x :: l2 /\ key x = k /\ Forall (fun y => key y <> k) l1.

(** *** The configuration file ([lib/workspace-config.ts]) *)

(** [Omit<WorkspaceConfig, 'id' | 'createdAt' | 'lastAccessed'>] *)
Module NewWorkspace.
Record t := { title : string; path : string; type : WorkspaceType }.
End NewWorkspace.

(** What [JSON.parse] yields for a stored configuration: any key may be
    missing. *)
Record ParsedLLMSettings := {
  parsed_providers : option (list LLMProvider.t);
  parsed_agentMappings : option (list AgentMapping.t);
}.

Record ParsedConfig := {
  parsed_workspaces : option (list WorkspaceConfig.t);
  parsed_llmSettings : option ParsedLLMSettings;
}.

(** The configuration file: absent ([ENOENT]), unreadable or not JSON
    (the error is thrown), or holding a parsed value. *)
Inductive ConfigFile :=
| Missing
| Unreadable (message : string)
| Stored (parsed : ParsedConfig).

(** The configuration directory [~/.osmo]: it is there ([fs.access]
    succeeds); or it is not and [fs.mkdir] makes it; or it is not and
    [fs.mkdir] throws. *)
Inductive ConfigDir :=
| DirPresent
| DirAbsent
| DirBlocked (message : string).

(** The state the store functions work on: the configuration directory,
    the file in it (which counts only while the directory is there),
    whether the file can be written, and the module-level
    [DEFAULT_CONFIG] object, which [readConfig] hands out and whose
    arrays are therefore mutable. *)
Record Store := {
  config_dir : ConfigDir;
  file : ConfigFile;
  writable : bool;
  default_config : AppConfig;
}.

(** How a configuration returned by [readConfig] is tied to
    [DEFAULT_CONFIG]: it is that very object, or a new object whose
    [workspaces] array is the default one, or a new object with an array
    of its own. *)
Inductive Alias := IsDefault | SharesWorkspaces | OwnWorkspaces.

(** A store whose configuration directory is there. *)
Definition initial_store (f : ConfigFile) (can_write : bool) : Store :=
  {| config_dir := DirPresent; file := f; writable := can_write;
     default_config := DEFAULT_CONFIG |}.

(** [ensureConfigDir()] ([lib/fs.ts]): a directory that has just been
    made holds no file. *)
Definition ensureConfigDir (st : Store) : Result unit * Store :=
  match config_dir st with
  | DirPresent => (Ok (), st)
  | DirAbsent =>
      (Ok (), {| config_dir := DirPresent; file := Missing; writable := writable st;
                 default_config := default_config st |})
  | DirBlocked msg => (Throw msg, st)
  end.

(** [getConfigPath()]: the path is always the same; what matters is
    that the directory is ensured first. *)
Definition getConfigPath (st : Store) : Result unit * Store := ensureConfigDir st.

(** The [try] block of [readConfig] with its [catch]: the file is read,
    parsed and merged with the defaults; a missing file gives
    [DEFAULT_CONFIG] itself, any other error is thrown again. *)
Definition read_and_merge (st : Store) : Result (AppConfig * Alias) :=
  match file st with
  | Missing => Ok (default_config st, IsDefault)
  | Unreadable msg => Throw msg
  | Stored parsed =>
      let d := default_config st in
      let llm :=
        match parsed_llmSettings parsed with
        | Some pl =>
            {| providers := default (providers (llmSettings d)) (parsed_providers pl);
               agentMappings :=
                 default (agentMappings (llmSettings d)) (parsed_agentMappings pl) |}
        | None => llmSettings d
        end in
      match parsed_workspaces parsed with
      | Some l => Ok ({| workspaces := l; llmSettings := llm |}, OwnWorkspaces)
      | None => Ok ({| workspaces := workspaces d; llmSettings := llm |}, SharesWorkspaces)
      end
  end.

(** [readConfig()]: [getConfigPath()] is awaited before the [try], so
    what it throws is thrown by [readConfig]. *)
Definition readConfig (st : Store) : Result (AppConfig * Alias) * Store :=
  match getConfigPath st with
  | (Throw msg, st0) => (Throw msg, st0)
  | (Ok _, st0) => (read_and_merge st0, st0)
  end.

(** [JSON.stringify(config)] read back: every key is present. *)
Definition to_parsed (config : AppConfig) : ParsedConfig :=
  {| parsed_workspaces := Some (workspaces config);
     parsed_llmSettings :=
       Some {| parsed_providers := Some (providers (llmSettings config));
               parsed_agentMappings := Some (agentMappings (llmSettings config)) |} |}.

(** [writeConfig(config)] *)
Definition writeConfig (config : AppConfig) (st : Store) : Result unit * Store :=
  match getConfigPath st with
  | (Throw msg, st0) => (Throw msg, st0)
  | (Ok _, st0) =>
      if writable st0
      then (Ok (), {| config_dir := config_dir st0; file := Stored (to_parsed config);
                      writable := writable st0;
                      default_config := default_config st0 |})
      else (Throw "EACCES: permission denied", st0)
  end.

(** Assignment to, or in-place change of, [DEFAULT_CONFIG.workspaces]. *)
Definition set_default_workspaces (l : list WorkspaceConfig.t) (st : Store) : Store :=
  {| config_dir := config_dir st; file := file st; writable := writable st;
     default_config := {| workspaces := l;
                          llmSettings := llmSettings (default_config st) |} |}.

(** [getWorkspaceById(id)] *)
Definition getWorkspaceById (id : string) (st : Store)
    : Result (option WorkspaceConfig.t) * Store :=
  match readConfig st with
  | (Throw msg, st0) => (Throw msg, st0)
  | (Ok (config, _), st0) =>
      (Ok (find_by WorkspaceConfig.id id (workspaces config)), st0)
  end.

(** [addWorkspace(workspace)]; [uuid] is what [crypto.randomUUID()]
    returns, [now1] and [now2] what the two [new Date().toISOString()]
    return.  [push] changes the array in place, so it changes
    [DEFAULT_CONFIG] whenever the array is the default one. *)
Definition addWorkspace (workspace : NewWorkspace.t) (uuid now1 now2 : string)
    (st : Store) : Result WorkspaceConfig.t * Store :=
  match readConfig st with
  | (Throw msg, st0) => (Throw msg, st0)
  | (Ok (config, alias), st0) =>
      let newWorkspace :=
        {| WorkspaceConfig.id := uuid;
           WorkspaceConfig.title := NewWorkspace.title workspace;
           WorkspaceConfig.path := NewWorkspace.path workspace;
           WorkspaceConfig.type := NewWorkspace.type workspace;
           WorkspaceConfig.lastAccessed := now2;
           WorkspaceConfig.createdAt := now1 |} in
      let pushed := workspaces config ++ [newWorkspace] in
      let st1 := match alias with
                 | OwnWorkspaces => st0
                 | IsDefault | SharesWorkspaces => set_default_workspaces pushed st0
                 end in
      match writeConfig {| workspaces := pushed; llmSettings := llmSettings config |} st1 with
      | (Ok _, st2) => (Ok newWorkspace, st2)
      | (Throw msg, st2) => (Throw msg, st2)
      end
  end.

(** [removeWorkspace(id)]: the filtered array is assigned to the
    [workspaces] property of the configuration object, which is
    [DEFAULT_CONFIG] itself when the file is missing. *)
Definition removeWorkspace (id : string) (st : Store) : Result unit * Store :=
  match readConfig st with
  | (Throw msg, st0) => (Throw msg, st0)
  | (Ok (config, alias), st0) =>
      let kept := filter (fun w => WorkspaceConfig.id w <> id) (workspaces config) in
      let st1 := match alias with
                 | IsDefault => set_default_workspaces kept st0
                 | SharesWorkspaces | OwnWorkspaces => st0
                 end in
      writeConfig {| workspaces := kept; llmSettings := llmSettings config |} st1
  end.

(** [getLLMSettings()] *)
Definition getLLMSettings (st : Store) : Result LLMSettings * Store :=
  match readConfig st with
  | (Throw msg, st0) => (Throw msg, st0)
  | (Ok (config, _), st0) => (Ok (llmSettings config), st0)
  end.

(** [chatCompletion(agentId, messages)] up to the provider call. *)
Definition chatCompletion (agentId : string) (messages : list LLMMessage)
    (st : Store) : Result ProviderCall * Store :=
  match getLLMSettings st with
  | (Throw msg, st0) => (Throw msg, st0)
  | (Ok settings, st0) => (chatCompletion_with settings agentId messages, st0)
  end.

(** A request and the values the environment supplies for it. *)
Definition demo_workspace : NewWorkspace.t :=
  {| NewWorkspace.title := "demo"; NewWorkspace.path := "/tmp/demo";
     NewWorkspace.type := local |}.

(** *** LLM settings ([lib/workspace-config.ts]) *)

(** [Partial<LLMProvider>]: every key is present with a value, or absent. *)
Module ProviderUpdates.
Record t := {
  id : option string;
  name : option string;
  apiKey : option string;
  baseUrl : option string;
  defaultModel : option string;
  enabled : option bool;
}.
End ProviderUpdates.

(** [{ ...provider, ...updates }] *)
Definition merge_provider (p : LLMProvider.t) (u : ProviderUpdates.t) : LLMProvider.t :=
  {| LLMProvider.id := default (LLMProvider.id p) (ProviderUpdates.id u);
     LLMProvider.name := default (LLMProvider.name p) (ProviderUpdates.name u);
     LLMProvider.apiKey := default (LLMProvider.apiKey p) (ProviderUpdates.apiKey u);
     LLMProvider.baseUrl :=
       match ProviderUpdates.baseUrl u with
       | Some b => Some b
       | None => LLMProvider.baseUrl p
       end;
     LLMProvider.defaultModel :=
       default (LLMProvider.defaultModel p) (ProviderUpdates.defaultModel u);
     LLMProvider.enabled := default (LLMProvider.enabled p) (ProviderUpdates.enabled u) |}.

(** [Array.prototype.findIndex] with an equality test on a string key;
    [None] stands for -1. *)
Definition findIndex_by {A} (key : A -> string) (k : string) (l : list A) : option nat :=
  fst <$> list_find (fun x => key x = k) l.

(** Whether the [providers] array of the configuration that [readConfig]
    returns is the array of [DEFAULT_CONFIG]: the file is missing, or it
    has no [llmSettings], or they have no [providers]. *)
Definition providers_shared (st : Store) : bool :=
  match file st with
  | Missing => true
  | Unreadable _ => false
  | Stored parsed =>
      match parsed_llmSettings parsed with
      | None => true
      | Some pl => match parsed_providers pl with None => true | Some _ => false end
      end
  end.

(** The same for the [agentMappings] array. *)
Definition agentMappings_shared (st : Store) : bool :=
  match file st with
  | Missing => true
  | Unreadable _ => false
  | Stored parsed =>
      match parsed_llmSettings parsed with
      | None => true
      | Some pl => match parsed_agentMappings pl with None => true | Some _ => false end
      end
  end.

(** In-place change of [DEFAULT_CONFIG.llmSettings.providers]. *)
Definition set_default_providers (l : list LLMProvider.t) (st : Store) : Store :=
  {| config_dir := config_dir st; file := file st; writable := writable st;
     default_config :=
       {| workspaces := workspaces (default_config st);
          llmSettings :=
            {| providers := l;
               agentMappings := agentMappings (llmSettings (default_config st)) |} |} |}.

(** In-place change of [DEFAULT_CONFIG.llmSettings.agentMappings]. *)
Definition set_default_agentMappings (l : list AgentMapping.t) (st : Store) : Store :=
  {| config_dir := config_dir st; file := file st; writable := writable st;
     default_config :=
       {| workspaces := workspaces (default_config st);
          llmSettings :=
            {| providers := providers (llmSettings (default_config st));
               agentMappings := l |} |} |}.

(** [updateProvider(providerId, updates)]: [index] is what [findIndex]
    returns and [p] is [providers[index]]; nothing is written when no
    provider has the id. *)
Definition updateProvider (providerId : string) (updates : ProviderUpdates.t)
    (st : Store) : Result unit * Store :=
  match readConfig st with
  | (Throw msg, st0) => (Throw msg, st0)
  | (Ok (config, _), st0) =>
      let ps := providers (llmSettings config) in
      match list_find (fun x => LLMProvider.id x = providerId) ps with
      | None => (Ok (), st0)
      | Some (index, p) =>
          let ps' := <[index := merge_provider p updates]> ps in
          let st1 := if providers_shared st0 then set_default_providers ps' st0
                     else st0 in
          writeConfig {| workspaces := workspaces config;
                         llmSettings :=
                           {| providers := ps';
                              agentMappings := agentMappings (llmSettings config) |} |}
                      st1
      end
  end.

(** [updateAgentMapping(agentId, providerId, modelId)] *)
Definition updateAgentMapping (agentId providerId modelId : string)
    (st : Store) : Result unit * Store :=
  match readConfig st with
  | (Throw msg, st0) => (Throw msg, st0)
  | (Ok (config, _), st0) =>
      let ms := agentMappings (llmSettings config) in
      let mapping := {| AgentMapping.agentId := agentId;
                        AgentMapping.providerId := providerId;
                        AgentMapping.modelId := modelId |} in
      let ms' := match findIndex_by AgentMapping.agentId agentId ms with
                 | Some index => <[index := mapping]> ms
                 | None => ms ++ [mapping]
                 end in
      let st1 := if agentMappings_shared st0 then set_default_agentMappings ms' st0
                 else st0 in
      writeConfig {| workspaces := workspaces config;
                     llmSettings := {| providers := providers (llmSettings config);
                                       agentMappings := ms' |} |}
                  st1
  end.

(** The updates that switch a provider on with an API key. *)
Definition enable_with_key (key : string) : ProviderUpdates.t :=
  {| ProviderUpdates.id := None; ProviderUpdates.name := None;
     ProviderUpdates.apiKey := Some key; ProviderUpdates.baseUrl := None;
     ProviderUpdates.defaultModel := None; ProviderUpdates.enabled := Some true |}.

(** The file disappears (it is deleted outside the program). *)
Definition file_removed (st : Store) : Store :=
  {| config_dir := config_dir st; file := Missing; writable := writable st;
     default_config := default_config st |}.

(** *** Refusals and runs *)



(** The program starts again: the module is loaded anew, so
    [DEFAULT_CONFIG] is as written in the source; the disk is as it
    was. *)
Definition restarted (st : Store) : Store :=
  {| config_dir := config_dir st; file := file st; writable := writable st;
     default_config := DEFAULT_CONFIG |}.

(** A call of an exported function of the store or of [chatCompletion],
    with the values the environment supplies; or the removal of the file
    from outside; or a new start of the program. *)
Inductive Call :=
| AddWorkspace (workspace : NewWorkspace.t) (uuid now1 now2 : string)
| RemoveWorkspace (id : string)
| GetWorkspaceById (id : string)
| GetLLMSettings
| UpdateProvider (providerId : string) (updates : ProviderUpdates.t)
| UpdateAgentMapping (agentId providerId modelId : string)
| ChatCompletion (agentId : string) (messages : list LLMMessage)
| FileRemoved
| Restarted.

(** The store after a call, whatever the call returned or threw. *)
Definition perform (st : Store) (c : Call) : Store :=
  match c with
  | AddWorkspace workspace uuid now1 now2 => (addWorkspace workspace uuid now1 now2 st).2
  | RemoveWorkspace id => (removeWorkspace id st).2
  | GetWorkspaceById id => (getWorkspaceById id st).2
  | GetLLMSettings => (getLLMSettings st).2
  | UpdateProvider providerId updates => (updateProvider providerId updates st).2
  | UpdateAgentMapping agentId providerId modelId =>
      (updateAgentMapping agentId providerId modelId st).2
  | ChatCompletion agentId messages => (chatCompletion agentId messages st).2
  | FileRemoved => file_removed st
  | Restarted => restarted st
  end.

(** The ids that [crypto.randomUUID()] returned in the calls, in call
    order. *)
Definition generated (calls : list Call) : list string :=
  omap (fun c => match c with
                 | AddWorkspace _ uuid _ _ => Some uuid
                 | _ => None
                 end) calls.

(** A new installation: no configuration file yet, the directory there
    or still to be made, the file writable. *)
Definition new_installation (dir_exists : bool) : Store :=
  {| config_dir := if dir_exists then DirPresent else DirAbsent;
     file := Missing; writable := true; default_config := DEFAULT_CONFIG |}.

(** The store after a sequence of calls. *)
Definition after (calls : list Call) (st : Store) : Store := foldl perform st calls.

(** Every workspace that the store holds, in the file or in
    [DEFAULT_CONFIG], has one of the given ids. *)
Definition ids_within (ids : list string) (st : Store) : Prop :=
  Forall (fun w => WorkspaceConfig.id w ∈ ids) (workspaces (default_config st)) /\
  match file st with
  | Stored parsed =>
      match parsed_workspaces parsed with
      | Some l => Forall (fun w => WorkspaceConfig.id w ∈ ids) l
      | None => True
      end
  | Missing | Unreadable _ => True
  end.

(** The file can be written, and neither the directory nor the file
    stands in the way of reading. *)
Definition healthy (st : Store) : Prop :=
  writable st = true /\
  (forall msg, config_dir st <> DirBlocked msg) /\
  (forall msg, file st <> Unreadable msg).




(** *** The request bodies of [callAnthropic] and [callGemini]
    ([lib/llm/api.ts]) *)

(** The roles that the two providers are sent. *)
Inductive WireRole := wire_user | wire_assistant | wire_model.

Record WireMessage := { wire_role : WireRole; wire_text : string }.

(** [m.role === 'system'] *)
Definition is_system (m : LLMMessage) : bool :=
  match role m with system => true | _ => false end.

(** The body that [callAnthropic] serialises; [body_system] is absent
    when no message is a system message. *)
Record AnthropicBody := {
  body_model : string;
  body_system : option string;
  body_messages : list WireMessage;
  max_tokens : Z;
}.

Definition anthropic_body (model : string) (messages : list LLMMessage)
    : AnthropicBody :=
  let systemMessage := content <$> List.find is_system messages in
  let userMessages :=
    map (fun m => {| wire_role := match role m with
                                  | assistant => wire_assistant
                                  | _ => wire_user
                                  end;
                     wire_text := content m |})
        (List.filter (fun m => negb (is_system m)) messages) in
  {| body_model := model; body_system := systemMessage;
     body_messages := userMessages; max_tokens := 4096 |}.

(** The [contents] that [callGemini] serialises; every message has one
    part. *)
Definition gemini_contents (messages : list LLMMessage) : list WireMessage :=
  map (fun m => {| wire_role := match role m with
                                | assistant => wire_model
                                | _ => wire_user
                                end;
                   wire_text := content m |})
      messages.

(** The texts of a request to Anthropic, the system text first. *)
Definition anthropic_texts (b : AnthropicBody) : list string :=
  match body_system b with
  | Some t => t :: map wire_text (body_messages b)
  | None => map wire_text (body_messages b)
  end.

End Config.

(** ** Server actions ([app/actions/agent.ts], [app/actions/terminal.ts]) *)

Module Actions.
Import JS.

Inductive Role := system | user | assistant.

Record LLMMessage := { role : Role; content : string }.

(** What [axiomApi.orchestrate] resolves to. *)
Module OrchestrateResponse.
Record t := {
  next_agent : string;
  reasoning : string;
  task : option string;
  error : option string;
}.
End OrchestrateResponse.

Module OrchestratorDecision.
Record t := {
  nextAgent : string;
  reasoning : string;
  task : option string;
}.
End OrchestratorDecision.

(** An element of [operations] in what [axiomApi.runDeveloper] resolves to. *)
Module BackendOperation.
Record t := {
  type : string;
  path : option string;
  command : option string;
  success : option bool;
  error : option string;
}.
End BackendOperation.

Module RunDeveloperResponse.
Record t := {
  reasoning : string;
  operations : list BackendOperation.t;
  message : string;
  error : option string;
}.
End RunDeveloperResponse.

Module AgentOperation.
Record t := {
  type : string;
  path : option string;
  content : option string;
  command : option string;
  success : option bool;
  error : option string;
}.
End AgentOperation.

Module DeveloperResponse.
Record t := {
  reasoning : string;
  operations : list AgentOperation.t;
  message : string;
}.
End DeveloperResponse.

(** [CommandResult] of [lib/api/types.ts], as the backend sends it. *)
Module BackendCommandResult.
Record t := { stdout : string; stderr : string; exit_code : Z }.
End BackendCommandResult.

(** [CommandResult] of [app/actions/terminal.ts]. *)
Module CommandResult.
Record t := { stdout : string; stderr : string; exitCode : Z }.
End CommandResult.

(** What a request of [axiomApi] meets ([lib/api/client.ts]): a
    response that is ok, whose body is the JSON of a value; a response
    that is not ok, with its status and body; or an error of the
    platform ([fetch] or [response.json()] rejects), whose message is a
    text, given by its first character and the rest. *)
Inductive Exchange (A : Type) :=
| Responded (value : A)
| NotOk (status : N) (body : string)
| PlatformError (first : Ascii.ascii) (rest : string).
Arguments Responded {A} value.
Arguments NotOk {A} status body.
Arguments PlatformError {A} first rest.

(** [AxiomApiClient.fetch(endpoint, options)]: the value, or the error
    thrown. *)
Definition fetch {A} (x : Exchange A) : Result A :=
  match x with
  | Responded value => Ok value
  | NotOk status body => Throw ("API error (" +:+ pretty status +:+ "): " +:+ body)
  | PlatformError first rest => Throw (String first rest)
  end.

(** The backend, as what the three requests of the actions meet. *)
Record AxiomApi := {
  orchestrate_exchange : string -> list LLMMessage -> Exchange OrchestrateResponse.t;
  runDeveloper_exchange : string -> string -> Exchange RunDeveloperResponse.t;
  runCommand_exchange : string -> string -> Exchange BackendCommandResult.t;
}.

(** [axiomApi.orchestrate(workspaceId, messages)] *)
Definition orchestrate (api : AxiomApi) (workspaceId : string)
    (messages : list LLMMessage) : Result OrchestrateResponse.t :=
  fetch (orchestrate_exchange api workspaceId messages).

(** [axiomApi.runDeveloper(workspaceId, task)] *)
Definition runDeveloper (api : AxiomApi) (workspaceId task : string)
    : Result RunDeveloperResponse.t :=
  fetch (runDeveloper_exchange api workspaceId task).

(** [axiomApi.runCommand(workspaceId, command)] *)
Definition runCommand (api : AxiomApi) (workspaceId command : string)
    : Result BackendCommandResult.t :=
  fetch (runCommand_exchange api workspaceId command).

(** [try { body } catch (error) { handler(error.message) }] *)
Definition try_catch {A} (body : Result A) (handler : string -> Result A) : Result A :=
  match body with
  | Ok a => Ok a
  | Throw message => handler message
  end.

(** [orchestrateAction(workspaceId, messages)] *)
Definition orchestrateAction (api : AxiomApi) (workspaceId : string)
    (messages : list LLMMessage) : Result OrchestratorDecision.t :=
  try_catch
    (match orchestrate api workspaceId messages with
     | Throw message => Throw message
     | Ok response =>
         if truthy (OrchestrateResponse.error response)
         then Throw (default "" (OrchestrateResponse.error response))
         else Ok {| OrchestratorDecision.nextAgent := OrchestrateResponse.next_agent response;
                    OrchestratorDecision.reasoning := OrchestrateResponse.reasoning response;
                    OrchestratorDecision.task := OrchestrateResponse.task response |}
     end)
    (fun message =>
       Ok {| OrchestratorDecision.nextAgent := "user";
             OrchestratorDecision.reasoning := "Error occurred during orchestration";
             OrchestratorDecision.task :=
               Some (or_else message "An error occurred. Please try again.") |}).

(** [developerAction(workspaceId, task)] *)
Definition developerAction (api : AxiomApi) (workspaceId task : string)
    : Result DeveloperResponse.t :=
  try_catch
    (match runDeveloper api workspaceId task with
     | Throw message => Throw message
     | Ok response =>
         if truthy (RunDeveloperResponse.error response)
         then Throw (default "" (RunDeveloperResponse.error response))
         else Ok {| DeveloperResponse.reasoning := RunDeveloperResponse.reasoning response;
                    DeveloperResponse.operations :=
                      map (fun op =>
                             {| AgentOperation.type := BackendOperation.type op;
                                AgentOperation.path := BackendOperation.path op;
                                AgentOperation.content := None;
                                AgentOperation.command := BackendOperation.command op;
                                AgentOperation.success := BackendOperation.success op;
                                AgentOperation.error := BackendOperation.error op |})
                          (RunDeveloperResponse.operations response);
                    DeveloperResponse.message := RunDeveloperResponse.message response |}
     end)
    (fun message =>
       Ok {| DeveloperResponse.reasoning := "Failed to execute developer agent";
             DeveloperResponse.operations := [];
             DeveloperResponse.message :=
               or_else message "An error occurred. Please try again." |}).

(** [runCommandAction(command, workspaceId)] *)
Definition runCommandAction (api : AxiomApi) (command workspaceId : string)
    : Result CommandResult.t :=
  try_catch
    (match runCommand api workspaceId command with
     | Throw message => Throw message
     | Ok result =>
         Ok {| CommandResult.stdout := BackendCommandResult.stdout result;
               CommandResult.stderr := BackendCommandResult.stderr result;
               CommandResult.exitCode := BackendCommandResult.exit_code result |}
     end)
    (fun message =>
       Ok {| CommandResult.stdout := "";
             CommandResult.stderr := or_else message "Command execution failed";
             CommandResult.exitCode := 1 |}).

(** The fallback values. *)
Definition orchestrate_fallback (message : string) : OrchestratorDecision.t :=
  {| OrchestratorDecision.nextAgent := "user";
     OrchestratorDecision.reasoning := "Error occurred during orchestration";
     OrchestratorDecision.task := Some message |}.

Definition developer_fallback (message : string) : DeveloperResponse.t :=
  {| DeveloperResponse.reasoning := "Failed to execute developer agent";
     DeveloperResponse.operations := [];
     DeveloperResponse.message := message |}.

Definition command_fallback (message : string) : CommandResult.t :=
  {| CommandResult.stdout := ""; CommandResult.stderr := message;
     CommandResult.exitCode := 1 |}.

(** A backend that answers every request with the given status and
    body, the response not being ok. *)
Definition failing_api (status : N) (body : string) : AxiomApi :=
  {| orchestrate_exchange := fun _ _ => NotOk status body;
     runDeveloper_exchange := fun _ _ => NotOk status body;
     runCommand_exchange := fun _ _ => NotOk status body |}.

End Actions.

(** ** Workspace page ([app/workspace/[id]/page.tsx], [lib/agents/types.ts]) *)

Module Page.
Import JS.

Inductive AgentRole := orchestrator | po | architect | developer.

#[global] Instance AgentRole_eq_dec : EqDecision AgentRole.
Proof. solve_decision. Defined.

(** [AgentState['status']] *)
Inductive Status := idle | thinking | working | waiting.

#[global] Instance Status_eq_dec : EqDecision Status.
Proof. solve_decision. Defined.

Record AgentState := {
  id : AgentRole;
  name : string;
  status : Status;
  currentTask : option string;
  lastMessage : option string;
}.

(** [Record<AgentRole, AgentState>] *)
Definition AgentStates := AgentRole -> AgentState.

(** The initial value of the [agentStates] state variable. *)
Definition initial_agentStates : AgentStates :=
  fun r =>
    {| id := r;
       name := match r with
               | orchestrator => "Orchestrator"
               | po => "Product Owner"
               | architect => "Architect"
               | developer => "Developer"
               end;
       status := idle; currentTask := None; lastMessage := None |}.

(** [updateAgentStatus(role, status, message)], as the updater that it
    passes to [setAgentStates]. *)
Definition updateAgentStatus (role : AgentRole) (s : Status) (message : option string)
    (prev : AgentStates) : AgentStates :=
  fun r =>
    if decide (r = role)
    then {| id := id (prev role); name := name (prev role); status := s;
            currentTask := currentTask (prev role); lastMessage := message |}
    else prev r.

(** A call of [updateAgentStatus]. *)
Record StatusUpdate := {
  update_role : AgentRole;
  update_status : Status;
  update_message : option string;
}.

Definition apply_update (u : StatusUpdate) (prev : AgentStates) : AgentStates :=
  updateAgentStatus (update_role u) (update_status u) (update_message u) prev.

(** The statuses stored for [role], oldest first: the one it starts
    with, then one for every call that addresses it. *)
Fixpoint status_history (role : AgentRole) (calls : list StatusUpdate)
    (prev : AgentStates) : list Status :=
  match calls with
  | [] => [status (prev role)]
  | u :: calls' =>
      if decide (update_role u = role)
      then status (prev role) :: status_history role calls' (apply_update u prev)
      else status_history role calls' (apply_update u prev)
  end.

(** [AgentStatus] of [lib/api/types.ts], the backend's vocabulary. *)
Inductive AgentStatus := pending | running | completed | failed | cancelled.

#[global] Instance AgentStatus_eq_dec : EqDecision AgentStatus.
Proof. solve_decision. Defined.

Definition terminal (s : AgentStatus) : bool :=
  match s with
  | completed | failed | cancelled => true
  | pending | running => false
  end.

(** A sequence of backend statuses follows the life cycle: it is a
    subsequence of pending, running, one terminal status. *)
Definition follows_lifecycle (h : list AgentStatus) : Prop :=
  exists t, terminal t = true /\ h `sublist_of` [pending; running; t].

(** The two calls that [handleSendMessage] makes for the orchestrator
    around [orchestrateAction]. *)
Definition orchestrator_round : list StatusUpdate :=
  [ {| update_role := orchestrator; update_status := thinking;
       update_message := Some "Analyzing request..." |};
    {| update_role := orchestrator; update_status := idle;
       update_message := Some "reasoning" |} ].

(** *** Message submission *)

Inductive Role := system | user | assistant.

(** [LLMMessage], with the content as code units. *)
Record ChatMessage := { role : Role; content : jsstring }.

(** [FileEntry] of [lib/api/types.ts]. *)
Record FileEntry := {
  file_name : string;
  file_path : string;
  is_directory : bool;
  size : Z;
  modified : option Z;
  is_hidden : option bool;
}.

(** The state variables of the page that [handleSendMessage] reads or
    writes. *)
Record PageState := {
  messages : list ChatMessage;
  inputValue : jsstring;
  activeFile : option FileEntry;
  agentStates : AgentStates;
}.

(** The server action that a submission reaches, with its argument. *)
Inductive Dispatch :=
| NoDispatch
| SlashCommandAction (command : jsstring)
| OrchestrateAction (history : list ChatMessage).

(** [handleSlashCommand(command)] up to the call of
    [slashCommandAction]. *)
Definition handleSlashCommand (command : jsstring) (st : PageState)
    : Dispatch * PageState :=
  (SlashCommandAction command,
   {| messages := messages st ++ [{| role := user; content := command |}];
      inputValue := [];
      activeFile := activeFile st;
      agentStates := agentStates st |}).

(** [handleSendMessage()] up to the call of the server action. *)
Definition handleSendMessage (st : PageState) : Dispatch * PageState :=
  match trim (inputValue st) with
  | [] => (NoDispatch, st)
  | _ :: _ =>
      if startsWith slash (trim (inputValue st))
      then handleSlashCommand (trim (inputValue st)) st
      else
        let userMsg := {| role := user; content := inputValue st |} in
        (OrchestrateAction (messages st ++ [userMsg]),
         {| messages := messages st ++ [userMsg];
            inputValue := [];
            activeFile := None;
            agentStates :=
              updateAgentStatus orchestrator thinking (Some "Analyzing request...")
                (agentStates st) |})
  end.

(** The input is empty or consists of white space only. *)
Definition blank (s : jsstring) : Prop := Forall (fun c => is_white_space c = true) s.

(** The first code unit that is not white space, if any. *)
Definition leading (s : jsstring) : option N := head (trimStart s).

(** A page on which [s] has been typed. *)
Definition typed (s : jsstring) : PageState :=
  {| messages := []; inputValue := s; activeFile := None;
     agentStates := initial_agentStates |}.

End Page.

(** ** PTY output parser

    The terminal-emulation parser belongs to the PTY session of the Rust
    backend, which is not among the sources of the web front end; the
    front end only declares what it receives ([PtyOutput], [TerminalScreen]
    in [lib/api/types.ts]). *)

Module PtyParser.

(** Modelled from the spec: a cell of the screen buffer of the missing
    PTY session parser, "character + foreground/background attributes". *)
Record Cell := { ch : N; fg : N; bg : N }.

Definition blank_cell : Cell := {| ch := 32; fg := 7; bg := 0 |}.

(** Modelled from the spec: the parsed screen of the missing PTY session
    parser, "2D grid of cells ..., cursor position, scrollback", with the
    current colours and the scroll region that the control sequences
    set. *)
Record Grid := {
  cols : nat;
  rows : nat;
  cells : list (list Cell);
  cursor_row : nat;
  cursor_col : nat;
  cur_fg : N;
  cur_bg : N;
  scroll_top : nat;
  scroll_bottom : nat;
  scrollback : list (list Cell);
}.

(** Modelled from the spec: the state of the missing PTY session parser
    between two reads: the grid, and the bytes of a control sequence that
    the reads so far left incomplete ("buffer partial sequences across
    calls"). *)
Record Parser := { grid : Grid; pending : list N }.

Definition new_grid (c r : nat) : Grid :=
  {| cols := c; rows := r; cells := replicate r (replicate c blank_cell);
     cursor_row := 0; cursor_col := 0; cur_fg := 7; cur_bg := 0;
     scroll_top := 0; scroll_bottom := r - 1; scrollback := [] |}.

Definition new_parser (c r : nat) : Parser :=
  {| grid := new_grid c r; pending := [] |}.

Definition set_cursor (r c : nat) (g : Grid) : Grid :=
  {| cols := cols g; rows := rows g; cells := cells g;
     cursor_row := r; cursor_col := c; cur_fg := cur_fg g; cur_bg := cur_bg g;
     scroll_top := scroll_top g; scroll_bottom := scroll_bottom g;
     scrollback := scrollback g |}.

Definition set_colours (f b : N) (g : Grid) : Grid :=
  {| cols := cols g; rows := rows g; cells := cells g;
     cursor_row := cursor_row g; cursor_col := cursor_col g;
     cur_fg := f; cur_bg := b;
     scroll_top := scroll_top g; scroll_bottom := scroll_bottom g;
     scrollback := scrollback g |}.

Definition set_region (t b : nat) (g : Grid) : Grid :=
  {| cols := cols g; rows := rows g; cells := cells g;
     cursor_row := 0; cursor_col := 0; cur_fg := cur_fg g; cur_bg := cur_bg g;
     scroll_top := t; scroll_bottom := b; scrollback := scrollback g |}.

Definition set_cells (l sb : list (list Cell)) (g : Grid) : Grid :=
  {| cols := cols g; rows := rows g; cells := l;
     cursor_row := cursor_row g; cursor_col := cursor_col g;
     cur_fg := cur_fg g; cur_bg := cur_bg g;
     scroll_top := scroll_top g; scroll_bottom := scroll_bottom g;
     scrollback := sb |}.

(** Modelled from the spec: scrolling of the missing parser's grid, the
    lines of the scroll region move up by one, the line leaving a region
    that starts at the top of the screen goes to the scrollback. *)
Definition scroll_up (g : Grid) : Grid :=
  let t := scroll_top g in
  let b := scroll_bottom g in
  let above := take t (cells g) in
  let region := drop t (take (S b) (cells g)) in
  let below := drop (S b) (cells g) in
  let kept := drop 1 region ++ [replicate (cols g) blank_cell] in
  let sb := match t, region with
            | O, line :: _ => scrollback g ++ [line]
            | _, _ => scrollback g
            end in
  set_cells (above ++ kept ++ below) sb g.

(** Modelled from the spec: line feed of the missing parser. *)
Definition line_feed (g : Grid) : Grid :=
  if decide (cursor_row g = scroll_bottom g) then scroll_up g
  else if decide (S (cursor_row g) < rows g)
       then set_cursor (S (cursor_row g)) (cursor_col g) g
       else g.

(** Modelled from the spec: a printable byte is written at the cursor
    with the current colours; at the right margin the line wraps first
    ("line wrap"). *)
Definition print_byte (b : N) (g : Grid) : Grid :=
  let g1 := if decide (cols g <= cursor_col g)
            then set_cursor (cursor_row (line_feed g)) 0 (line_feed g)
            else g in
  let c := {| ch := b; fg := cur_fg g1; bg := cur_bg g1 |} in
  set_cursor (cursor_row g1) (S (cursor_col g1))
    (set_cells (alter (fun line => <[cursor_col g1 := c]> line) (cursor_row g1) (cells g1))
               (scrollback g1) g1).

(** Modelled from the spec: what the missing parser recognises in the
    byte stream: printable bytes, single control bytes, and control
    sequences introduced by ESC [ (cursor movement, colours, scroll
    region). *)
Inductive Token :=
| Print (b : N)
| Control (b : N)
| Csi (params : list nat) (final : N).

Definition ESC : N := 27.

Definition is_digit (b : N) : bool := bool_decide (48 <= b <= 57)%N.
Definition is_final (b : N) : bool := bool_decide (64 <= b <= 126)%N.
Definition digit (b : N) : nat := N.to_nat (b - 48).

(** Result of reading the body of a control sequence. *)
Inductive CsiScan :=
| CsiFound (params : list nat) (final : N) (rest : list N)
| CsiPartial
| CsiMalformed.

(** Modelled from the spec: the missing parser reads the parameters of a
    control sequence, decimal numbers separated by [;], up to the final
    byte; the input may end before it (a truncated sequence) or contain a
    byte that cannot occur there (a malformed one). *)
Fixpoint scan_csi (input : list N) (params : list nat) (cur : nat) : CsiScan :=
  match input with
  | [] => CsiPartial
  | b :: rest =>
      if is_digit b then scan_csi rest params (cur * 10 + digit b)
      else if bool_decide (b = 59%N) then scan_csi rest (params ++ [cur]) 0
      else if is_final b then CsiFound (params ++ [cur]) b rest
      else CsiMalformed
  end.

(** Result of reading one token. *)
Inductive Scan :=
| Complete (t : Token) (rest : list N)
| Partial
| Finished.

(** Modelled from the spec: the missing parser takes one token from the
    front of the input.  A truncated control sequence yields [Partial];
    a malformed one is resolved by taking its ESC byte as a literal
    ("treat unknown bytes as literal"). *)
Definition next_token (input : list N) : Scan :=
  match input with
  | [] => Finished
  | b :: rest =>
      if bool_decide (b = ESC) then
        match rest with
        | [] => Partial
        | b' :: rest' =>
            if bool_decide (b' = 91%N) then
              match scan_csi rest' [] 0 with
              | CsiFound ps f r => Complete (Csi ps f) r
              | CsiPartial => Partial
              | CsiMalformed => Complete (Print b) rest
              end
            else Complete (Print b) rest
        end
      else if bool_decide (b < 32)%N then Complete (Control b) rest
      else Complete (Print b) rest
  end.

(** The [n]-th parameter, where an absent or zero parameter counts as 1. *)
Definition arg (n : nat) (ps : list nat) : nat :=
  match ps !! n with
  | Some (S k) => S k
  | _ => 1
  end.

(** Modelled from the spec: a colour parameter of the missing parser. *)
Definition sgr (g : Grid) (p : nat) : Grid :=
  if decide (p = 0) then set_colours 7 0 g
  else if decide (30 <= p <= 37) then set_colours (N.of_nat (p - 30)) (cur_bg g) g
  else if decide (40 <= p <= 47) then set_colours (cur_fg g) (N.of_nat (p - 40)) g
  else g.

(** Modelled from the spec: the effect of a control sequence of the
    missing parser on the grid: cursor movement (A, B, C, D, H), colours
    (m), scroll region (r); other sequences are ignored. *)
Definition apply_csi (ps : list nat) (f : N) (g : Grid) : Grid :=
  if bool_decide (f = 65%N) then set_cursor (cursor_row g - arg 0 ps) (cursor_col g) g
  else if bool_decide (f = 66%N)
  then set_cursor (Nat.min (rows g - 1) (cursor_row g + arg 0 ps)) (cursor_col g) g
  else if bool_decide (f = 67%N)
  then set_cursor (cursor_row g) (Nat.min (cols g - 1) (cursor_col g + arg 0 ps)) g
  else if bool_decide (f = 68%N) then set_cursor (cursor_row g) (cursor_col g - arg 0 ps) g
  else if bool_decide (f = 72%N)
  then set_cursor (Nat.min (rows g - 1) (arg 0 ps - 1))
                  (Nat.min (cols g - 1) (arg 1 ps - 1)) g
  else if bool_decide (f = 109%N) then foldl sgr g ps
  else if bool_decide (f = 114%N)
  then let t := arg 0 ps - 1 in
       let b := match ps !! 1 with Some (S k) => k | _ => rows g - 1 end in
       if decide (t < b /\ b < rows g) then set_region t b g else g
  else g.

(** Modelled from the spec: the effect of one token of the missing
    parser on the grid. *)
Definition apply_token (t : Token) (g : Grid) : Grid :=
  match t with
  | Print b => print_byte b g
  | Control b =>
      if bool_decide (b = 10%N) then line_feed g
      else if bool_decide (b = 13%N) then set_cursor (cursor_row g) 0 g
      else if bool_decide (b = 8%N) then set_cursor (cursor_row g) (cursor_col g - 1) g
      else g
  | Csi ps f => apply_csi ps f g
  end.

(** Modelled from the spec: the missing parser consumes tokens while the
    input holds complete ones; what is left is either nothing or a
    truncated control sequence.  One unit of fuel per token. *)
Fixpoint run (fuel : nat) (input : list N) (g : Grid) : Grid * list N :=
  match fuel with
  | O => (g, input)
  | S fuel' =>
      match next_token input with
      | Finished => (g, [])
      | Partial => (g, input)
      | Complete t rest => run fuel' rest (apply_token t g)
      end
  end.

(** Modelled from the spec: one call of the missing parser with the
    bytes of one read: the bytes kept from earlier reads are put in front
    of the chunk, and the truncated sequence at the end, if any, is kept
    for the next call.  A token has at least one byte, so the length of
    the input is enough fuel. *)
Definition feed (p : Parser) (chunk : list N) : Parser :=
  let input := pending p ++ chunk in
  let '(g, kept) := run (length input) input (grid p) in
  {| grid := g; pending := kept |}.

(** ESC [ 3 1 m X: red foreground, then the letter X. *)
Definition red_X : list N := [27; 91; 51; 49; 109; 88]%N.

End PtyParser.

(** ** Paths and file names ([components/FilePickerModal.tsx], the
    dashboard page, [getLanguage] of the workspace page) *)

Module PathNames.
Import JS.

(** The code units of an ASCII literal. *)
Definition units (s : string) : jsstring :=
  map (fun a => N.of_nat (Ascii.nat_of_ascii a)) (String.list_ascii_of_string s).

Definition dot : N := 46%N.

(** [s.split(sep)] for a one-unit separator: never an empty array. *)
Fixpoint split (sep : N) (s : jsstring) : list jsstring :=
  match s with
  | [] => [[]]
  | c :: rest =>
      if bool_decide (c = sep) then [] :: split sep rest
      else match split sep rest with
           | seg :: segs => (c :: seg) :: segs
           | [] => [[c]]
           end
  end.

(** [segments.join(sep)] *)
Fixpoint join (sep : N) (segments : list jsstring) : jsstring :=
  match segments with
  | [] => []
  | [seg] => seg
  | seg :: rest => seg ++ sep :: join sep rest
  end.

(** [a || b] on strings given as code units. *)
Definition or_units (a b : jsstring) : jsstring :=
  match a with [] => b | _ :: _ => a end.

(** [currentPath.split('/').slice(0, -1).join('/') || '/'] *)
Definition parent_of (currentPath : jsstring) : jsstring :=
  or_units (join slash (removelast (split slash currentPath))) [slash].

(** [handleUp()] of the file picker: the directory that is loaded, if
    any. *)
Definition handleUp (currentPath : jsstring) : option jsstring :=
  match currentPath with
  | [] => None
  | _ :: _ => Some (parent_of currentPath)
  end.

(** The number of ['/'] in a path. *)
Fixpoint slashes (path : jsstring) : nat :=
  match path with
  | [] => 0
  | c :: rest => if bool_decide (c = slash) then S (slashes rest) else slashes rest
  end.

(** [path.split('/').pop() || 'Untitled Workspace'] *)
Definition title_of (path : jsstring) : jsstring :=
  or_units (default [] (last (split slash path))) (units "Untitled Workspace").

Inductive WorkspaceType := local | remote.

(** [handleWorkspaceSelected(path)] of the dashboard: the arguments of
    the call of [addWorkspaceAction], if it is made. *)
Definition handleWorkspaceSelected (path : jsstring)
    : option (jsstring * jsstring * WorkspaceType) :=
  match path with
  | [] => None
  | _ :: _ => Some (title_of path, path, local)
  end.

(** Strings of ASCII code units, on which [toLowerCase()] changes the
    letters A to Z only. *)
Definition ascii_units (s : jsstring) : Prop := Forall (fun c => (c < 128)%N) s.

(** [toLowerCase()] on ASCII code units. *)
Definition lower (c : N) : N :=
  if bool_decide (65 <= c <= 90)%N then (c + 32)%N else c.

Definition toLowerCase (s : jsstring) : jsstring := map lower s.

(** [getLanguage(filename)] of the workspace page. *)
Definition getLanguage (filename : jsstring) : string :=
  let ext := toLowerCase (default [] (last (split dot filename))) in
  if decide (ext = units "ts") then "typescript"
  else if decide (ext = units "tsx") then "typescript"
  else if decide (ext = units "js") then "javascript"
  else if decide (ext = units "jsx") then "javascript"
  else if decide (ext = units "css") then "css"
  else if decide (ext = units "json") then "json"
  else if decide (ext = units "html") then "html"
  else if decide (ext = units "md") then "markdown"
  else if decide (ext = units "py") then "python"
  else "text".

End PathNames.

(** ** The file list of the developer agent
    ([lib/fs.ts], [lib/agents/developer.ts]) *)

Module FileTree.

(** A path, as the names that lead to it; [path.join(dirPath, name)]
    adds one name. *)
Definition Path := list string.

(** A [Dirent] of [fs.readdir(dirPath, { withFileTypes: true })]. *)
Record Dirent := { d_name : string; d_isDirectory : bool }.

(** The file system: what [fs.readdir] answers for a path, or [None]
    when [fs.stat] or [fs.readdir] throws or the path is no directory. *)
Definition FileSystem := Path -> option (list Dirent).

Record FileEntry := { name : string; path : Path; isDirectory : bool }.

(** [entry.name.startsWith('.')] *)
Definition hidden (n : string) : bool := String.prefix "." n.

(** [listDirectory(dirPath)]; [None] when it throws. *)
Definition listDirectory (fs : FileSystem) (dirPath : Path)
    : option (list FileEntry) :=
  match fs dirPath with
  | None => None
  | Some entries =>
      Some (omap (fun entry =>
                    if hidden (d_name entry) then None
                    else Some {| name := d_name entry;
                                 path := dirPath ++ [d_name entry];
                                 isDirectory := d_isDirectory entry |})
                 entries)
  end.

(** The names that [getSimpleFileTree] passes over. *)
Definition skipped (n : string) : bool :=
  bool_decide (n = "node_modules") || bool_decide (n = ".git")
  || bool_decide (n = ".next").

(** [getSimpleFileTree(dir, depth)], with [levels] for [4 - depth], the
    number of directory levels still read: none when [depth > 3].  A
    directory that cannot be listed gives no files. *)
Fixpoint getSimpleFileTree_from (levels : nat) (fs : FileSystem) (dir : Path)
    : list Path :=
  match levels with
  | 0 => []
  | S levels' =>
      match listDirectory fs dir with
      | None => []
      | Some entries =>
          flat_map (fun entry =>
                      if skipped (name entry) then []
                      else if isDirectory entry
                           then getSimpleFileTree_from levels' fs (path entry)
                           else [path entry])
                   entries
      end
  end.

(** [getSimpleFileTree(dir)], that is, with [depth = 0]. *)
Definition getSimpleFileTree (fs : FileSystem) (dir : Path) : list Path :=
  getSimpleFileTree_from 4 fs dir.

(** A name that is neither hidden nor [node_modules]. *)
Definition shown (n : string) : Prop := hidden n = false /\ n <> "node_modules".

(** [names] leads from the directory [dir] to a file, through
    directories that can be listed, by names that are shown. *)
Inductive leads_to_file (fs : FileSystem) : Path -> list string -> Prop :=
| file_here dir entries n :
    fs dir = Some entries ->
    {| d_name := n; d_isDirectory := false |} ∈ entries ->
    shown n ->
    leads_to_file fs dir [n]
| file_below dir entries n names :
    fs dir = Some entries ->
    {| d_name := n; d_isDirectory := true |} ∈ entries ->
    shown n ->
    leads_to_file fs (dir ++ [n]) names ->
    leads_to_file fs dir (n :: names).

(** A workspace with a source file, a dependency directory and a hidden
    directory. *)
Definition sample_fs : FileSystem :=
  fun p =>
    if decide (p = ["ws"]) then
      Some [ {| d_name := "src"; d_isDirectory := true |};
             {| d_name := "node_modules"; d_isDirectory := true |};
             {| d_name := ".git"; d_isDirectory := true |};
             {| d_name := "README.md"; d_isDirectory := false |} ]
    else if decide (p = ["ws"; "src"]) then
      Some [ {| d_name := "main.ts"; d_isDirectory := false |} ]
    else if decide (p = ["ws"; "node_modules"]) then
      Some [ {| d_name := "dep.js"; d_isDirectory := false |} ]
    else None.

End FileTree.

(** ** Replies of the language model
    ([lib/agents/orchestrator.ts], [lib/agents/developer.ts]) *)

Module AgentReplies.
Import JS PathNames.

Definition backtick : N := 96%N.
Definition newline : N := 10%N.

(** The three backticks of a Markdown code fence, and a fence that is
    labelled [json]. *)
Definition fence : jsstring := [backtick; backtick; backtick].
Definition fence_json : jsstring := fence ++ units "json".

(** [s] begins with [pat]. *)
Definition begins_with (pat s : jsstring) : bool :=
  bool_decide (take (length pat) s = pat).

(** [s.replace(/pat/g, '')] for a literal, non-empty [pat]: the matches
    are taken from left to right and do not overlap.  [skip] is the
    number of code units of the current match still to be passed
    over. *)
Fixpoint remove_all_from (skip : nat) (pat s : jsstring) : jsstring :=
  match s with
  | [] => []
  | c :: rest =>
      match skip with
      | S k => remove_all_from k pat rest
      | 0 =>
          if begins_with pat s
          then remove_all_from (length pat - 1) pat rest
          else c :: remove_all_from 0 pat rest
      end
  end.

Definition remove_all (pat s : jsstring) : jsstring := remove_all_from 0 pat s.

(** [content.replace(/```json/g, '').replace(/```/g, '').trim()] *)
Definition cleanContent (content : jsstring) : jsstring :=
  trim (remove_all fence (remove_all fence_json content)).

(** [pat] occurs in [s]. *)
Definition occurs (pat s : jsstring) : Prop := exists a b, s = a ++ pat ++ b.

(** The decision that [orchestrate] falls back to. *)
Record OrchestratorDecision := {
  nextAgent : jsstring;
  reasoning : jsstring;
  task : jsstring;
}.

(** The response that [runDeveloperAgent] falls back to; it has no
    operations. *)
Record DeveloperFallback := {
  dev_reasoning : jsstring;
  dev_message : jsstring;
}.

(** What the two agents return: the value that [JSON.parse] gave,
    whatever it is, or the fallback. *)
Inductive Reply (Value Fallback : Type) :=
| parsed (v : Value)
| fallback (f : Fallback).
Arguments parsed {Value Fallback} v.
Arguments fallback {Value Fallback} f.

Section Parse.
Context {Value : Type}.

(** [JSON.parse]; [None] when it throws. *)
Variable JSON_parse : jsstring -> option Value.

(** [orchestrate(messages)] from the response of [chatCompletion] on;
    [content] is [response.content]. *)
Definition orchestrate (content : jsstring) : Reply Value OrchestratorDecision :=
  match JSON_parse (cleanContent content) with
  | Some v => parsed v
  | None => fallback {| nextAgent := units "user";
                        reasoning := units "Direct response";
                        task := content |}
  end.

(** [runDeveloperAgent(task, workspacePath)] from the response of
    [chatCompletion] on. *)
Definition runDeveloperAgent (content : jsstring) : Reply Value DeveloperFallback :=
  match JSON_parse (cleanContent content) with
  | Some v => parsed v
  | None =>
      fallback {| dev_reasoning := units "Failed to parse response";
                  dev_message :=
                    units "I tried to generate a response but failed the format check." |}
  end.

End Parse.

(** A reply in a labelled fence, as language models write it. *)
Definition fenced (body : jsstring) : jsstring :=
  fence_json ++ newline :: body ++ newline :: fence.

(** A [JSON.parse] that accepts the empty object only. *)
Definition parse_empty_object (s : jsstring) : option unit :=
  if decide (s = units "{}") then Some tt else None.

End AgentReplies.

(** * Properties *)

(** ** WebSocket client *)

Module WebSocketClientProofs.
Import WebSocketClient.

(** *** Frame lemmas: which fields an operation leaves alone *)

Lemma same_control_refl w : same_control w w.
Proof. by repeat split. Qed.

Lemma same_control_trans w1 w2 w3 :
  same_control w1 w2 -> same_control w2 w3 -> same_control w1 w3.
Proof. unfold same_control. intros ? ?. intuition congruence. Qed.

Lemma same_control_ws_open w w' : same_control w w' -> ws_open w' = ws_open w.
Proof. intros (Hs & _ & _ & Hw & _). unfold ws_open. by rewrite Hs, Hw. Qed.

Lemma send_open c w :
  ws_open w = true -> send c w = (true, set_sent (sent w ++ [c]) w).
Proof. intros H. unfold send. by rewrite H. Qed.

Lemma send_queued c w :
  ws_open w = false -> reconnect (options w) = true ->
  send c w = (false, set_messageQueue (messageQueue w ++ [c]) w).
Proof. intros H Hr. unfold send. by rewrite H, Hr. Qed.

Lemma send_dropped c w :
  ws_open w = false -> reconnect (options w) = false -> send c w = (false, w).
Proof. intros H Hr. unfold send. by rewrite H, Hr. Qed.

Lemma send_control c w : same_control w (send c w).2.
Proof.
  unfold send. destruct (ws_open w); [|destruct (reconnect (options w))];
    by repeat split.
Qed.

Lemma send_state c w : state (send c w).2 = state w.
Proof.
  unfold send. by destruct (ws_open w); [|destruct (reconnect (options w))].
Qed.

Lemma send_sent_prefix c w : sent w `prefix_of` sent (send c w).2.
Proof.
  unfold send. destruct (ws_open w); [|destruct (reconnect (options w))]; simpl;
    [by apply prefix_app_r|done|done].
Qed.

Lemma sends_control cs w : same_control w (foldl (fun acc c => (send c acc).2) w cs).
Proof.
  revert w. induction cs as [|c cs IH]; intros w; simpl.
  - apply same_control_refl.
  - eapply same_control_trans; [apply (send_control c)|apply IH].
Qed.

Lemma sends_sent_prefix cs w :
  sent w `prefix_of` sent (foldl (fun acc c => (send c acc).2) w cs).
Proof.
  revert w. induction cs as [|c cs IH]; intros w; simpl; [done|].
  etrans; [apply (send_sent_prefix c)|apply IH].
Qed.

Lemma setState_control s w : same_control w (setState s w).
Proof.
  unfold setState. simpl. destruct (onStateChange (options w)) as [f|].
  - eapply same_control_trans; [|apply sends_control]. by repeat split.
  - by repeat split.
Qed.

Lemma setState_sent_prefix s w : sent w `prefix_of` sent (setState s w).
Proof.
  unfold setState. simpl. destruct (onStateChange (options w)) as [f|]; [|done].
  etrans; [|apply sends_sent_prefix]. done.
Qed.

Lemma flushMessageQueue_control fuel w w' :
  flushMessageQueue fuel w = Some w' -> same_control w w'.
Proof.
  revert w. induction fuel as [|n IH]; intros w; simpl;
    destruct (messageQueue w) as [|c rest] eqn:Hq; intros H; simplify_eq;
    try apply same_control_refl.
  apply IH in H. eapply same_control_trans; [|apply H].
  eapply same_control_trans; [|apply send_control]. by repeat split.
Qed.

Lemma flushMessageQueue_sent_prefix fuel w w' :
  flushMessageQueue fuel w = Some w' -> sent w `prefix_of` sent w'.
Proof.
  revert w. induction fuel as [|n IH]; intros w; simpl;
    destruct (messageQueue w) as [|c rest] eqn:Hq; intros H; simplify_eq; try done.
  apply IH in H. etrans; [|apply H].
  etrans; [|apply send_sent_prefix]. done.
Qed.

Lemma clearReconnectTimer_sent w : sent (clearReconnectTimer w) = sent w.
Proof. unfold clearReconnectTimer. by destruct (reconnectTimer w). Qed.

Lemma scheduleReconnect_sent w : sent (scheduleReconnect w) = sent w.
Proof.
  unfold scheduleReconnect. case_decide; [done|]. simpl.
  apply clearReconnectTimer_sent.
Qed.

Lemma connect_sent_prefix w : sent w `prefix_of` sent (connect w).
Proof.
  unfold connect, handleError. destruct (ws_open w); [done|].
  destruct (url_ok _); simpl.
  - apply setState_sent_prefix.
  - etrans; [apply (setState_sent_prefix connecting)|apply setState_sent_prefix].
Qed.

Lemma disconnect_sent_prefix w : sent w `prefix_of` sent (disconnect w).
Proof.
  unfold disconnect. etrans; [|apply setState_sent_prefix].
  match goal with |- context [clearReconnectTimer ?x] =>
    pose proof (clearReconnectTimer_sent x) as Hc;
    destruct (ws (clearReconnectTimer x)); simpl; rewrite Hc end; done.
Qed.

Lemma onclose_sent_prefix b w : sent w `prefix_of` sent (onclose b w).
Proof.
  unfold onclose. destruct (_ && _).
  - rewrite scheduleReconnect_sent. apply setState_sent_prefix.
  - apply setState_sent_prefix.
Qed.

Lemma step_sent_prefix fuel e w w' :
  step fuel e w = Some w' -> sent w `prefix_of` sent w'.
Proof.
  destruct e as [c| | |i|i b|i|t]; simpl; intros H.
  - simplify_eq. apply send_sent_prefix.
  - simplify_eq. apply connect_sent_prefix.
  - simplify_eq. apply disconnect_sent_prefix.
  - destruct (sockets w !! i) as [[]|]; try done. unfold onopen in H.
    apply flushMessageQueue_sent_prefix in H. simpl in H.
    etrans; [|apply H]. apply (setState_sent_prefix connected (set_sockets _ w)).
  - destruct (sockets w !! i) as [[]|]; simplify_eq;
      apply (onclose_sent_prefix b (set_sockets _ w)).
  - destruct (sockets w !! i) as [[]|]; simplify_eq;
      apply (setState_sent_prefix error).
  - destruct (timers w !! t) as [tm|]; [|done]. destruct (pending tm); [|done].
    simplify_eq. apply (connect_sent_prefix (set_timers _ w)).
Qed.

Lemma run_sent_prefix w es w' : run w es w' -> sent w `prefix_of` sent w'.
Proof.
  induction 1 as [|fuel w e w1 es w2 Hs _ IH]; [done|].
  etrans; [eapply step_sent_prefix, Hs|apply IH].
Qed.

(** *** [send] reports every command it does not transmit *)

(** C3. [send] never discards a command silently: when it returns [true]
    the command has been handed to the open socket, and it stays in the
    transmitted log in every continuation; when it returns [false] the
    transmitted log is unchanged and the command is either appended to the
    queue (reconnect enabled) or dropped with the world unchanged. *)
Theorem send_never_silently_discards (c : Command) (w : World) :
  match send c w with
  | (true, w') =>
      sent w' = sent w ++ [c] /\ messageQueue w' = messageQueue w /\
      (forall es w'', run w' es w'' -> c ∈ sent w'')
  | (false, w') =>
      sent w' = sent w /\
      (if reconnect (options w)
       then messageQueue w' = messageQueue w ++ [c]
       else w' = w)
  end.
Proof.
  unfold send. destruct (ws_open w) eqn:Ho.
  - simpl. repeat split. intros es w'' Hrun.
    apply run_sent_prefix in Hrun as [k Hk]. simpl in Hk. rewrite Hk.
    rewrite !elem_of_app, list_elem_of_singleton. auto.
  - destruct (reconnect (options w)); simpl; by repeat split.
Qed.

Lemma send_never_silently_discards_witness :
  ListWorkspaces ∈ sent (disconnect (send ListWorkspaces connected_world).2).
Proof.
  pose proof (send_never_silently_discards ListWorkspaces connected_world) as H.
  assert (send ListWorkspaces connected_world
          = (true, set_sent [ListWorkspaces] connected_world)) as Hs by reflexivity.
  rewrite Hs in H. destruct H as (_ & _ & Hkept).
  apply (Hkept [CallDisconnect]). rewrite Hs.
  eapply (run_step 0); [reflexivity|]. apply run_done.
Defined.

(** *** The flush loop *)

Lemma flushMessageQueue_open fuel w :
  ws_open w = true -> length (messageQueue w) <= fuel ->
  flushMessageQueue fuel w
  = Some (set_messageQueue [] (set_sent (sent w ++ messageQueue w) w)).
Proof.
  revert w. induction fuel as [|n IH]; intros w Ho Hlen.
  - destruct w as [? ? ? ? ? ? ? ? ? q]. simpl in *.
    destruct q; simpl in *; [|lia]. by rewrite app_nil_r.
  - simpl. destruct (messageQueue w) as [|c rest] eqn:Hq.
    + destruct w; simpl in *. subst. by rewrite app_nil_r.
    + assert (ws_open (set_messageQueue rest w) = true) as Ho' by done.
      simpl in Hlen. unfold send. rewrite Ho'. simpl. rewrite IH; simpl; [|done|lia].
      by rewrite <- app_assoc.
Qed.

Lemma flushMessageQueue_dropped fuel w :
  ws_open w = false -> reconnect (options w) = false ->
  length (messageQueue w) <= fuel ->
  flushMessageQueue fuel w = Some (set_messageQueue [] w).
Proof.
  revert w. induction fuel as [|n IH]; intros w Ho Hr Hlen.
  - destruct w as [? ? ? ? ? ? ? ? ? q]. simpl in *.
    destruct q; simpl in *; [done|lia].
  - simpl. destruct (messageQueue w) as [|c rest] eqn:Hq.
    + destruct w; simpl in *. by subst.
    + assert (ws_open (set_messageQueue rest w) = false) as Ho' by done.
      simpl in Hlen.
      unfold send. rewrite Ho'. simpl. rewrite Hr. simpl.
      rewrite IH; simpl; [done|done|done|lia].
Qed.

Lemma flushMessageQueue_no_progress fuel w :
  ws_open w = false -> reconnect (options w) = true ->
  messageQueue w <> [] ->
  flushMessageQueue fuel w = None.
Proof.
  revert w. induction fuel as [|n IH]; intros w Ho Hr Hq; simpl;
    destruct (messageQueue w) as [|c rest] eqn:Hw; try done.
  assert (ws_open (set_messageQueue rest w) = false) as Ho' by done.
  unfold send. rewrite Ho'. simpl. rewrite Hr. simpl.
  apply IH; simpl; [done|done|]. by destruct rest.
Qed.

(** C8. The flush loop does not terminate when the socket held by the
    client is not open while reconnect is enabled.  A command is queued,
    [connect()] is called twice (the second call replaces the socket that
    is still connecting), and then the first socket opens: its [onopen]
    handler runs the flush while [this.ws] is the second, still connecting
    socket, so every dequeued command is queued again and no amount of
    fuel lets the loop leave. *)
Theorem flushMessageQueue_spins_when_socket_not_open :
  exists w,
    run (new_client true DEFAULT_OPTIONS)
        [CallSend ListWorkspaces; CallConnect; CallConnect] w /\
    sockets w !! 0 = Some CONNECTING /\
    ws_open (set_sockets (<[0:=OPEN]> (sockets w)) w) = false /\
    messageQueue w = [ListWorkspaces] /\
    (forall fuel, flushMessageQueue fuel
                    (set_reconnectAttempts 0
                       (setState connected (set_sockets (<[0:=OPEN]> (sockets w)) w)))
                  = None) /\
    (forall fuel, step fuel (SocketOpen 0) w = None).
Proof.
  eexists. split.
  { eapply (run_step 0); [reflexivity|].
    eapply (run_step 0); [reflexivity|].
    eapply (run_step 0); [reflexivity|]. apply run_done. }
  split; [reflexivity|]. split; [reflexivity|]. split; [reflexivity|].
  assert (forall fuel, flushMessageQueue fuel
            (set_reconnectAttempts 0
               (setState connected
                  (set_sockets (<[0:=OPEN]> [CONNECTING; CONNECTING])
                     (connect (connect (send ListWorkspaces
                        (new_client true DEFAULT_OPTIONS)).2)))))
          = None) as Hspin.
  { intros fuel. by apply flushMessageQueue_no_progress. }
  split; [exact Hspin|].
  intros fuel. simpl. unfold onopen. apply Hspin.
Qed.

(** *** Reconnect bookkeeping *)

Lemma same_control_counters w w' : same_control w w' -> counters w' = counters w.
Proof. intros (_ & Ht & _ & _ & Ho & Ha & _). unfold counters. by rewrite Ht, Ho, Ha. Qed.

Lemma clearReconnectTimer_counters w : counters (clearReconnectTimer w) = counters w.
Proof.
  unfold clearReconnectTimer, counters. destruct (reconnectTimer w); [|done].
  simpl. by rewrite length_alter.
Qed.

Lemma connect_counters w : counters (connect w) = counters w.
Proof.
  unfold connect, handleError. destruct (ws_open w); [done|].
  pose proof (same_control_counters _ _ (setState_control connecting w)) as H1.
  destruct (url_ok _).
  - rewrite <- H1. done.
  - rewrite <- H1. apply same_control_counters, setState_control.
Qed.

Lemma disconnect_counters w : counters (disconnect w) = counters w.
Proof.
  unfold disconnect.
  rewrite (same_control_counters _ _ (setState_control disconnected _)).
  match goal with |- context [clearReconnectTimer ?x] =>
    pose proof (clearReconnectTimer_counters x) as Hc;
    destruct (ws (clearReconnectTimer x)) end.
  - unfold counters in *. simpl in *. done.
  - rewrite Hc. done.
Qed.

Lemma scheduleReconnect_at_limit w :
  maxReconnectAttempts (options w) <= reconnectAttempts w ->
  scheduleReconnect w = w.
Proof. intros H. unfold scheduleReconnect. by rewrite decide_True. Qed.

Lemma scheduleReconnect_below_limit w :
  reconnectAttempts w < maxReconnectAttempts (options w) ->
  let w' := scheduleReconnect w in
  reconnectAttempts w' = S (reconnectAttempts w) /\
  options w' = options w /\
  length (timers w') = S (length (timers w)) /\
  reconnectTimer w' = Some (length (timers w)) /\
  timers w' !! length (timers w)
  = Some {| delay := reconnectInterval (options w) * 2 ^ (reconnectAttempts w' - 1);
            pending := true |}.
Proof.
  intros H. unfold scheduleReconnect. rewrite decide_False by lia. simpl.
  assert (options (clearReconnectTimer w) = options w) as Ho.
  { unfold clearReconnectTimer. by destruct (reconnectTimer w). }
  assert (reconnectAttempts (clearReconnectTimer w) = reconnectAttempts w) as Ha.
  { unfold clearReconnectTimer. by destruct (reconnectTimer w). }
  assert (length (timers (clearReconnectTimer w)) = length (timers w)) as Hl.
  { unfold clearReconnectTimer. destruct (reconnectTimer w); [|done].
    simpl. by rewrite length_alter. }
  rewrite Ho, Ha, length_app, Hl. simpl. repeat split; try lia.
  rewrite lookup_app_r by lia. rewrite Hl, Nat.sub_diag, Nat.sub_0_r. done.
Qed.

Lemma onopen_resets fuel w w' :
  onopen fuel w = Some w' -> reconnectAttempts w' = 0.
Proof.
  unfold onopen. intros H. apply flushMessageQueue_control in H.
  by destruct H as (_ & _ & _ & _ & _ & -> & _).
Qed.

Lemma onclose_counters b w :
  counters (onclose b w) = counters w \/
  (reconnectAttempts w < maxReconnectAttempts (options w) /\
   counters (onclose b w)
   = (S (reconnectAttempts w), S (length (timers w)),
      maxReconnectAttempts (options w), reconnectInterval (options w))).
Proof.
  unfold onclose.
  pose proof (same_control_counters _ _ (setState_control disconnected w)) as Hs.
  destruct (_ && _); [|by left].
  set (w1 := setState disconnected w) in *.
  destruct (decide (maxReconnectAttempts (options w1) <= reconnectAttempts w1)) as [Hle|Hgt].
  - left. by rewrite scheduleReconnect_at_limit.
  - right. destruct (scheduleReconnect_below_limit w1) as (Ha & Ho & Hl & _); [lia|].
    unfold counters in *. simplify_eq. split; [lia|].
    rewrite Ha, Ho, Hl. congruence.
Qed.

Lemma step_counters fuel e w w' :
  step fuel e w = Some w' ->
  maxReconnectAttempts (options w') = maxReconnectAttempts (options w) /\
  reconnectInterval (options w') = reconnectInterval (options w) /\
  (reconnectAttempts w <= maxReconnectAttempts (options w) ->
   reconnectAttempts w' <= maxReconnectAttempts (options w)) /\
  length (timers w) <= length (timers w') /\
  (is_SocketOpen e = false ->
   length (timers w') + reconnectAttempts w
   = length (timers w) + reconnectAttempts w').
Proof.
  assert (forall v v', counters v' = counters v ->
    maxReconnectAttempts (options v') = maxReconnectAttempts (options v) /\
    reconnectInterval (options v') = reconnectInterval (options v) /\
    (reconnectAttempts v <= maxReconnectAttempts (options v) ->
     reconnectAttempts v' <= maxReconnectAttempts (options v)) /\
    length (timers v) <= length (timers v') /\
    (is_SocketOpen e = false ->
     length (timers v') + reconnectAttempts v
     = length (timers v) + reconnectAttempts v')) as Hsame.
  { unfold counters. intros v v' Hc. simplify_eq. repeat split; intros; lia. }
  destruct e as [c| | |i|i b|i|t]; simpl; intros H.
  - simplify_eq. apply Hsame, same_control_counters, send_control.
  - simplify_eq. apply Hsame, connect_counters.
  - simplify_eq. apply Hsame, disconnect_counters.
  - destruct (sockets w !! i) as [[]|]; try done. unfold onopen in H.
    apply flushMessageQueue_control in H.
    pose proof (setState_control connected (set_sockets (<[i:=OPEN]> (sockets w)) w)) as Hs.
    destruct H as (_ & Ht & _ & _ & Ho & Ha & _).
    destruct Hs as (_ & Ht' & _ & _ & Ho' & _). simpl in *.
    rewrite Ho, Ho', Ht, Ht', Ha. repeat split; try done. lia.
  - assert (w' = onclose b (set_sockets (<[i:=CLOSED]> (sockets w)) w)) as ->.
    { destruct (sockets w !! i) as [[]|]; by simplify_eq. }
    destruct (onclose_counters b (set_sockets (<[i:=CLOSED]> (sockets w)) w))
      as [Hc|[Hlt Hc]].
    + by apply Hsame in Hc.
    + unfold counters in Hc. simpl in *. simplify_eq.
      repeat split; intros; lia.
  - assert (w' = onerror w) as ->.
    { destruct (sockets w !! i) as [[]|]; by simplify_eq. }
    apply Hsame, same_control_counters, setState_control.
  - destruct (timers w !! t) as [tm|]; [|done]. destruct (pending tm); [|done].
    simplify_eq.
    match goal with |- context [connect ?v] =>
      pose proof (connect_counters v) as Hc end.
    unfold counters in Hc. simpl in Hc. rewrite length_insert in Hc.
    injection Hc as Ha Ht Hm Hi. rewrite Ha, Ht, Hm, Hi.
    repeat split; intros; lia.
Qed.

Lemma run_counters w es w' :
  run w es w' ->
  maxReconnectAttempts (options w') = maxReconnectAttempts (options w) /\
  reconnectInterval (options w') = reconnectInterval (options w) /\
  (reconnectAttempts w <= maxReconnectAttempts (options w) ->
   reconnectAttempts w' <= maxReconnectAttempts (options w)) /\
  length (timers w) <= length (timers w') /\
  (no_open es = true ->
   length (timers w') + reconnectAttempts w
   = length (timers w) + reconnectAttempts w').
Proof.
  induction 1 as [|fuel w e w1 es w2 Hs _ IH]; [repeat split; intros; lia|].
  apply step_counters in Hs as (Hm & Hi & Hle & Ht & Hno).
  destruct IH as (Hm' & Hi' & Hle' & Ht' & Hno').
  rewrite Hm', Hi', Hm, Hi. repeat split; try done.
  - intros Ha. rewrite Hm in Hle'. auto.
  - lia.
  - simpl. intros [He Hes]%andb_true_iff. apply negb_true_iff in He.
    specialize (Hno He). specialize (Hno' Hes). lia.
Qed.

Lemma sends_open_queue cs w :
  ws_open w = true ->
  messageQueue (foldl (fun acc c => (send c acc).2) w cs) = messageQueue w.
Proof.
  revert w. induction cs as [|c cs IH]; intros w Ho; simpl; [done|].
  rewrite IH.
  - by rewrite send_open.
  - by rewrite (same_control_ws_open _ _ (send_control c w)).
Qed.

Lemma setState_open_queue s w :
  ws_open w = true -> messageQueue (setState s w) = messageQueue w.
Proof.
  intros Ho. unfold setState. simpl.
  destruct (onStateChange (options w)); [|done].
  by rewrite sends_open_queue.
Qed.

(** The [onopen] handler of the socket that the client holds returns. *)
Lemma onopen_returns w :
  ws_open w = true ->
  exists w', onopen (length (messageQueue w)) w = Some w' /\
             reconnectAttempts w' = 0 /\ messageQueue w' = [].
Proof.
  intros Ho. unfold onopen.
  pose proof (same_control_ws_open _ _ (setState_control connected w)) as Ho'.
  rewrite Ho in Ho'.
  eexists. split.
  - apply flushMessageQueue_open; [done|]. simpl. by rewrite setState_open_queue.
  - done.
Qed.

(** C9. In every world that a client reaches from its construction:
    [reconnectAttempts] does not exceed [maxReconnectAttempts];
    [scheduleReconnect] changes nothing once the limit is reached; below
    the limit it makes attempt number k = [reconnectAttempts] + 1 and arms
    a timer of [reconnectInterval * 2 ^ (k - 1)] milliseconds; a socket
    that opens resets the counter to zero (and the handler of the socket
    that the client holds does return); and as long as no socket opens,
    at most [maxReconnectAttempts] further timers are created. *)
Theorem reconnect_attempts_bounded
    (ok : bool) (o : Options) (es : list Event) (w : World)
    (Hrun : run (new_client ok o) es w) :
  reconnectAttempts w <= maxReconnectAttempts o /\
  (maxReconnectAttempts o <= reconnectAttempts w -> scheduleReconnect w = w) /\
  (reconnectAttempts w < maxReconnectAttempts o ->
   reconnectAttempts (scheduleReconnect w) = S (reconnectAttempts w) /\
   reconnectTimer (scheduleReconnect w) = Some (length (timers w)) /\
   timers (scheduleReconnect w) !! length (timers w)
   = Some {| delay := reconnectInterval o
                      * 2 ^ (reconnectAttempts (scheduleReconnect w) - 1);
             pending := true |}) /\
  (forall fuel i w', step fuel (SocketOpen i) w = Some w' ->
                     reconnectAttempts w' = 0) /\
  (forall i, ws w = Some i -> sockets w !! i = Some CONNECTING ->
             exists w', step (length (messageQueue w)) (SocketOpen i) w = Some w' /\
                        reconnectAttempts w' = 0) /\
  (forall es' w', run w es' w' -> no_open es' = true ->
                  length (timers w') - length (timers w)
                  <= maxReconnectAttempts o).
Proof.
  apply run_counters in Hrun as (Hm & Hi & Hle & _ & _). simpl in *.
  specialize (Hle (Nat.le_0_l _)).
  split; [done|]. split; [|split; [|split; [|split]]].
  - intros H. apply scheduleReconnect_at_limit. by rewrite Hm.
  - intros H. destruct (scheduleReconnect_below_limit w) as (Ha & _ & _ & Ht & Hl).
    { by rewrite Hm. }
    rewrite Hi in Hl. done.
  - intros fuel i w' H. simpl in H.
    destruct (sockets w !! i) as [[]|]; try done. by apply onopen_resets in H.
  - intros i Hws Hsock. simpl. rewrite Hsock.
    destruct (onopen_returns (set_sockets (<[i:=OPEN]> (sockets w)) w))
      as (w' & Hw' & Ha & _).
    { unfold ws_open. simpl. rewrite Hws.
      rewrite list_lookup_insert_eq; [done|]. by eapply lookup_lt_Some. }
    by exists w'.
  - intros es' w' Hrun' Hno.
    apply run_counters in Hrun' as (Hm' & _ & Hle' & _ & Hsum).
    specialize (Hsum Hno). rewrite Hm in Hle'. specialize (Hle' Hle). lia.
Qed.

Lemma reconnect_attempts_bounded_witness :
  run (new_client true DEFAULT_OPTIONS) two_failures after_two_failures /\
  reconnectAttempts after_two_failures = 2 /\
  timers after_two_failures
  = [{| delay := 2000; pending := false |}; {| delay := 4000; pending := true |}] /\
  reconnectAttempts after_two_failures <= 5 /\
  (reconnectAttempts after_two_failures < 5 ->
   reconnectAttempts (scheduleReconnect after_two_failures) = 3 /\
   reconnectTimer (scheduleReconnect after_two_failures) = Some 2 /\
   timers (scheduleReconnect after_two_failures) !! 2
   = Some {| delay := 2000 * 2 ^ (reconnectAttempts (scheduleReconnect after_two_failures) - 1);
             pending := true |}).
Proof.
  assert (run (new_client true DEFAULT_OPTIONS) two_failures after_two_failures)
    as Hrun.
  { eapply (run_step 0); [cbv; reflexivity|].
    eapply (run_step 0); [cbv; reflexivity|].
    eapply (run_step 0); [cbv; reflexivity|].
    eapply (run_step 0); [cbv; reflexivity|]. apply run_done. }
  split; [exact Hrun|]. split; [reflexivity|]. split; [reflexivity|].
  destruct (reconnect_attempts_bounded true DEFAULT_OPTIONS two_failures _ Hrun)
    as (Hle & _ & Hbelow & _).
  split; [exact Hle|exact Hbelow].
Defined.

Example open_after_two_failures_resets :
  reconnectAttempts <$> exec 0 two_failures_then_open (new_client true DEFAULT_OPTIONS)
  = Some 0 /\
  state <$> exec 0 two_failures_then_open (new_client true DEFAULT_OPTIONS)
  = Some connected.
Proof. split; vm_compute; reflexivity. Qed.

(** *** Order of transmission *)

(** C2. A command sent by the state listener overtakes the queue.
    [send (ReadFile "a.txt")] is called while there is no connection and
    the command is queued; when the socket opens, [onopen] first reports
    [connected] to the listener, whose [send ListWorkspaces] goes straight
    to the open socket, and only then flushes the queue: the command sent
    second is transmitted first. *)
Theorem listener_send_overtakes_queued_command :
  run (new_client true greeting_options) queued_then_opened
      after_queued_then_opened /\
  (send (ReadFile "a.txt") (new_client true greeting_options)).1 = false /\
  messageQueue (send (ReadFile "a.txt") (new_client true greeting_options)).2
  = [ReadFile "a.txt"] /\
  sent after_queued_then_opened = [ListWorkspaces; ReadFile "a.txt"].
Proof.
  split; [|by repeat split].
  eapply (run_step 1); [cbv; reflexivity|].
  eapply (run_step 1); [cbv; reflexivity|].
  eapply (run_step 1); [cbv; reflexivity|]. apply run_done.
Qed.

(** Both commands sent on an open socket: transmitted in call order. *)
Lemma sends_on_open_socket_keep_order c1 c2 w :
  ws_open w = true ->
  (send c1 w).1 = true /\ (send c2 (send c1 w).2).1 = true /\
  sent (send c2 (send c1 w).2).2 = sent w ++ [c1; c2].
Proof.
  intros Ho. rewrite (send_open c1 w Ho). simpl.
  rewrite send_open by done. simpl. by rewrite <- (assoc_L (++)).
Qed.

(** Both commands queued while disconnected: flushed front to back once
    the socket held by the client is open. *)
Lemma queued_commands_flushed_in_order c1 c2 w w' :
  ws_open w = false -> reconnect (options w) = true ->
  messageQueue (send c2 (send c1 w).2).2 = messageQueue w ++ [c1; c2] /\
  (ws_open w' = true -> messageQueue w' = messageQueue w ++ [c1; c2] ->
   exists w'', flushMessageQueue (length (messageQueue w')) w' = Some w'' /\
               sent w'' = sent w' ++ messageQueue w ++ [c1; c2] /\
               messageQueue w'' = []).
Proof.
  intros Ho Hr. split.
  - rewrite (send_queued c1 w Ho Hr). simpl.
    rewrite send_queued by done. simpl. by rewrite <- (assoc_L (++)).
  - intros Ho' Hq. eexists. split; [by apply flushMessageQueue_open|].
    simpl. by rewrite Hq.
Qed.

(** *** First-in first-out delivery when the listener does not send *)

Lemma setState_silent s w : silent (options w) -> setState s w = set_state s w.
Proof.
  unfold silent, setState. simpl.
  destruct (onStateChange (options w)) as [f|]; [|done].
  intros H. by rewrite H.
Qed.

Lemma flushMessageQueue_Some fuel w w' :
  flushMessageQueue fuel w = Some w' ->
  messageQueue w' = [] /\
  sent w' = (if ws_open w then sent w ++ messageQueue w else sent w).
Proof.
  revert w. induction fuel as [|n IH]; intros w; simpl;
    destruct (messageQueue w) as [|c rest] eqn:Hq; intros H; simplify_eq.
  - rewrite app_nil_r. split; [done|]. by destruct (ws_open _).
  - rewrite app_nil_r. split; [done|]. by destruct (ws_open _).
  - apply IH in H as [Hq' Hs]. split; [done|]. rewrite Hs.
    rewrite (same_control_ws_open _ _ (send_control c (set_messageQueue rest w))).
    assert (ws_open (set_messageQueue rest w) = ws_open w) as Ho by done.
    rewrite Ho. destruct (ws_open w) eqn:Hw.
    + rewrite send_open by done. simpl. rewrite <- (assoc_L (++)). reflexivity.
    + unfold send. rewrite Ho. simpl. by destruct (reconnect (options w)).
Qed.

Lemma fifo_inv_frame log w w' :
  sockets w' = sockets w -> ws w' = ws w -> options w' = options w ->
  sent w' = sent w -> messageQueue w' = messageQueue w ->
  fifo_inv log w -> fifo_inv log w'.
Proof.
  intros Hs Hw Ho Hsent Hq (Hsil & Hopen & Hsub). unfold fifo_inv, ws_open in *.
  by rewrite Hs, Hw, Ho, Hsent, Hq.
Qed.

Lemma fifo_inv_closed log w w' :
  silent (options w') -> ws_open w' = false ->
  sent w' = sent w -> messageQueue w' = messageQueue w ->
  fifo_inv log w -> fifo_inv log w'.
Proof.
  intros Hsil Ho Hsent Hq (_ & _ & Hsub). unfold fifo_inv.
  rewrite Ho, Hsent, Hq. done.
Qed.

Lemma fifo_inv_send log c w : fifo_inv log w -> fifo_inv (log ++ [c]) (send c w).2.
Proof.
  intros (Hsil & Hopen & Hsub). destruct (ws_open w) eqn:Ho.
  - rewrite send_open by done. specialize (Hopen eq_refl).
    rewrite Hopen, app_nil_r in Hsub. repeat split; simpl; try done.
    rewrite Hopen, app_nil_r. by apply sublist_app.
  - destruct (reconnect (options w)) eqn:Hr.
    + rewrite send_queued by done. repeat split; simpl; try done.
      * intros Ho'. assert (ws_open w = true) by done. congruence.
      * rewrite (assoc_L (++)). by apply sublist_app.
    + rewrite send_dropped by done. repeat split; simpl; try done.
      * intros; congruence.
      * by apply sublist_inserts_r.
Qed.

Lemma fifo_inv_connect log w : fifo_inv log w -> fifo_inv log (connect w).
Proof.
  intros Hinv. pose proof Hinv as (Hsil & _). unfold connect, handleError.
  destruct (ws_open w) eqn:Ho; [done|].
  rewrite (setState_silent connecting) by done. simpl.
  destruct (url_ok w).
  - eapply fifo_inv_closed; [..|exact Hinv]; try done.
    unfold ws_open. simpl. by rewrite lookup_app_r, Nat.sub_diag.
  - rewrite setState_silent by done. by eapply fifo_inv_frame; [..|exact Hinv].
Qed.

Lemma fifo_inv_disconnect log w : fifo_inv log w -> fifo_inv log (disconnect w).
Proof.
  intros Hinv. pose proof Hinv as (Hsil & _). unfold disconnect.
  match goal with |- context [clearReconnectTimer ?x] => set (w1 := x) end.
  assert (silent (options (clearReconnectTimer w1)) /\
          sent (clearReconnectTimer w1) = sent w /\
          messageQueue (clearReconnectTimer w1) = messageQueue w /\
          ws (clearReconnectTimer w1) = ws w) as (Hs1 & Hs2 & Hs3 & Hs4).
  { unfold clearReconnectTimer. by destruct (reconnectTimer w1). }
  destruct (ws (clearReconnectTimer w1)) as [i|] eqn:Hws.
  - rewrite setState_silent by done.
    eapply fifo_inv_closed; [..|exact Hinv]; done.
  - rewrite setState_silent by done.
    eapply fifo_inv_closed; [..|exact Hinv]; try done.
    unfold ws_open. simpl. by rewrite Hws.
Qed.

Lemma fifo_inv_onclose log b w : fifo_inv log w -> fifo_inv log (onclose b w).
Proof.
  intros Hinv. pose proof Hinv as (Hsil & _). unfold onclose.
  rewrite setState_silent by done. simpl.
  destruct (_ && _); [|by eapply fifo_inv_frame; [..|exact Hinv]].
  unfold scheduleReconnect. case_decide.
  - by eapply fifo_inv_frame; [..|exact Hinv].
  - eapply fifo_inv_frame; [..|exact Hinv]; simpl;
      unfold clearReconnectTimer; by destruct (reconnectTimer _).
Qed.

Lemma ws_open_insert_CLOSED i w :
  ws_open (set_sockets (<[i:=CLOSED]> (sockets w)) w) = true -> ws_open w = true.
Proof.
  unfold ws_open. simpl. destruct (ws w) as [j|]; [|done].
  destruct (decide (i = j)) as [->|Hne].
  - destruct (decide (j < length (sockets w))).
    + by rewrite list_lookup_insert_eq.
    + by rewrite list_insert_ge by lia.
  - by rewrite list_lookup_insert_ne.
Qed.

Lemma fifo_inv_step fuel e log w w' :
  step fuel e w = Some w' -> fifo_inv log w -> fifo_inv (log ++ calls_of [e]) w'.
Proof.
  destruct e as [c| | |i|i b|i|t]; simpl; rewrite ?app_nil_r; intros H Hinv.
  - simplify_eq. by apply fifo_inv_send.
  - simplify_eq. by apply fifo_inv_connect.
  - simplify_eq. by apply fifo_inv_disconnect.
  - destruct (sockets w !! i) as [[]|]; try done. unfold onopen in H.
    destruct Hinv as (Hsil & Hopen & Hsub).
    rewrite setState_silent in H by done.
    pose proof (flushMessageQueue_control _ _ _ H) as (_ & _ & _ & _ & Ho & _).
    apply flushMessageQueue_Some in H as [Hq Hs]. simpl in *.
    repeat split.
    + by rewrite Ho.
    + done.
    + rewrite Hq, app_nil_r, Hs. destruct (ws_open _); [done|].
      etrans; [|exact Hsub]. by apply sublist_inserts_r.
  - assert (w' = onclose b (set_sockets (<[i:=CLOSED]> (sockets w)) w)) as ->.
    { destruct (sockets w !! i) as [[]|]; by simplify_eq. }
    apply fifo_inv_onclose. destruct Hinv as (Hsil & Hopen & Hsub).
    repeat split; try done. intros Ho%ws_open_insert_CLOSED. auto.
  - assert (w' = onerror w) as ->.
    { destruct (sockets w !! i) as [[]|]; by simplify_eq. }
    unfold onerror, handleError. destruct Hinv as (Hsil & Hopen & Hsub).
    rewrite setState_silent by done. by repeat split.
  - destruct (timers w !! t) as [tm|]; [|done]. destruct (pending tm); [|done].
    simplify_eq. apply fifo_inv_connect. by eapply fifo_inv_frame; [..|exact Hinv].
Qed.

Lemma fifo_inv_run w es w' :
  run w es w' -> forall log, fifo_inv log w -> fifo_inv (log ++ calls_of es) w'.
Proof.
  induction 1 as [w|fuel w e w1 es w2 Hs _ IH]; intros log Hinv.
  - by rewrite app_nil_r.
  - eapply fifo_inv_step in Hs; [|exact Hinv]. apply IH in Hs.
    replace (calls_of (e :: es)) with (calls_of [e] ++ calls_of es).
    + by rewrite (assoc_L (++)).
    + unfold calls_of. simpl. by destruct e.
Qed.

(** X1. Delivery is first-in first-out for a client that has no state
    listener, or one that returns normally without calling a method of
    the client: in every reachable world the transmitted commands,
    followed by the queued ones, form a subsequence of the commands passed
    to [send], in call order. *)
Lemma fifo_when_listener_silent ok o es w :
  silent o -> run (new_client ok o) es w ->
  (sent w ++ messageQueue w) `sublist_of` calls_of es.
Proof.
  intros Hsil Hrun. apply fifo_inv_run with (log := []) in Hrun.
  - by destruct Hrun as (_ & _ & ?).
  - by repeat split.
Qed.

Lemma fifo_when_listener_silent_witness :
  (sent after_send_open_send ++ messageQueue after_send_open_send)
    `sublist_of` [ReadFile "a.txt"; ListWorkspaces] /\
  sent after_send_open_send = [ReadFile "a.txt"; ListWorkspaces].
Proof.
  split; [|reflexivity].
  apply (fifo_when_listener_silent true DEFAULT_OPTIONS send_open_send).
  - exact I.
  - eapply (run_step 1); [cbv; reflexivity|].
    eapply (run_step 1); [cbv; reflexivity|].
    eapply (run_step 1); [cbv; reflexivity|].
    eapply (run_step 1); [cbv; reflexivity|]. apply run_done.
Defined.

(** *** When the flush loop returns *)

(** X2. [flushMessageQueue] returns exactly when the queue is empty, the
    socket held by the client is open, or reconnect is switched off.  It
    then returns within as many iterations as there are queued commands,
    leaves the queue empty, and has transmitted the queued commands in
    queue order if the socket is open and none of them otherwise; nothing
    else of the client changes.  In the remaining case no number of
    iterations suffices. *)
Theorem flushMessageQueue_returns_iff (w : World) :
  ((exists fuel w', flushMessageQueue fuel w = Some w') <->
   (messageQueue w = [] \/ ws_open w = true \/ reconnect (options w) = false)) /\
  (messageQueue w = [] \/ ws_open w = true \/ reconnect (options w) = false ->
   exists w',
     flushMessageQueue (length (messageQueue w)) w = Some w' /\
     messageQueue w' = [] /\
     sent w' = (if ws_open w then sent w ++ messageQueue w else sent w) /\
     state w' = state w /\ same_control w w').
Proof.
  assert (messageQueue w = [] \/ ws_open w = true \/ reconnect (options w) = false ->
          exists w',
            flushMessageQueue (length (messageQueue w)) w = Some w' /\
            messageQueue w' = [] /\
            sent w' = (if ws_open w then sent w ++ messageQueue w else sent w) /\
            state w' = state w /\ same_control w w') as Hret.
  { intros Hcase.
    assert (exists w', flushMessageQueue (length (messageQueue w)) w = Some w' /\
                       state w' = state w) as (w' & Hw' & Hst).
    { destruct (ws_open w) eqn:Ho.
      - eexists. split; [by apply flushMessageQueue_open|done].
      - destruct (reconnect (options w)) eqn:Hr.
        + destruct Hcase as [Hq|[?|?]]; try done. rewrite Hq. simpl. rewrite Hq. eauto.
        + eexists. split; [by apply flushMessageQueue_dropped|done]. }
    exists w'. split; [done|].
    pose proof (flushMessageQueue_Some _ _ _ Hw') as [Hq Hs].
    pose proof (flushMessageQueue_control _ _ _ Hw') as Hc.
    split; [done|]. split; [done|]. split; done. }
  split; [|exact Hret]. split.
  - intros (fuel & w' & Hw').
    destruct (messageQueue w) as [|c q] eqn:Hq; [by left|].
    destruct (ws_open w) eqn:Ho; [by right; left|].
    destruct (reconnect (options w)) eqn:Hr; [|by right; right].
    rewrite flushMessageQueue_no_progress in Hw'; [done..|]. by rewrite Hq.
  - intros Hcase. destruct (Hret Hcase) as (w' & Hw' & _). eauto.
Qed.

Lemma flushMessageQueue_returns_witness :
  exists w',
    flushMessageQueue 1 (set_messageQueue [ListWorkspaces] connected_world) = Some w' /\
    messageQueue w' = [] /\ sent w' = [ListWorkspaces].
Proof.
  destruct (flushMessageQueue_returns_iff
              (set_messageQueue [ListWorkspaces] connected_world)) as [_ H].
  destruct H as (w' & Hw' & Hq & Hs & _).
  - right. left. reflexivity.
  - exists w'. by repeat split.
Defined.

(** *** After [disconnect()] *)

Lemma timers_tracked_frame w w' :
  timers w' = timers w -> reconnectTimer w' = reconnectTimer w ->
  timers_tracked w -> timers_tracked w'.
Proof. unfold timers_tracked. intros -> ->. done. Qed.

Lemma same_control_tracked w w' :
  same_control w w' -> timers_tracked w -> timers_tracked w'.
Proof. intros (_ & Ht & _ & _ & _ & _ & Hr). by apply timers_tracked_frame. Qed.

Lemma clearReconnectTimer_idle w :
  timers_tracked w ->
  Forall (fun tm => pending tm = false) (timers (clearReconnectTimer w)) /\
  reconnectTimer (clearReconnectTimer w) = None.
Proof.
  intros Htr. unfold clearReconnectTimer.
  destruct (reconnectTimer w) as [t|] eqn:Hrt; simpl; (split; [|done]);
    apply Forall_lookup; intros i tm Hi.
  - destruct (decide (i = t)) as [->|Hne].
    + rewrite list_lookup_alter, decide_True in Hi by done.
      destruct (timers w !! t); by simplify_eq/=.
    + rewrite list_lookup_alter_ne in Hi by done.
      destruct (pending tm) eqn:Hp; [|done].
      specialize (Htr i tm Hi Hp). congruence.
  - destruct (pending tm) eqn:Hp; [|done].
    specialize (Htr i tm Hi Hp). congruence.
Qed.

Lemma idle_tracked w :
  Forall (fun tm => pending tm = false) (timers w) -> timers_tracked w.
Proof.
  intros Hall t tm Ht Hp. rewrite Forall_lookup in Hall.
  specialize (Hall t tm Ht). simpl in Hall. congruence.
Qed.

Lemma scheduleReconnect_tracked w :
  timers_tracked w -> timers_tracked (scheduleReconnect w).
Proof.
  intros Htr. unfold scheduleReconnect. case_decide; [done|].
  destruct (clearReconnectTimer_idle w Htr) as [Hidle _].
  intros t tm. simpl. intros Ht Hp.
  apply lookup_app_Some in Ht as [Ht|[Hlen Ht]].
  - rewrite Forall_lookup in Hidle. specialize (Hidle t tm Ht). simpl in Hidle.
    congruence.
  - f_equal. apply lookup_lt_Some in Ht. simpl in Ht. lia.
Qed.

Lemma connect_timers w :
  timers (connect w) = timers w /\ reconnectTimer (connect w) = reconnectTimer w /\
  options (connect w) = options w /\ reconnectAttempts (connect w) = reconnectAttempts w.
Proof.
  unfold connect, handleError. destruct (ws_open w); [done|].
  pose proof (setState_control connecting w) as (_ & Ht & _ & _ & Ho & Ha & Hr).
  destruct (url_ok _); simpl.
  - done.
  - pose proof (setState_control error (setState connecting w))
      as (_ & Ht' & _ & _ & Ho' & Ha' & Hr').
    rewrite Ht', Hr', Ho', Ha'. done.
Qed.

Lemma step_tracked fuel e w w' :
  step fuel e w = Some w' -> timers_tracked w -> timers_tracked w'.
Proof.
  destruct e as [c| | |i|i b|i|t]; simpl; intros H Htr.
  - simplify_eq. eapply same_control_tracked; [apply send_control|done].
  - simplify_eq. destruct (connect_timers w) as (Ht & Hr & _).
    by eapply timers_tracked_frame.
  - simplify_eq. unfold disconnect.
    eapply same_control_tracked; [apply setState_control|].
    match goal with |- context [clearReconnectTimer ?x] =>
      destruct (clearReconnectTimer_idle x) as [Hidle _]; [done|];
      destruct (ws (clearReconnectTimer x)) end; by apply idle_tracked.
  - destruct (sockets w !! i) as [[]|]; try done. unfold onopen in H.
    apply flushMessageQueue_control in H.
    eapply same_control_tracked; [exact H|].
    eapply timers_tracked_frame; [..|eapply same_control_tracked;
      [apply (setState_control connected (set_sockets (<[i:=OPEN]> (sockets w)) w))|done]];
      done.
  - assert (w' = onclose b (set_sockets (<[i:=CLOSED]> (sockets w)) w)) as ->.
    { destruct (sockets w !! i) as [[]|]; by simplify_eq. }
    unfold onclose.
    assert (timers_tracked (setState disconnected (set_sockets (<[i:=CLOSED]> (sockets w)) w)))
      as Htr' by (eapply same_control_tracked; [apply setState_control|done]).
    destruct (_ && _); [by apply scheduleReconnect_tracked|done].
  - assert (w' = onerror w) as ->.
    { destruct (sockets w !! i) as [[]|]; by simplify_eq. }
    eapply same_control_tracked; [apply setState_control|done].
  - destruct (timers w !! t) as [tm|] eqn:Ht; [|done].
    destruct (pending tm) eqn:Hp; [|done]. simplify_eq.
    match goal with |- context [connect ?v] =>
      destruct (connect_timers v) as (Hct & Hcr & _) end.
    eapply timers_tracked_frame; [exact Hct|exact Hcr|].
    intros i tm'. simpl. intros Hi Hp'.
    destruct (decide (i = t)) as [->|Hne].
    + rewrite list_lookup_insert_eq in Hi by (by eapply lookup_lt_Some).
      simplify_eq/=.
    + rewrite list_lookup_insert_ne in Hi by done. by apply (Htr i tm').
Qed.

Lemma run_tracked w es w' : run w es w' -> timers_tracked w -> timers_tracked w'.
Proof.
  induction 1 as [|fuel w e w1 es w2 Hs _ IH]; [done|].
  intros Htr. apply IH. by eapply step_tracked.
Qed.

Lemma send_queue_kept c w :
  reconnect (options w) = false -> messageQueue (send c w).2 = messageQueue w.
Proof. intros Hr. unfold send. rewrite Hr. by destruct (ws_open w). Qed.

Lemma sends_queue_kept cs w :
  reconnect (options w) = false ->
  messageQueue (foldl (fun acc c => (send c acc).2) w cs) = messageQueue w.
Proof.
  revert w. induction cs as [|c cs IH]; intros w Hr; simpl; [done|].
  rewrite IH.
  - by apply send_queue_kept.
  - pose proof (send_control c w) as (_ & _ & _ & _ & Ho & _). by rewrite Ho.
Qed.

Lemma setState_queue_kept s w :
  reconnect (options w) = false -> messageQueue (setState s w) = messageQueue w.
Proof.
  intros Hr. unfold setState. simpl.
  destruct (onStateChange (options w)); [|done]. by rewrite sends_queue_kept.
Qed.

Lemma disconnect_quiet w :
  timers_tracked w ->
  quiet (disconnect w) /\
  length (timers (disconnect w)) = length (timers w) /\
  reconnectAttempts (disconnect w) = reconnectAttempts w /\
  messageQueue (disconnect w) = messageQueue w /\
  ws (disconnect w) = None.
Proof.
  intros Htr. pose proof (disconnect_counters w) as Hc.
  unfold counters in Hc. injection Hc as Ha Hl _ _.
  unfold disconnect in *.
  match goal with |- context [clearReconnectTimer ?x] => set (w1 := x) in * end.
  destruct (clearReconnectTimer_idle w1) as [Hidle _]; [done|].
  assert (reconnect (options (clearReconnectTimer w1)) = false /\
          messageQueue (clearReconnectTimer w1) = messageQueue w) as [Hr Hq].
  { unfold clearReconnectTimer. by destruct (reconnectTimer w1). }
  match goal with |- context [setState disconnected ?x] => set (w3 := x) in * end.
  assert (reconnect (options w3) = false /\ messageQueue w3 = messageQueue w /\
          timers w3 = timers (clearReconnectTimer w1) /\ ws w3 = None)
    as (Hr3 & Hq3 & Ht3 & Hws3).
  { subst w3. by destruct (ws (clearReconnectTimer w1)) eqn:Hws. }
  pose proof (setState_control disconnected w3) as (_ & Ht & _ & Hws & Ho & _).
  repeat split; try done.
  - by rewrite Ho.
  - by rewrite Ht, Ht3.
  - by rewrite setState_queue_kept.
  - by rewrite Hws.
Qed.

Lemma step_quiet fuel e w w' :
  step fuel e w = Some w' -> quiet w ->
  quiet w' /\ length (timers w') = length (timers w) /\
  is_TimerFire e = false /\
  reconnectAttempts w' <= reconnectAttempts w /\
  (messageQueue w' = messageQueue w \/ messageQueue w' = []).
Proof.
  intros H [Hr Hidle].
  assert (forall v, same_control w v -> messageQueue v = messageQueue w \/ messageQueue v = [] ->
            quiet v /\ length (timers v) = length (timers w) /\
            reconnectAttempts v <= reconnectAttempts w /\
            (messageQueue v = messageQueue w \/ messageQueue v = [])) as Hsame.
  { intros v (_ & Ht & _ & _ & Ho & Ha & _) Hq. unfold quiet.
    rewrite Ht, Ho, Ha. by repeat split. }
  destruct e as [c| | |i|i b|i|t]; simpl in *.
  - simplify_eq. destruct (Hsame _ (send_control c w)) as (? & ? & ? & ?).
    { left. by apply send_queue_kept. }
    done.
  - simplify_eq. destruct (connect_timers w) as (Ht & _ & Ho & Ha).
    unfold quiet. rewrite Ht, Ho, Ha. repeat split; try done.
    left. unfold connect, handleError. destruct (ws_open w); [done|].
    assert (messageQueue (setState connecting w) = messageQueue w) as Hq
      by (by apply setState_queue_kept).
    destruct (url_ok _); simpl; [done|].
    rewrite setState_queue_kept; [done|].
    pose proof (setState_control connecting w) as (_ & _ & _ & _ & Ho' & _).
    by rewrite Ho'.
  - simplify_eq.
    destruct (disconnect_quiet w (idle_tracked w Hidle)) as ([Hq1 Hq2] & Hl & Ha & Hmq & _).
    repeat split; try done; try lia. by left.
  - destruct (sockets w !! i) as [[]|]; try done. unfold onopen in H.
    pose proof (flushMessageQueue_control _ _ _ H) as (_ & Ht & _ & _ & Ho & Ha & _).
    apply flushMessageQueue_Some in H as [Hq _].
    pose proof (setState_control connected (set_sockets (<[i:=OPEN]> (sockets w)) w))
      as (_ & Ht' & _ & _ & Ho' & _).
    simpl in *. unfold quiet. rewrite Ht, Ht', Ho, Ho', Ha.
    repeat split; try done; try lia. by right.
  - assert (w' = onclose b (set_sockets (<[i:=CLOSED]> (sockets w)) w)) as ->.
    { destruct (sockets w !! i) as [[]|]; by simplify_eq. }
    unfold onclose.
    pose proof (setState_control disconnected (set_sockets (<[i:=CLOSED]> (sockets w)) w))
      as (_ & Ht' & _ & _ & Ho' & Ha' & _).
    simpl in *. rewrite Ho', Hr. simpl. unfold quiet. rewrite Ht', Ho', Ha'.
    repeat split; try done. left. by rewrite setState_queue_kept.
  - assert (w' = onerror w) as ->.
    { destruct (sockets w !! i) as [[]|]; by simplify_eq. }
    destruct (Hsame _ (setState_control error w)) as (? & ? & ? & ?).
    { left. by apply setState_queue_kept. }
    done.
  - destruct (timers w !! t) as [tm|] eqn:Ht; [|done].
    rewrite Forall_lookup in Hidle. specialize (Hidle t tm Ht). simpl in Hidle.
    by rewrite Hidle in H.
Qed.

Lemma run_quiet w es w' :
  run w es w' -> quiet w ->
  quiet w' /\ length (timers w') = length (timers w) /\
  forallb (fun e => negb (is_TimerFire e)) es = true /\
  reconnectAttempts w' <= reconnectAttempts w /\
  (messageQueue w' = messageQueue w \/ messageQueue w' = []).
Proof.
  induction 1 as [|fuel w e w1 es w2 Hs _ IH]; intros Hq.
  - repeat split; try apply Hq; auto.
  - apply step_quiet in Hs as (Hq1 & Hl1 & He & Ha1 & Hm1); [|done].
    destruct (IH Hq1) as (Hq2 & Hl2 & Hes & Ha2 & Hm2).
    repeat split; try apply Hq2.
    + lia.
    + simpl. by rewrite He, Hes.
    + lia.
    + destruct Hm2 as [Hm2|Hm2]; rewrite Hm2; auto.
Qed.

(** X3. [disconnect()] ends reconnecting for good.  For a client in any
    state it can reach, and whatever happens after the call: reconnect
    stays switched off, no reconnect timer is pending or comes due, no
    timer is created, the attempt counter does not grow, and no command
    is added to the queue (it is as it was at the call, or has been
    emptied by a flush). *)
Theorem disconnect_ends_reconnecting
    (ok : bool) (o : Options) (es : list Event) (w : World)
    (es' : list Event) (w' : World)
    (Hrun : run (new_client ok o) es w)
    (Hrun' : run (disconnect w) es' w') :
  ws (disconnect w) = None /\
  reconnect (options w') = false /\
  Forall (fun tm => pending tm = false) (timers w') /\
  length (timers w') = length (timers w) /\
  forallb (fun e => negb (is_TimerFire e)) es' = true /\
  reconnectAttempts w' <= reconnectAttempts w /\
  (messageQueue w' = messageQueue w \/ messageQueue w' = []).
Proof.
  assert (timers_tracked w) as Htr.
  { eapply run_tracked; [exact Hrun|]. intros t tm Ht. by destruct t. }
  destruct (disconnect_quiet w Htr) as (Hq & Hl & Ha & Hmq & Hws).
  destruct (run_quiet _ _ _ Hrun' Hq) as ([Hr Hidle] & Hl' & Hes & Ha' & Hm').
  repeat split; try done.
  - lia.
  - lia.
  - by rewrite <- Hmq.
Qed.

Lemma disconnect_ends_reconnecting_witness :
  reconnect (options after_disconnect_world) = false /\
  length (timers after_disconnect_world) = 2 /\
  messageQueue after_disconnect_world = [].
Proof.
  assert (run (new_client true DEFAULT_OPTIONS) two_failures after_two_failures) as Hrun.
  { eapply (run_step 0); [cbv; reflexivity|].
    eapply (run_step 0); [cbv; reflexivity|].
    eapply (run_step 0); [cbv; reflexivity|].
    eapply (run_step 0); [cbv; reflexivity|]. apply run_done. }
  assert (run (disconnect after_two_failures) after_disconnect_events
              after_disconnect_world) as Hrun'.
  { eapply (run_step 0); [cbv; reflexivity|].
    eapply (run_step 0); [cbv; reflexivity|].
    eapply (run_step 0); [cbv; reflexivity|]. apply run_done. }
  destruct (disconnect_ends_reconnecting _ _ _ _ _ _ Hrun Hrun')
    as (_ & Hr & _ & Hl & _).
  split; [exact Hr|]. split; [exact Hl|reflexivity].
Defined.

End WebSocketClientProofs.

(** ** Configuration store and LLM dispatch *)

Module ConfigProofs.
Import JS Config.

Section FindBy.
Context {A : Type} (key : A -> string).

Lemma find_by_None k l :
  find_by key k l = None <-> Forall (fun y => key y <> k) l.
Proof.
  unfold find_by. induction l as [|x l IH]; simpl.
  - split; [constructor|done].
  - case_bool_decide as Hx.
    + split; [done|]. intros H. by inversion H.
    + rewrite IH. split.
      * intros H. by constructor.
      * intros H. by inversion H.
Qed.

Lemma find_by_Some k l x :
  find_by key k l = Some x <-> first_with key k l x.
Proof.
  unfold find_by, first_with. induction l as [|y l IH]; simpl.
  - split; [done|]. intros (l1 & l2 & H & _). by destruct l1.
  - case_bool_decide as Hy.
    + split.
      * intros [= ->]. exists [], l. by repeat split.
      * intros (l1 & l2 & Hl & Hk & Hall). destruct l1 as [|z l1]; simpl in *.
        { by simplify_eq. }
        { simplify_eq. by inversion Hall. }
    + rewrite IH. split.
      * intros (l1 & l2 & -> & Hk & Hall). exists (y :: l1), l2.
        repeat split; [done|]. by constructor.
      * intros (l1 & l2 & Hl & Hk & Hall). destruct l1 as [|z l1]; simpl in *.
        { by simplify_eq. }
        { simplify_eq. inversion Hall; subst. by exists l1, l2. }
Qed.
End FindBy.

Lemma elem_of_supported_providers x :
  x ∈ supported_providers <->
  x = "openai" \/ x = "anthropic" \/ x = "gemini" \/ x = "ollama".
Proof.
  unfold supported_providers. rewrite !elem_of_cons, elem_of_nil. tauto.
Qed.


(** *** Workspace persistence *)

Section FindByList.
Context {A : Type} (key : A -> string).

Lemma find_by_app_fresh k l x :
  Forall (fun y => key y <> k) l -> key x = k -> find_by key k (l ++ [x]) = Some x.
Proof.
  intros Hall Hk. apply find_by_Some. exists l, []. by repeat split.
Qed.

Lemma find_by_app_other k l x :
  key x <> k -> find_by key k (l ++ [x]) = find_by key k l.
Proof.
  intros Hk. unfold find_by. induction l as [|y l IH]; simpl.
  - by rewrite bool_decide_false.
  - by rewrite IH.
Qed.

Lemma find_by_filter_removed k l :
  find_by key k (filter (fun y => key y <> k) l) = None.
Proof.
  apply find_by_None. induction l as [|y l IH]; [constructor|].
  rewrite filter_cons. case_decide; [by constructor|done].
Qed.

Lemma find_by_filter_other k k' l :
  k' <> k -> find_by key k' (filter (fun y => key y <> k) l) = find_by key k' l.
Proof.
  intros Hne. unfold find_by. induction l as [|y l IH]; [done|].
  rewrite filter_cons. simpl. case_decide as Hy; simpl.
  - by rewrite IH.
  - rewrite IH. rewrite bool_decide_false; [done|congruence].
Qed.
End FindByList.

(** **** The configuration directory *)

Lemma readConfig_present st :
  config_dir st = DirPresent -> readConfig st = (read_and_merge st, st).
Proof.
  intros Hdir. unfold readConfig, getConfigPath, ensureConfigDir. by rewrite Hdir.
Qed.

Lemma writeConfig_present config st :
  config_dir st = DirPresent ->
  writeConfig config st
  = if writable st
    then (Ok (), {| config_dir := DirPresent; file := Stored (to_parsed config);
                    writable := writable st; default_config := default_config st |})
    else (Throw "EACCES: permission denied", st).
Proof.
  intros Hdir. unfold writeConfig, getConfigPath, ensureConfigDir.
  rewrite Hdir. simpl. by rewrite Hdir.
Qed.

Lemma readConfig_state st : (readConfig st).2 = (getConfigPath st).2.
Proof.
  unfold readConfig, getConfigPath, ensureConfigDir. by destruct (config_dir st).
Qed.

(** Reading twice is reading once. *)
Lemma readConfig_again st : readConfig (readConfig st).2 = readConfig st.
Proof.
  unfold readConfig, getConfigPath, ensureConfigDir.
  destruct (config_dir st) eqn:Hdir; simpl; by rewrite ?Hdir.
Qed.

(** A configuration that was read was read from a store whose directory
    is there, and which is the store that the read leaves. *)
Lemma readConfig_Ok st config alias :
  (readConfig st).1 = Ok (config, alias) ->
  readConfig st = (Ok (config, alias), (readConfig st).2) /\
  config_dir (readConfig st).2 = DirPresent /\
  read_and_merge (readConfig st).2 = Ok (config, alias) /\
  writable (readConfig st).2 = writable st /\
  default_config (readConfig st).2 = default_config st.
Proof.
  unfold readConfig, getConfigPath, ensureConfigDir.
  destruct (config_dir st) eqn:Hdir; simpl; intros Hr; [| |done].
  - by rewrite Hr.
  - by rewrite Hr.
Qed.


Lemma getWorkspaceById_ensured i st :
  getWorkspaceById i (readConfig st).2 = getWorkspaceById i st.
Proof. unfold getWorkspaceById. by rewrite readConfig_again. Qed.

Lemma getLLMSettings_ensured st :
  getLLMSettings (readConfig st).2 = getLLMSettings st.
Proof. unfold getLLMSettings. by rewrite readConfig_again. Qed.

Lemma getWorkspaceById_read i st config alias :
  (readConfig st).1 = Ok (config, alias) ->
  (getWorkspaceById i st).1 = Ok (find_by WorkspaceConfig.id i (workspaces config)).
Proof.
  intros (Hr & _)%readConfig_Ok. unfold getWorkspaceById. by rewrite Hr.
Qed.

Lemma readConfig_after_write config st r st' :
  writeConfig config st = (Ok r, st') ->
  readConfig st' = (Ok (config, OwnWorkspaces), st') /\ writable st' = true /\
  config_dir st' = DirPresent.
Proof.
  unfold writeConfig, getConfigPath, ensureConfigDir.
  destruct (config_dir st) eqn:Hdir; simpl; [| |done].
  - destruct (writable st) eqn:Hw; [|done].
    intros [= _ <-]. rewrite readConfig_present by done.
    unfold read_and_merge. simpl. by destruct config as [l [ps ms]].
  - destruct (writable st) eqn:Hw; [|done].
    intros [= _ <-]. rewrite readConfig_present by done.
    unfold read_and_merge. simpl. by destruct config as [l [ps ms]].
Qed.

Lemma getWorkspaceById_after_write config st r st' i :
  writeConfig config st = (Ok r, st') ->
  getWorkspaceById i st' = (Ok (find_by WorkspaceConfig.id i (workspaces config)), st').
Proof.
  intros (H & _)%readConfig_after_write. unfold getWorkspaceById. by rewrite H.
Qed.

Lemma writeConfig_succeeds config st :
  config_dir st = DirPresent -> writable st = true ->
  exists st', writeConfig config st = (Ok (), st').
Proof.
  intros Hdir Hw. rewrite writeConfig_present by done. rewrite Hw. by eexists.
Qed.

Lemma addWorkspace_Ok workspace uuid now1 now2 st w st1 :
  addWorkspace workspace uuid now1 now2 st = (Ok w, st1) ->
  w = {| WorkspaceConfig.id := uuid;
         WorkspaceConfig.title := NewWorkspace.title workspace;
         WorkspaceConfig.path := NewWorkspace.path workspace;
         WorkspaceConfig.type := NewWorkspace.type workspace;
         WorkspaceConfig.lastAccessed := now2;
         WorkspaceConfig.createdAt := now1 |} /\
  exists config alias st0,
    (readConfig st).1 = Ok (config, alias) /\
    writeConfig {| workspaces := workspaces config ++ [w];
                   llmSettings := llmSettings config |} st0 = (Ok (), st1).
Proof.
  unfold addWorkspace.
  destruct (readConfig st) as [[[config alias]|msg] st0] eqn:Hr; [|done].
  match goal with |- context [writeConfig ?c ?s] =>
    destruct (writeConfig c s) as [[[]|msg] st2] eqn:Hw end; [|done].
  intros [= <- <-]. split; [done|]. by eexists _, _, _.
Qed.

Lemma removeWorkspace_Ok i st r st2 :
  removeWorkspace i st = (Ok r, st2) ->
  exists config alias st0,
    (readConfig st).1 = Ok (config, alias) /\
    writeConfig {| workspaces := filter (fun w => WorkspaceConfig.id w <> i) (workspaces config);
                   llmSettings := llmSettings config |} st0 = (Ok r, st2).
Proof.
  unfold removeWorkspace.
  destruct (readConfig st) as [[[config alias]|msg] st0] eqn:Hr; [|done].
  intros H. by eexists _, _, _.
Qed.

Lemma removeWorkspace_succeeds i st config alias :
  (readConfig st).1 = Ok (config, alias) -> writable st = true ->
  exists st2, removeWorkspace i st = (Ok (), st2).
Proof.
  intros (Hr & Hdir & _ & Hw0 & _)%readConfig_Ok Hw.
  unfold removeWorkspace. rewrite Hr.
  apply writeConfig_succeeds; destruct alias; simpl; congruence.
Qed.

Lemma addWorkspace_succeeds workspace uuid now1 now2 st config alias :
  (readConfig st).1 = Ok (config, alias) -> writable st = true ->
  exists w st1, addWorkspace workspace uuid now1 now2 st = (Ok w, st1).
Proof.
  intros (Hr & Hdir & _ & Hw0 & _)%readConfig_Ok Hw.
  unfold addWorkspace. rewrite Hr.
  match goal with |- context [writeConfig ?c ?s] =>
    destruct (writeConfig_succeeds c s) as [st1 Hwr] end.
  - destruct alias; simpl; congruence.
  - destruct alias; simpl; congruence.
  - rewrite Hwr. by eexists _, _.
Qed.

(** The round trip for a generated id that no stored workspace has. *)
Lemma round_trip_when_fresh
    (st : Store) (workspace : NewWorkspace.t) (uuid now1 now2 : string)
    (config : AppConfig) (alias : Alias)
    (Hread : (readConfig st).1 = Ok (config, alias))
    (Hwrite : writable st = true)
    (Hfresh : Forall (fun x => WorkspaceConfig.id x <> uuid) (workspaces config)) :
  exists w st1,
    addWorkspace workspace uuid now1 now2 st = (Ok w, st1) /\
    WorkspaceConfig.id w = uuid /\
    WorkspaceConfig.title w = NewWorkspace.title workspace /\
    WorkspaceConfig.path w = NewWorkspace.path workspace /\
    WorkspaceConfig.type w = NewWorkspace.type workspace /\
    getWorkspaceById uuid st1 = (Ok (Some w), st1) /\
    (forall i, i <> uuid -> (getWorkspaceById i st1).1 = (getWorkspaceById i st).1) /\
    exists st2,
      removeWorkspace uuid st1 = (Ok (), st2) /\
      getWorkspaceById uuid st2 = (Ok None, st2) /\
      (forall i, i <> uuid -> (getWorkspaceById i st2).1 = (getWorkspaceById i st1).1).
Proof.
  destruct (addWorkspace_succeeds workspace uuid now1 now2 _ _ _ Hread Hwrite)
    as (w & st1 & Hadd).
  exists w, st1. split; [done|].
  apply addWorkspace_Ok in Hadd as (Hw & config' & alias' & st0 & Hr & Hwr).
  rewrite Hread in Hr. injection Hr as <- <-.
  assert (WorkspaceConfig.id w = uuid) as Hid by (by rewrite Hw).
  repeat split; try (by rewrite Hw).
  - rewrite (getWorkspaceById_after_write _ _ _ _ _ Hwr). simpl.
    by rewrite find_by_app_fresh.
  - intros i Hi. rewrite (getWorkspaceById_after_write _ _ _ _ _ Hwr). simpl.
    rewrite (getWorkspaceById_read _ _ _ _ Hread).
    rewrite find_by_app_other; [done|congruence].
  - pose proof (readConfig_after_write _ _ _ _ Hwr) as (Hr1 & Hw1 & Hd1).
    assert ((readConfig st1).1 = Ok ({| workspaces := workspaces config ++ [w];
                                       llmSettings := llmSettings config |},
                                    OwnWorkspaces)) as Hr1' by (by rewrite Hr1).
    destruct (removeWorkspace_succeeds uuid _ _ _ Hr1' Hw1) as [st2 Hrm].
    exists st2. split; [done|].
    apply removeWorkspace_Ok in Hrm as (config' & alias' & st0' & Hr2 & Hwr').
    rewrite Hr1' in Hr2. injection Hr2 as <- <-. simpl in Hwr'.
    split.
    + rewrite (getWorkspaceById_after_write _ _ _ _ _ Hwr'). simpl.
      by rewrite find_by_filter_removed.
    + intros i Hi. rewrite (getWorkspaceById_after_write _ _ _ _ _ Hwr').
      rewrite (getWorkspaceById_after_write _ _ _ _ _ Hwr). simpl.
      by rewrite find_by_filter_other.
Qed.

(** Without a generator that gives new ids the round trip fails: with
    an id that a stored workspace already has, the lookup returns the
    older workspace. *)
Lemma stale_id_returns_older_workspace :
  exists w0 st0 w st1,
    addWorkspace demo_workspace "uuid-1" "t1" "t2" (initial_store Missing true)
    = (Ok w0, st0) /\
    addWorkspace demo_workspace "uuid-1" "t3" "t4" st0 = (Ok w, st1) /\
    w <> w0 /\
    getWorkspaceById "uuid-1" st1 = (Ok (Some w0), st1).
Proof.
  eexists _, _, _, _.
  split; [reflexivity|]. split; [reflexivity|]. split; [|reflexivity].
  intros H. by injection H.
Qed.

(** **** Stores that the functions themselves have built *)

Lemma ids_within_mono ids ids' st :
  ids ⊆ ids' -> ids_within ids st -> ids_within ids' st.
Proof.
  intros Hsub [Hd Hf]. split.
  - eapply Forall_impl; [exact Hd|]. intros w Hw. by apply Hsub.
  - destruct (file st) as [| |parsed]; try done.
    destruct (parsed_workspaces parsed); [|done].
    eapply Forall_impl; [exact Hf|]. intros w Hw. by apply Hsub.
Qed.

Lemma getConfigPath_inv ids st :
  healthy st -> ids_within ids st ->
  (getConfigPath st).1 = Ok () /\
  config_dir (getConfigPath st).2 = DirPresent /\
  healthy (getConfigPath st).2 /\ ids_within ids (getConfigPath st).2.
Proof.
  intros (Hw & Hd & Hf) [Hi1 Hi2]. unfold getConfigPath, ensureConfigDir.
  destruct (config_dir st) as [| |msg] eqn:Hdir; simpl.
  - repeat split; try done. intros msg. by rewrite Hdir.
  - by repeat split.
  - by destruct (Hd msg).
Qed.

Lemma readConfig_inv ids st :
  healthy st -> ids_within ids st ->
  exists config alias,
    readConfig st = (Ok (config, alias), (readConfig st).2) /\
    Forall (fun w => WorkspaceConfig.id w ∈ ids) (workspaces config) /\
    config_dir (readConfig st).2 = DirPresent /\
    healthy (readConfig st).2 /\ ids_within ids (readConfig st).2.
Proof.
  intros Hh Hi. destruct (getConfigPath_inv ids st Hh Hi) as (Hok & Hdir & Hh' & Hi').
  unfold readConfig. destruct (getConfigPath st) as [[[]|msg] st0]; [|done].
  simpl in *. destruct Hh' as (Hw & Hd & Hf). destruct Hi' as [Hi1 Hi2].
  unfold read_and_merge, healthy, ids_within.
  destruct (file st0) as [|msg|parsed] eqn:Hfile.
  - eexists _, _. by repeat split.
  - by destruct (Hf msg).
  - destruct (parsed_workspaces parsed) as [l|] eqn:Hl;
      eexists _, _; by repeat split.
Qed.

Lemma writeConfig_inv ids config st :
  config_dir st = DirPresent -> healthy st -> ids_within ids st ->
  Forall (fun w => WorkspaceConfig.id w ∈ ids) (workspaces config) ->
  healthy (writeConfig config st).2 /\ ids_within ids (writeConfig config st).2.
Proof.
  intros Hdir (Hw & Hd & Hf) [Hi1 Hi2] Hc.
  rewrite writeConfig_present, Hw by done. simpl. by repeat split.
Qed.

Lemma set_default_workspaces_inv ids l st :
  healthy st -> ids_within ids st ->
  Forall (fun w => WorkspaceConfig.id w ∈ ids) l ->
  healthy (set_default_workspaces l st) /\ ids_within ids (set_default_workspaces l st).
Proof. intros (Hw & Hd & Hf) [Hi1 Hi2] Hl. by repeat split. Qed.

Lemma set_default_providers_inv ids l st :
  healthy st -> ids_within ids st ->
  healthy (set_default_providers l st) /\ ids_within ids (set_default_providers l st).
Proof. intros (Hw & Hd & Hf) [Hi1 Hi2]. by repeat split. Qed.

Lemma set_default_agentMappings_inv ids l st :
  healthy st -> ids_within ids st ->
  healthy (set_default_agentMappings l st) /\
  ids_within ids (set_default_agentMappings l st).
Proof. intros (Hw & Hd & Hf) [Hi1 Hi2]. by repeat split. Qed.

Lemma Forall_ids_filter (ids : list string) i (l : list WorkspaceConfig.t) :
  Forall (fun w => WorkspaceConfig.id w ∈ ids) l ->
  Forall (fun w => WorkspaceConfig.id w ∈ ids)
         (filter (fun w => WorkspaceConfig.id w <> i) l).
Proof.
  intros Hl. apply Forall_forall. intros w [_ Hw]%list_elem_of_filter.
  rewrite Forall_forall in Hl. by apply Hl.
Qed.

(** Every call keeps the store healthy, and the ids it holds among the
    generated ones. *)
Lemma perform_inv ids st c :
  healthy st -> ids_within ids st ->
  healthy (perform st c) /\ ids_within (ids ++ generated [c]) (perform st c).
Proof.
  intros Hh Hi.
  assert (ids ⊆ ids ++ generated [c]) as Hsub.
  { intros x Hx. apply elem_of_app. by left. }
  destruct (readConfig_inv ids st Hh Hi) as (config & alias & Hr & Hc & Hdir & Hh0 & Hi0).
  destruct c as [workspace uuid now1 now2|i|i| |providerId updates
                 |agentId providerId modelId|agentId messages| |]; simpl.
  - unfold addWorkspace. rewrite Hr.
    set (w := {| WorkspaceConfig.id := uuid;
                 WorkspaceConfig.title := NewWorkspace.title workspace;
                 WorkspaceConfig.path := NewWorkspace.path workspace;
                 WorkspaceConfig.type := NewWorkspace.type workspace;
                 WorkspaceConfig.lastAccessed := now2;
                 WorkspaceConfig.createdAt := now1 |}).
    assert (Forall (fun x => WorkspaceConfig.id x ∈ ids ++ [uuid])
                   (workspaces config ++ [w])) as Hpushed.
    { apply Forall_app. split.
      - eapply Forall_impl; [exact Hc|]. intros x Hx. apply elem_of_app. by left.
      - repeat constructor. apply elem_of_app. right. by apply list_elem_of_singleton. }
    apply (ids_within_mono _ (ids ++ [uuid])) in Hi0;
      [|intros x Hx; apply elem_of_app; by left].
    match goal with |- context [writeConfig ?cfg ?s] =>
      assert (healthy (writeConfig cfg s).2 /\
              ids_within (ids ++ [uuid]) (writeConfig cfg s).2) as Hgoal;
      [|by destruct (writeConfig cfg s) as [[[]|msg] st2]] end.
    destruct alias.
    + apply writeConfig_inv; try done;
        by apply set_default_workspaces_inv.
    + apply writeConfig_inv; try done;
        by apply set_default_workspaces_inv.
    + by apply writeConfig_inv.
  - rewrite app_nil_r. unfold removeWorkspace. rewrite Hr.
    pose proof (Forall_ids_filter ids i _ Hc) as Hkept.
    destruct alias.
    + apply writeConfig_inv; try done; by apply set_default_workspaces_inv.
    + by apply writeConfig_inv.
    + by apply writeConfig_inv.
  - rewrite app_nil_r. unfold getWorkspaceById. by rewrite Hr.
  - rewrite app_nil_r. unfold getLLMSettings. by rewrite Hr.
  - rewrite app_nil_r. unfold updateProvider. rewrite Hr.
    destruct (list_find _ _) as [[index p]|]; [|done].
    destruct (providers_shared _).
    + apply writeConfig_inv; try done; by apply set_default_providers_inv.
    + by apply writeConfig_inv.
  - rewrite app_nil_r. unfold updateAgentMapping. rewrite Hr.
    destruct (agentMappings_shared _).
    + apply writeConfig_inv; try done; by apply set_default_agentMappings_inv.
    + by apply writeConfig_inv.
  - rewrite app_nil_r. unfold chatCompletion, getLLMSettings. by rewrite Hr.
  - rewrite app_nil_r. destruct Hh as (Hw & Hd & Hf). destruct Hi as [Hi1 Hi2].
    by repeat split.
  - rewrite app_nil_r. destruct Hh as (Hw & Hd & Hf). destruct Hi as [Hi1 Hi2].
    by repeat split.
Qed.

Lemma generated_cons c calls : generated (c :: calls) = generated [c] ++ generated calls.
Proof. unfold generated. simpl. by destruct c. Qed.

Lemma after_inv calls : forall ids st,
  healthy st -> ids_within ids st ->
  healthy (after calls st) /\ ids_within (ids ++ generated calls) (after calls st).
Proof.
  induction calls as [|c calls IH]; intros ids st Hh Hi.
  - by rewrite app_nil_r.
  - destruct (perform_inv ids st c Hh Hi) as [Hh' Hi'].
    rewrite generated_cons, app_assoc. by apply IH.
Qed.

Lemma new_installation_inv dir_exists :
  healthy (new_installation dir_exists) /\ ids_within [] (new_installation dir_exists).
Proof.
  split.
  - split; [done|]. split; [|done]. by destruct dir_exists.
  - split; [constructor|done].
Qed.

(** C10. Workspace persistence round-trips.  In every store that a new
    installation has reached through calls of the store's functions
    (and removals of the file, and new starts of the program), for every
    title, path and type, and for
    an id from [crypto.randomUUID()] that it has not returned before:
    [addWorkspace] returns a record [w] with that id and the requested
    title, path and type; the id is fresh, no workspace of the store
    being found under it before the call; an immediately following
    [getWorkspaceById] with the id returns [w]; lookups of other ids are
    unaffected; [removeWorkspace] with the id succeeds, after which
    [getWorkspaceById] with the id returns [undefined] and lookups of
    other ids are again unaffected. *)
Theorem workspace_persistence_round_trip
    (dir_exists : bool) (calls : list Call)
    (workspace : NewWorkspace.t) (uuid now1 now2 : string)
    (Hnew : uuid ∉ generated calls) :
  exists w st1,
    addWorkspace workspace uuid now1 now2 (after calls (new_installation dir_exists))
    = (Ok w, st1) /\
    WorkspaceConfig.id w = uuid /\
    WorkspaceConfig.title w = NewWorkspace.title workspace /\
    WorkspaceConfig.path w = NewWorkspace.path workspace /\
    WorkspaceConfig.type w = NewWorkspace.type workspace /\
    (getWorkspaceById uuid (after calls (new_installation dir_exists))).1 = Ok None /\
    getWorkspaceById uuid st1 = (Ok (Some w), st1) /\
    (forall i, i <> uuid ->
       (getWorkspaceById i st1).1
       = (getWorkspaceById i (after calls (new_installation dir_exists))).1) /\
    exists st2,
      removeWorkspace uuid st1 = (Ok (), st2) /\
      getWorkspaceById uuid st2 = (Ok None, st2) /\
      (forall i, i <> uuid -> (getWorkspaceById i st2).1 = (getWorkspaceById i st1).1).
Proof.
  destruct (new_installation_inv dir_exists) as [Hh0 Hi0].
  destruct (after_inv calls [] _ Hh0 Hi0) as [Hh Hi]. simpl in Hi.
  set (st := after calls (new_installation dir_exists)) in *.
  destruct (readConfig_inv _ st Hh Hi) as (config & alias & Hr & Hc & _).
  assert ((readConfig st).1 = Ok (config, alias)) as Hread by (by rewrite Hr).
  assert (Forall (fun x => WorkspaceConfig.id x <> uuid) (workspaces config)) as Hfresh.
  { eapply Forall_impl; [exact Hc|]. intros x Hx Heq. apply Hnew.
    by rewrite <- Heq. }
  destruct (round_trip_when_fresh st workspace uuid now1 now2 config alias
              Hread (proj1 Hh) Hfresh)
    as (w & st1 & Hadd & Hid & Ht & Hp & Hty & Hget & Hother & Hrm).
  exists w, st1. repeat (split; [done|]). split; [|done].
  rewrite (getWorkspaceById_read _ _ _ _ Hread). f_equal.
  by apply find_by_None.
Qed.

Lemma workspace_persistence_round_trip_witness :
  exists w st1 st2,
    addWorkspace demo_workspace "uuid-1" "t1" "t2"
      (after [AddWorkspace demo_workspace "uuid-0" "t0" "t0"; Restarted]
             (new_installation false))
    = (Ok w, st1) /\
    WorkspaceConfig.id w = "uuid-1" /\
    getWorkspaceById "uuid-1" st1 = (Ok (Some w), st1) /\
    removeWorkspace "uuid-1" st1 = (Ok (), st2) /\
    getWorkspaceById "uuid-1" st2 = (Ok None, st2).
Proof.
  assert ("uuid-1" ∉ generated [AddWorkspace demo_workspace "uuid-0" "t0" "t0";
                                Restarted]) as Hnew.
  { simpl. rewrite not_elem_of_cons. split; [discriminate|apply not_elem_of_nil]. }
  destruct (workspace_persistence_round_trip false _ demo_workspace
              "uuid-1" "t1" "t2" Hnew)
    as (w & st1 & Hadd & Hid & _ & _ & _ & _ & Hget & _ & st2 & Hrm & Hnone & _).
  by exists w, st1, st2.
Defined.

(** *** What [chatCompletion] refuses *)





(** With the default configuration every provider is disabled, so every
    agent is refused. *)
Example chatCompletion_default_config_throws agentId :
  agentId ∈ ["orchestrator"; "po"; "architect"; "developer"] ->
  (chatCompletion agentId [] (initial_store Missing true)).1
  = Throw "Provider openai is not configured or enabled".
Proof.
  rewrite !elem_of_cons, elem_of_nil.
  intros [->|[->|[->|[->|[]]]]]; reflexivity.
Qed.

(** *** LLM settings *)

Section FindIndex.
Context {A : Type} (key : A -> string).

Lemma list_find_split k l i x :
  list_find (fun y => key y = k) l = Some (i, x) ->
  l = take i l ++ x :: drop (S i) l /\ key x = k /\
  Forall (fun y => key y <> k) (take i l) /\ i < length l.
Proof.
  intros (Hi & Hk & Hbefore)%list_find_Some.
  repeat split.
  - by rewrite take_drop_middle.
  - done.
  - apply Forall_lookup. intros j y Hj.
    apply lookup_take_Some in Hj as [Hj Hlt]. by eapply Hbefore.
  - by eapply lookup_lt_Some.
Qed.

Lemma list_find_none k l :
  list_find (fun y => key y = k) l = None -> Forall (fun y => key y <> k) l.
Proof. by intros H%list_find_None. Qed.

Lemma find_by_app k l1 l2 :
  find_by key k (l1 ++ l2)
  = match find_by key k l1 with Some x => Some x | None => find_by key k l2 end.
Proof.
  unfold find_by. induction l1 as [|y l1 IH]; simpl; [done|].
  by case_bool_decide.
Qed.

Lemma find_by_middle k l1 x l2 :
  Forall (fun y => key y <> k) l1 -> key x = k -> find_by key k (l1 ++ x :: l2) = Some x.
Proof. intros Hall Hk. apply find_by_Some. by exists l1, l2. Qed.

Lemma find_by_middle_other k l1 x x' l2 :
  key x <> k -> key x' <> k ->
  find_by key k (l1 ++ x' :: l2) = find_by key k (l1 ++ x :: l2).
Proof.
  intros Hx Hx'. rewrite !find_by_app. destruct (find_by key k l1); [done|].
  unfold find_by. simpl. by rewrite !bool_decide_false.
Qed.
End FindIndex.

Lemma getLLMSettings_after_write config st r st' :
  writeConfig config st = (Ok r, st') ->
  getLLMSettings st' = (Ok (llmSettings config), st').
Proof.
  intros (H & _)%readConfig_after_write. unfold getLLMSettings. by rewrite H.
Qed.

(** X4. [updateAgentMapping] on a readable and writable store sets the
    mapping of the agent: afterwards the settings map the agent to the
    given provider and model, the mappings of all other agents, the
    providers and the workspaces are as before, and the number of mappings
    grows by one exactly when the agent had none. *)
Theorem updateAgentMapping_sets_mapping
    (st : Store) (agentId providerId modelId : string)
    (config : AppConfig) (alias : Alias)
    (Hread : (readConfig st).1 = Ok (config, alias))
    (Hwrite : writable st = true) :
  exists st' settings,
    updateAgentMapping agentId providerId modelId st = (Ok (), st') /\
    getLLMSettings st' = (Ok settings, st') /\
    find_by AgentMapping.agentId agentId (agentMappings settings)
    = Some {| AgentMapping.agentId := agentId;
              AgentMapping.providerId := providerId;
              AgentMapping.modelId := modelId |} /\
    (forall other, other <> agentId ->
       find_by AgentMapping.agentId other (agentMappings settings)
       = find_by AgentMapping.agentId other (agentMappings (llmSettings config))) /\
    length (agentMappings settings)
    = (match find_by AgentMapping.agentId agentId (agentMappings (llmSettings config)) with
       | Some _ => length (agentMappings (llmSettings config))
       | None => S (length (agentMappings (llmSettings config)))
       end) /\
    providers settings = providers (llmSettings config) /\
    (forall i, (getWorkspaceById i st').1 = (getWorkspaceById i st).1).
Proof.
  destruct (readConfig_Ok _ _ _ Hread) as (Hr & Hdir & _ & Hw0 & _).
  unfold updateAgentMapping. rewrite Hr.
  set (ms := agentMappings (llmSettings config)).
  set (mapping := {| AgentMapping.agentId := agentId;
                     AgentMapping.providerId := providerId;
                     AgentMapping.modelId := modelId |}).
  match goal with |- context [writeConfig ?c ?s] =>
    destruct (writeConfig_succeeds c s) as [st' Hwr] end.
  { by destruct (agentMappings_shared _). }
  { destruct (agentMappings_shared _); simpl; congruence. }
  exists st'. eexists. split; [exact Hwr|].
  split; [apply (getLLMSettings_after_write _ _ _ _ Hwr)|]. simpl.
  assert (forall i, (getWorkspaceById i st').1 = (getWorkspaceById i st).1) as Hws.
  { intros i. rewrite (getWorkspaceById_after_write _ _ _ _ _ Hwr). simpl.
    by rewrite (getWorkspaceById_read _ _ _ _ Hread). }
  unfold findIndex_by.
  destruct (list_find (fun y => AgentMapping.agentId y = agentId) ms)
    as [[i x]|] eqn:Hfind; simpl.
  - apply list_find_split in Hfind as (Hl & Hk & Hbefore & Hlt).
    rewrite insert_take_drop by done.
    assert (find_by AgentMapping.agentId agentId ms = Some x) as Hx.
    { rewrite Hl. by apply find_by_middle. }
    rewrite Hx. repeat split; try done.
    + by apply find_by_middle.
    + intros other Hne.
      trans (find_by AgentMapping.agentId other (take i ms ++ x :: drop (S i) ms));
        [|by rewrite <- Hl].
      apply find_by_middle_other; simpl; congruence.
    + rewrite length_app. simpl. rewrite length_take, length_drop. lia.
  - apply list_find_none in Hfind.
    assert (find_by AgentMapping.agentId agentId ms = None) as Hx
      by (by apply find_by_None).
    rewrite Hx. repeat split; try done.
    + by apply find_by_app_fresh.
    + intros other Hne. apply find_by_app_other. simpl. congruence.
    + rewrite length_app. simpl. lia.
Qed.

Lemma updateAgentMapping_sets_mapping_witness :
  exists st' settings,
    updateAgentMapping "po" "ollama" "llama3" (initial_store Missing true) = (Ok (), st') /\
    getLLMSettings st' = (Ok settings, st') /\
    find_by AgentMapping.agentId "po" (agentMappings settings)
    = Some {| AgentMapping.agentId := "po"; AgentMapping.providerId := "ollama";
              AgentMapping.modelId := "llama3" |} /\
    length (agentMappings settings) = 4.
Proof.
  destruct (updateAgentMapping_sets_mapping (initial_store Missing true)
              "po" "ollama" "llama3" DEFAULT_CONFIG IsDefault eq_refl eq_refl)
    as (st' & settings & Hu & Hg & Hf & _ & Hl & _).
  exists st', settings. by repeat split.
Defined.

Lemma first_with_list_find {A} (key : A -> string) k l1 x l2 :
  Forall (fun y => key y <> k) l1 -> key x = k ->
  list_find (fun y => key y = k) (l1 ++ x :: l2) = Some (length l1, x).
Proof.
  intros Hall Hk. apply list_find_Some. repeat split.
  - by rewrite list_lookup_middle.
  - done.
  - intros j y Hj Hlt. rewrite lookup_app_l in Hj by done.
    rewrite Forall_lookup in Hall. by eapply Hall.
Qed.

Lemma insert_middle {A} (l1 : list A) x x' l2 :
  <[length l1 := x']> (l1 ++ x :: l2) = l1 ++ x' :: l2.
Proof.
  replace (length l1) with (length l1 + 0) by lia.
  by rewrite insert_app_r.
Qed.

(** X5. [updateProvider] on a readable store.  When no provider has the
    id, nothing is written and [DEFAULT_CONFIG] is not changed, whether
    the file can be written or not: the store is left as [getConfigPath]
    leaves it, that is, unchanged when the configuration directory is
    there.  Otherwise, on a writable store, the first provider with
    the id is replaced, in place, by itself overridden with the updates;
    every other provider, the agent mappings and the workspaces are as
    before; and if the updates leave the id alone, the provider found
    under the id afterwards is the updated one. *)
Theorem updateProvider_updates_first_match
    (st : Store) (providerId : string) (updates : ProviderUpdates.t)
    (config : AppConfig) (alias : Alias)
    (Hread : (readConfig st).1 = Ok (config, alias)) :
  (Forall (fun p => LLMProvider.id p <> providerId) (providers (llmSettings config)) ->
   updateProvider providerId updates st = (Ok (), (getConfigPath st).2) /\
   default_config (getConfigPath st).2 = default_config st /\
   (config_dir st = DirPresent -> (getConfigPath st).2 = st)) /\
  (forall l1 p l2,
     providers (llmSettings config) = l1 ++ p :: l2 ->
     Forall (fun q => LLMProvider.id q <> providerId) l1 ->
     LLMProvider.id p = providerId ->
     writable st = true ->
     exists st' settings,
       updateProvider providerId updates st = (Ok (), st') /\
       getLLMSettings st' = (Ok settings, st') /\
       providers settings = l1 ++ merge_provider p updates :: l2 /\
       agentMappings settings = agentMappings (llmSettings config) /\
       (ProviderUpdates.id updates = None ->
        find_by LLMProvider.id providerId (providers settings)
        = Some (merge_provider p updates)) /\
       (forall i, (getWorkspaceById i st').1 = (getWorkspaceById i st).1)).
Proof.
  destruct (readConfig_Ok _ _ _ Hread) as (Hr & Hdir & _ & Hw0 & Hd0).
  unfold updateProvider. rewrite Hr. split.
  - intros Hnone.
    assert (list_find (fun x => LLMProvider.id x = providerId)
              (providers (llmSettings config)) = None) as Hfind
      by (by apply list_find_None).
    rewrite Hfind, <- readConfig_state. split; [done|]. split; [done|].
    intros Hpresent. by rewrite readConfig_present.
  - intros l1 p l2 Hl Hbefore Hid Hwrite. rewrite Hl.
    rewrite (first_with_list_find LLMProvider.id) by done.
    rewrite insert_middle.
    match goal with |- context [writeConfig ?c ?s] =>
      destruct (writeConfig_succeeds c s) as [st' Hwr] end.
    { by destruct (providers_shared _). }
    { destruct (providers_shared _); simpl; congruence. }
    exists st'. eexists. split; [exact Hwr|].
    split; [apply (getLLMSettings_after_write _ _ _ _ Hwr)|]. simpl.
    repeat split.
    + intros Hu. apply find_by_middle; [done|].
      unfold merge_provider. simpl. by rewrite Hu.
    + intros i. rewrite (getWorkspaceById_after_write _ _ _ _ _ Hwr). simpl.
      by rewrite (getWorkspaceById_read _ _ _ _ Hread).
Qed.

Lemma updateProvider_updates_first_match_witness :
  updateProvider "mistral" (enable_with_key "k") (initial_store Missing false)
  = (Ok (), initial_store Missing false) /\
  exists st' settings,
    updateProvider "anthropic" (enable_with_key "k") (initial_store Missing true)
    = (Ok (), st') /\
    getLLMSettings st' = (Ok settings, st') /\
    LLMProvider.enabled <$> find_by LLMProvider.id "anthropic" (providers settings)
    = Some true.
Proof.
  split.
  - destruct (updateProvider_updates_first_match (initial_store Missing false)
                "mistral" (enable_with_key "k") DEFAULT_CONFIG IsDefault eq_refl)
      as [H _].
    destruct H as (Hu & _ & Hsame); [repeat constructor; discriminate|].
    by rewrite Hu, Hsame.
  - destruct (updateProvider_updates_first_match (initial_store Missing true)
                "anthropic" (enable_with_key "k") DEFAULT_CONFIG IsDefault eq_refl)
      as [_ H].
    destruct (H (take 1 (providers (llmSettings DEFAULT_CONFIG)))
                {| LLMProvider.id := "anthropic"; LLMProvider.name := "Anthropic";
                   LLMProvider.apiKey := ""; LLMProvider.baseUrl := None;
                   LLMProvider.defaultModel := "claude-3-5-sonnet-20240620";
                   LLMProvider.enabled := false |}
                (drop 2 (providers (llmSettings DEFAULT_CONFIG))))
      as (st' & settings & Hu & Hg & _ & _ & Hf & _).
    + reflexivity.
    + repeat constructor. discriminate.
    + reflexivity.
    + reflexivity.
    + exists st', settings. split; [exact Hu|]. split; [exact Hg|].
      by rewrite Hf.
Defined.

Lemma updateProvider_found st providerId updates config alias l1 p l2 :
  (readConfig st).1 = Ok (config, alias) -> writable st = true ->
  providers (llmSettings config) = l1 ++ p :: l2 ->
  Forall (fun q => LLMProvider.id q <> providerId) l1 ->
  LLMProvider.id p = providerId ->
  exists st',
    updateProvider providerId updates st = (Ok (), st') /\
    writable st' = true /\
    (readConfig st').1
    = Ok ({| workspaces := workspaces config;
             llmSettings :=
               {| providers := l1 ++ merge_provider p updates :: l2;
                  agentMappings := agentMappings (llmSettings config) |} |},
          OwnWorkspaces).
Proof.
  intros Hread Hwrite Hl Hbefore Hid.
  destruct (readConfig_Ok _ _ _ Hread) as (Hr & Hdir & _ & Hw0 & _).
  unfold updateProvider. rewrite Hr, Hl.
  rewrite (first_with_list_find LLMProvider.id) by done.
  rewrite insert_middle.
  match goal with |- context [writeConfig ?c ?s] =>
    destruct (writeConfig_succeeds c s) as [st' Hwr] end.
  { by destruct (providers_shared _). }
  { destruct (providers_shared _); simpl; congruence. }
  exists st'. split; [done|].
  destruct (readConfig_after_write _ _ _ _ Hwr) as (Hr' & Hw' & _).
  by rewrite Hr'.
Qed.

Lemma updateAgentMapping_run st agentId providerId modelId config alias :
  (readConfig st).1 = Ok (config, alias) -> writable st = true ->
  exists st' ms',
    updateAgentMapping agentId providerId modelId st = (Ok (), st') /\
    getLLMSettings st'
    = (Ok {| providers := providers (llmSettings config); agentMappings := ms' |}, st') /\
    find_by AgentMapping.agentId agentId ms'
    = Some {| AgentMapping.agentId := agentId;
              AgentMapping.providerId := providerId;
              AgentMapping.modelId := modelId |}.
Proof.
  intros Hread Hwrite.
  destruct (readConfig_Ok _ _ _ Hread) as (Hr & Hdir & _ & Hw0 & _).
  unfold updateAgentMapping. rewrite Hr.
  match goal with |- context [writeConfig ?c ?s] =>
    destruct (writeConfig_succeeds c s) as [st' Hwr] end.
  { by destruct (agentMappings_shared _). }
  { destruct (agentMappings_shared _); simpl; congruence. }
  exists st'. eexists. split; [exact Hwr|].
  split; [apply (getLLMSettings_after_write _ _ _ _ Hwr)|].
  unfold findIndex_by.
  destruct (list_find _ (agentMappings (llmSettings config))) as [[i x]|] eqn:Hfind; simpl.
  - apply list_find_split in Hfind as (Hl & Hk & Hbefore & Hlt).
    rewrite insert_take_drop by done. by apply find_by_middle.
  - apply list_find_none in Hfind. by apply find_by_app_fresh.
Qed.

(** X6. Configuring and then asking.  On a readable and writable store
    that lists a provider with a supported id, after
    [updateProvider(id, {apiKey, enabled: true})] with a non-empty key and
    [updateAgentMapping(agent, id, model)], [chatCompletion] for the agent
    under the stored settings calls that provider with the messages it is
    given and with the model, or with the provider's default model when
    the model is empty. *)
Theorem configure_then_chatCompletion
    (st : Store) (agentId providerId key modelId : string)
    (messages : list LLMMessage)
    (config : AppConfig) (alias : Alias) (l1 l2 : list LLMProvider.t)
    (p : LLMProvider.t)
    (Hread : (readConfig st).1 = Ok (config, alias))
    (Hwrite : writable st = true)
    (Hproviders : providers (llmSettings config) = l1 ++ p :: l2)
    (Hfirst : Forall (fun q => LLMProvider.id q <> providerId) l1)
    (Hid : LLMProvider.id p = providerId)
    (Hsupported : providerId ∈ supported_providers)
    (Hkey : key <> "") :
  exists st1 st2 settings call,
    updateProvider providerId (enable_with_key key) st = (Ok (), st1) /\
    updateAgentMapping agentId providerId modelId st1 = (Ok (), st2) /\
    getLLMSettings st2 = (Ok settings, st2) /\
    chatCompletion_with settings agentId messages = Ok call /\
    chatCompletion agentId messages st2 = (Ok call, st2) /\
    call_provider call = providerId /\
    call_model call
    = (if decide (modelId = "") then LLMProvider.defaultModel p else modelId) /\
    call_messages call = messages.
Proof.
  destruct (updateProvider_found st providerId (enable_with_key key) _ _ _ _ _
              Hread Hwrite Hproviders Hfirst Hid) as (st1 & Hu & Hw1 & Hr1).
  destruct (updateAgentMapping_run st1 agentId providerId modelId _ _ Hr1 Hw1)
    as (st2 & ms' & Hm & Hg & Hfind).
  simpl in Hg. exists st1, st2. eexists. 
  assert (find_by LLMProvider.id providerId
            (l1 ++ merge_provider p (enable_with_key key) :: l2)
          = Some (merge_provider p (enable_with_key key))) as Hp.
  { by apply find_by_middle. }
  assert (exists call,
    chatCompletion_with
      {| providers := l1 ++ merge_provider p (enable_with_key key) :: l2;
         agentMappings := ms' |} agentId messages = Ok call /\
    call_provider call = providerId /\
    call_model call
    = (if decide (modelId = "") then LLMProvider.defaultModel p else modelId) /\
    call_messages call = messages) as (call & Hcall).
  { unfold chatCompletion_with. simpl. rewrite Hfind. simpl. rewrite Hp. simpl.
    rewrite bool_decide_false by done. simpl. rewrite Hid.
    apply elem_of_supported_providers in Hsupported.
    destruct Hsupported as [ -> | [ -> | [ -> | -> ] ] ]; simpl; by eexists. }
  exists call. split; [exact Hu|]. split; [exact Hm|]. split; [exact Hg|].
  destruct Hcall as (Hcall & Hrest). split; [exact Hcall|].
  split; [|exact Hrest]. unfold chatCompletion. by rewrite Hg, Hcall.
Qed.

Lemma configure_then_chatCompletion_witness :
  exists st1 st2 settings call,
    updateProvider "ollama" (enable_with_key "na") (initial_store Missing true)
    = (Ok (), st1) /\
    updateAgentMapping "developer" "ollama" "" st1 = (Ok (), st2) /\
    getLLMSettings st2 = (Ok settings, st2) /\
    chatCompletion "developer" [] st2 = (Ok call, st2) /\
    call_provider call = "ollama" /\ call_model call = "llama3".
Proof.
  destruct (configure_then_chatCompletion (initial_store Missing true)
              "developer" "ollama" "na" "" [] DEFAULT_CONFIG IsDefault
              (take 3 (providers (llmSettings DEFAULT_CONFIG))) []
              {| LLMProvider.id := "ollama"; LLMProvider.name := "Ollama (Local)";
                 LLMProvider.apiKey := "na";
                 LLMProvider.baseUrl := Some "http://localhost:11434";
                 LLMProvider.defaultModel := "llama3"; LLMProvider.enabled := false |})
    as (st1 & st2 & settings & call & H1 & H2 & H3 & _ & H4 & H5 & H6 & _).
  - reflexivity.
  - reflexivity.
  - reflexivity.
  - repeat constructor; discriminate.
  - reflexivity.
  - apply elem_of_supported_providers. tauto.
  - discriminate.
  - exists st1, st2, settings, call. by repeat split.
Defined.

(** *** Removing workspaces, and the shared default configuration *)





(** X8. [addWorkspace] changes the shared default configuration.  When
    the configuration that is read shares its workspace list with
    [DEFAULT_CONFIG] (the file is missing, or has no [workspaces]), the
    new workspace is appended to the list of [DEFAULT_CONFIG] itself, so
    that it is still found by its (fresh) id after the file has been
    removed; when the file has a [workspaces] list, [DEFAULT_CONFIG] is
    left alone. *)
Theorem addWorkspace_appends_to_shared_default
    (st : Store) (workspace : NewWorkspace.t) (uuid now1 now2 : string)
    (config : AppConfig) (alias : Alias)
    (Hread : (readConfig st).1 = Ok (config, alias))
    (Hwrite : writable st = true) :
  exists w st1,
    addWorkspace workspace uuid now1 now2 st = (Ok w, st1) /\
    (alias = OwnWorkspaces -> default_config st1 = default_config st) /\
    (alias <> OwnWorkspaces ->
     workspaces (default_config st1) = workspaces (default_config st) ++ [w] /\
     llmSettings (default_config st1) = llmSettings (default_config st) /\
     (Forall (fun x => WorkspaceConfig.id x <> uuid) (workspaces (default_config st)) ->
      getWorkspaceById uuid (file_removed st1) = (Ok (Some w), file_removed st1))).
Proof.
  assert (alias <> OwnWorkspaces -> workspaces config = workspaces (default_config st))
    as Hshared.
  { destruct (readConfig_Ok _ _ _ Hread) as (_ & _ & Hrm & _ & Hd0).
    rewrite <- Hd0. unfold read_and_merge in Hrm.
    destruct (file _) as [|msg|parsed]; simplify_eq; [done|].
    destruct (parsed_workspaces parsed); by simplify_eq. }
  destruct (readConfig_Ok _ _ _ Hread) as (Hr & Hdir & _ & Hw0 & Hd0).
  unfold addWorkspace. rewrite Hr.
  destruct alias; simpl; rewrite writeConfig_present by done; simpl;
    rewrite Hw0, Hwrite; eexists _, _; (split; [reflexivity|]); simpl;
    rewrite ?Hd0.
  - split; [done|]. intros _. rewrite Hshared by done. repeat split.
    intros Hfresh. unfold getWorkspaceById.
    rewrite readConfig_present by done. simpl.
    by rewrite find_by_app_fresh.
  - split; [done|]. intros _. rewrite Hshared by done. repeat split.
    intros Hfresh. unfold getWorkspaceById.
    rewrite readConfig_present by done. simpl.
    by rewrite find_by_app_fresh.
  - split; [done|]. by intros [].
Qed.

Lemma addWorkspace_appends_to_shared_default_witness :
  exists w st1,
    addWorkspace demo_workspace "uuid-1" "t1" "t2" (initial_store Missing true)
    = (Ok w, st1) /\
    workspaces (default_config st1) = [w] /\
    getWorkspaceById "uuid-1" (file_removed st1) = (Ok (Some w), file_removed st1).
Proof.
  destruct (addWorkspace_appends_to_shared_default (initial_store Missing true)
              demo_workspace "uuid-1" "t1" "t2" DEFAULT_CONFIG IsDefault
              eq_refl eq_refl)
    as (w & st1 & Hadd & _ & Hshared).
  destruct Hshared as (Hws & _ & Hget); [discriminate|].
  exists w, st1. split; [exact Hadd|]. split; [exact Hws|].
  apply Hget. constructor.
Defined.

(** *** System messages in the provider requests *)

Lemma anthropic_body_drop_system model pre s post :
  Exists (fun m => role m = system) pre ->
  role s = system ->
  anthropic_body model (pre ++ s :: post) = anthropic_body model (pre ++ post).
Proof.
  intros Hpre Hs. unfold anthropic_body. f_equal.
  - f_equal. induction Hpre as [m pre Hm|m pre Hpre IH]; simpl.
    + unfold is_system at 1 3. by rewrite Hm.
    + destruct (is_system m); [done|apply IH].
  - f_equal. rewrite !List.filter_app. simpl.
    unfold is_system at 2. by rewrite Hs.
Qed.

(** X9. System messages at Anthropic and Gemini.  The request to
    Anthropic carries the text of the first system message as its system
    prompt and every message that is not a system message, in order, as a
    user or assistant turn; a system message that follows another one is
    left out, so that removing it changes nothing in the request.  The
    request to Gemini leaves no message out: every message is one turn,
    in order, a system message being sent as a user turn. *)
Theorem later_system_messages_are_not_sent
    (model : string) (messages : list LLMMessage) :
  (forall pre s post,
     messages = pre ++ s :: post ->
     Forall (fun m => role m <> system) pre -> role s = system ->
     body_system (anthropic_body model messages) = Some (content s)) /\
  (Forall (fun m => role m <> system) messages ->
     body_system (anthropic_body model messages) = None) /\
  map wire_text (body_messages (anthropic_body model messages))
    = map content (List.filter (fun m => negb (is_system m)) messages) /\
  (forall pre s post,
     messages = pre ++ s :: post ->
     Exists (fun m => role m = system) pre -> role s = system ->
     anthropic_body model messages = anthropic_body model (pre ++ post)) /\
  map wire_text (gemini_contents messages) = map content messages /\
  Forall2 (fun m w => wire_role w
                      = match role m with assistant => wire_model | _ => wire_user end)
          messages (gemini_contents messages).
Proof.
  split; [|split; [|split; [|split; [|split]]]].
  - intros pre s post -> Hpre Hs. simpl. 
    induction Hpre as [|m pre Hm Hpre IH]; simpl.
    + unfold is_system. by rewrite Hs.
    + unfold is_system at 1. destruct (role m); [done|apply IH..].
  - intros Hall. simpl. induction Hall as [|m ms Hm Hall IH]; simpl; [done|].
    unfold is_system at 1. destruct (role m); [done|apply IH..].
  - simpl. by rewrite map_map.
  - intros pre s post -> Hpre Hs. by apply anthropic_body_drop_system.
  - unfold gemini_contents. by rewrite map_map.
  - unfold gemini_contents. induction messages as [|m ms IH]; simpl; by constructor.
Qed.

Lemma later_system_messages_witness :
  anthropic_texts
    (anthropic_body "claude"
       [ {| role := system; content := "Be brief." |};
         {| role := user; content := "Hello" |};
         {| role := system; content := "Answer in French." |} ])
  = ["Be brief."; "Hello"]%string.
Proof.
  destruct (later_system_messages_are_not_sent "claude"
              [ {| role := system; content := "Be brief." |};
                {| role := user; content := "Hello" |};
                {| role := system; content := "Answer in French." |} ])
    as (_ & _ & _ & Hdrop & _).
  rewrite (Hdrop [ {| role := system; content := "Be brief." |};
                   {| role := user; content := "Hello" |} ]
                 {| role := system; content := "Answer in French." |} []).
  - reflexivity.
  - reflexivity.
  - by apply Exists_cons_hd.
  - reflexivity.
Defined.

End ConfigProofs.

(** ** Server actions *)

Module ActionsProofs.
Import JS Actions.

Lemma or_else_nonempty a b : a <> "" -> or_else a b = a.
Proof. intros H. unfold or_else. by rewrite decide_False. Qed.

Lemma try_catch_total {A} (body : Result A) (handler : string -> A) :
  exists a, try_catch body (fun m => Ok (handler m)) = Ok a.
Proof. destruct body; simpl; by eexists. Qed.

(** The error that [fetch] throws has a message. *)
Lemma fetch_message {A} (x : Exchange A) m : fetch x = Throw m -> m <> "".
Proof. destruct x; simpl; intros H; by simplify_eq. Qed.

(** C4.  None of the three actions throws, whatever the backend call
    does.  When the backend call raises an error, the action returns its
    fallback value with the error message: as the task of a decision for
    [user], as the message of a response without operations, as the
    standard error of a result with empty output and exit code 1.  The
    two agent actions do the same when the response carries an error
    text. *)
Theorem actions_convert_errors_to_results (api : AxiomApi) :
  (forall workspaceId messages,
     (exists d, orchestrateAction api workspaceId messages = Ok d) /\
     (forall m, orchestrate api workspaceId messages = Throw m ->
        orchestrateAction api workspaceId messages = Ok (orchestrate_fallback m)) /\
     (forall r m, orchestrate api workspaceId messages = Ok r ->
        OrchestrateResponse.error r = Some m -> m <> "" ->
        orchestrateAction api workspaceId messages = Ok (orchestrate_fallback m))) /\
  (forall workspaceId task,
     (exists d, developerAction api workspaceId task = Ok d) /\
     (forall m, runDeveloper api workspaceId task = Throw m ->
        developerAction api workspaceId task = Ok (developer_fallback m)) /\
     (forall r m, runDeveloper api workspaceId task = Ok r ->
        RunDeveloperResponse.error r = Some m -> m <> "" ->
        developerAction api workspaceId task = Ok (developer_fallback m))) /\
  (forall command workspaceId,
     (exists r, runCommandAction api command workspaceId = Ok r) /\
     (forall m, runCommand api workspaceId command = Throw m ->
        runCommandAction api command workspaceId = Ok (command_fallback m))).
Proof.
  split; [|split].
  - intros ws ms. split; [apply try_catch_total|]. split.
    + intros m Hm. unfold orchestrateAction. rewrite Hm. simpl.
      rewrite or_else_nonempty; [done|]. by eapply fetch_message.
    + intros r m Hr He Hne. unfold orchestrateAction. rewrite Hr, He. simpl.
      rewrite bool_decide_false by done. simpl.
      by rewrite or_else_nonempty.
  - intros ws t. split; [apply try_catch_total|]. split.
    + intros m Hm. unfold developerAction. rewrite Hm. simpl.
      rewrite or_else_nonempty; [done|]. by eapply fetch_message.
    + intros r m Hr He Hne. unfold developerAction. rewrite Hr, He. simpl.
      rewrite bool_decide_false by done. simpl.
      by rewrite or_else_nonempty.
  - intros c ws. split; [apply try_catch_total|].
    intros m Hm. unfold runCommandAction. rewrite Hm. simpl.
    rewrite or_else_nonempty; [done|]. by eapply fetch_message.
Qed.

Lemma actions_convert_errors_to_results_witness :
  orchestrateAction (failing_api 500 "boom") "ws" []
  = Ok (orchestrate_fallback "API error (500): boom") /\
  developerAction (failing_api 500 "boom") "ws" "task"
  = Ok (developer_fallback "API error (500): boom") /\
  runCommandAction (failing_api 500 "boom") "ls" "ws"
  = Ok (command_fallback "API error (500): boom").
Proof.
  destruct (actions_convert_errors_to_results (failing_api 500 "boom"))
    as (Ho & Hd & Hc).
  split; [|split].
  - exact (proj1 (proj2 (Ho "ws" [])) _ eq_refl).
  - exact (proj1 (proj2 (Hd "ws" "task")) _ eq_refl).
  - exact (proj2 (Hc "ls" "ws") _ eq_refl).
Defined.

End ActionsProofs.

(** ** Workspace page *)

Module PageProofs.
Import JS Page.

(** *** Agent status updates *)

Lemma follows_lifecycle_NoDup h : follows_lifecycle h -> NoDup h.
Proof.
  intros (t & Ht & Hsub). eapply sublist_NoDup; [|exact Hsub].
  destruct t; try done; by apply (bool_decide_unpack _).
Qed.

(** C1 as stated fails on [updateAgentStatus].  The two calls that
    [handleSendMessage] makes for the orchestrator are both accepted and
    leave the status sequence idle, thinking, idle; under no reading of
    the page's statuses as backend statuses is that sequence a subsequence
    of pending, running, terminal.  No status is final: whatever status
    a call has stored, the next call replaces it. *)
Lemma orchestrator_status_returns_to_idle :
  status_history orchestrator orchestrator_round initial_agentStates
  = [idle; thinking; idle] /\
  (forall f : Status -> AgentStatus,
     ~ follows_lifecycle
         (map f (status_history orchestrator orchestrator_round initial_agentStates))) /\
  (forall s s' : Status,
     status (updateAgentStatus orchestrator s' None
               (updateAgentStatus orchestrator s None initial_agentStates)
               orchestrator) = s').
Proof.
  split; [reflexivity|]. split.
  - intros f H%follows_lifecycle_NoDup.
    simpl in H. apply NoDup_cons in H as [Hin _]. apply Hin.
    rewrite !elem_of_cons. auto.
  - intros s s'. reflexivity.
Qed.

Lemma status_history_cons role u calls prev :
  status_history role (u :: calls) prev
  = if decide (update_role u = role)
    then status (prev role) :: status_history role calls (apply_update u prev)
    else status_history role calls (apply_update u prev).
Proof. reflexivity. Qed.

Lemma status_history_all_recorded role calls prev :
  status_history role calls prev
  = status (prev role)
    :: map update_status (filter (fun u => update_role u = role) calls).
Proof.
  revert prev. induction calls as [|u calls IH]; intros prev; [done|].
  rewrite status_history_cons, filter_cons.
  destruct (decide (update_role u = role)) as [Hu|Hu]; rewrite IH; simpl.
  - unfold apply_update, updateAgentStatus. rewrite Hu.
    by rewrite decide_True.
  - unfold apply_update, updateAgentStatus.
    by rewrite (decide_False (P := role = update_role u)).
Qed.

(** C1, amended.  [updateAgentStatus] accepts every call, whatever the
    status stored before: afterwards the agent addressed has the status
    and the message passed in and keeps its other fields, and the other
    agents are unchanged; so the statuses recorded for an agent are its
    first status followed by the status of every call that addressed it,
    none left out. *)
Theorem updateAgentStatus_overwrites_unconditionally
    (role : AgentRole) (s : Status) (message : option string) (prev : AgentStates) :
  status (updateAgentStatus role s message prev role) = s /\
  lastMessage (updateAgentStatus role s message prev role) = message /\
  id (updateAgentStatus role s message prev role) = id (prev role) /\
  name (updateAgentStatus role s message prev role) = name (prev role) /\
  currentTask (updateAgentStatus role s message prev role) = currentTask (prev role) /\
  (forall r, r <> role -> updateAgentStatus role s message prev r = prev r) /\
  (forall calls,
     status_history role calls prev
     = status (prev role)
       :: map update_status (filter (fun u => update_role u = role) calls)).
Proof.
  unfold updateAgentStatus. rewrite decide_True by done. simpl.
  repeat split; try done.
  - intros r Hr. by rewrite decide_False.
  - intros calls. apply status_history_all_recorded.
Qed.

Lemma updateAgentStatus_overwrites_witness :
  status (updateAgentStatus orchestrator thinking (Some "Analyzing request...")
            initial_agentStates orchestrator) = thinking /\
  updateAgentStatus orchestrator thinking (Some "Analyzing request...")
    initial_agentStates po = initial_agentStates po.
Proof.
  destruct (updateAgentStatus_overwrites_unconditionally
              orchestrator thinking (Some "Analyzing request...") initial_agentStates)
    as (Hs & _ & _ & _ & _ & Hother & _).
  split; [exact Hs|]. apply Hother. discriminate.
Defined.

(** *** Message submission *)

Lemma trimStart_nil s : trimStart s = [] <-> blank s.
Proof.
  unfold blank. induction s as [|c s IH]; simpl.
  - split; [constructor|done].
  - destruct (is_white_space c) eqn:Hc.
    + rewrite IH. split; [by constructor|]. intros H. by inversion H.
    + split; [done|]. intros H. inversion H; congruence.
Qed.

Lemma trimStart_cons s c r :
  trimStart s = c :: r -> is_white_space c = false.
Proof.
  induction s as [|x s IH]; simpl; [done|].
  destruct (is_white_space x) eqn:Hx; [done|]. by intros [= <- _].
Qed.

Lemma trimStart_app_nonblank l c k :
  is_white_space c = false -> trimStart (l ++ c :: k) = trimStart l ++ c :: k.
Proof.
  intros Hc. induction l as [|x l IH]; simpl.
  - by rewrite Hc.
  - by destruct (is_white_space x).
Qed.

Lemma blank_reverse s : blank (reverse s) <-> blank s.
Proof. unfold blank. by rewrite Forall_reverse. Qed.

Lemma blank_trimStart s : blank (trimStart s) <-> blank s.
Proof.
  unfold blank. induction s as [|c s IH]; simpl; [done|].
  destruct (is_white_space c) eqn:Hc.
  - rewrite IH. split; [by constructor|]. intros H. by inversion H.
  - done.
Qed.

Lemma trim_nil s : trim s = [] <-> blank s.
Proof.
  unfold trim, trimEnd. rewrite <- blank_trimStart, <- blank_reverse, <- trimStart_nil.
  split; [|by intros ->].
  intros H. apply (f_equal reverse) in H. by rewrite reverse_involutive in H.
Qed.

Lemma head_trim s : head (trim s) = leading s.
Proof.
  unfold leading, trim, trimEnd. destruct (trimStart s) as [|c r] eqn:Hs; [done|].
  apply trimStart_cons in Hs. rewrite reverse_cons.
  rewrite trimStart_app_nonblank by done.
  by rewrite reverse_app.
Qed.

Lemma startsWith_head c s : startsWith c s = true <-> head s = Some c.
Proof.
  destruct s as [|x s]; simpl; [done|].
  rewrite bool_decide_eq_true. split; congruence.
Qed.

(** C6. A submitted input reaches at most one server action, chosen by
    its first code unit that is not white space: blank input (empty or
    white space only) is dropped and nothing changes; input whose trimmed
    form starts with ['/'] goes, trimmed, to the slash-command action and
    only there; all other input is appended to the chat as a user message
    and the chat, with that message, goes to the orchestrator. *)
Theorem handleSendMessage_routes_by_leading_character (st : PageState) :
  (blank (inputValue st) <-> (handleSendMessage st).1 = NoDispatch) /\
  (blank (inputValue st) -> handleSendMessage st = (NoDispatch, st)) /\
  ((exists command, (handleSendMessage st).1 = SlashCommandAction command) <->
   startsWith slash (trim (inputValue st)) = true) /\
  (startsWith slash (trim (inputValue st)) = true <->
   leading (inputValue st) = Some slash) /\
  (leading (inputValue st) = Some slash ->
   (handleSendMessage st).1 = SlashCommandAction (trim (inputValue st))) /\
  (~ blank (inputValue st) -> leading (inputValue st) <> Some slash ->
   (handleSendMessage st).1
   = OrchestrateAction (messages st ++ [{| role := user; content := inputValue st |}]) /\
   messages (handleSendMessage st).2
   = messages st ++ [{| role := user; content := inputValue st |}]).
Proof.
  pose proof (trim_nil (inputValue st)) as Hblank.
  pose proof (head_trim (inputValue st)) as Hhead.
  pose proof (startsWith_head slash (trim (inputValue st))) as Hstart.
  rewrite Hhead in Hstart.
  unfold handleSendMessage, handleSlashCommand.
  destruct (trim (inputValue st)) as [|c r] eqn:Ht.
  - assert (blank (inputValue st)) as Hb by (by apply Hblank).
    assert (leading (inputValue st) = None) as Hl by (by rewrite <- Hhead).
    repeat split; try done.
    all: try (by intros [? ?]).
    all: try (rewrite Hl; done).
  - assert (~ blank (inputValue st)) as Hb by (intros H%Hblank; done).
    destruct (startsWith slash (c :: r)) eqn:Hs.
    + assert (leading (inputValue st) = Some slash) as Hl by (by apply Hstart).
      repeat split; try done; try (by eexists).
    + assert (leading (inputValue st) <> Some slash) as Hl.
      { intros H%Hstart. congruence. }
      repeat split; try done.
      all: try (by intros [? ?]).
Qed.

(** The first call of [orchestrator_round] is the one that
    [handleSendMessage] makes before it calls the orchestrator. *)
Example handleSendMessage_marks_orchestrator_thinking :
  agentStates (handleSendMessage (typed [104; 105]%N)).2
  = apply_update
      {| update_role := orchestrator; update_status := thinking;
         update_message := Some "Analyzing request..." |}
      initial_agentStates.
Proof. reflexivity. Qed.

Lemma handleSendMessage_routes_witness :
  (handleSendMessage (typed [32; 47; 104; 101; 108; 112; 32]%N)).1
  = SlashCommandAction [47; 104; 101; 108; 112]%N /\
  (handleSendMessage (typed [104; 105]%N)).1
  = OrchestrateAction [{| role := user; content := [104; 105]%N |}] /\
  handleSendMessage (typed [32; 9; 10]%N) = (NoDispatch, typed [32; 9; 10]%N).
Proof.
  split; [|split].
  - apply (handleSendMessage_routes_by_leading_character
             (typed [32; 47; 104; 101; 108; 112; 32]%N)). reflexivity.
  - apply (handleSendMessage_routes_by_leading_character (typed [104; 105]%N)).
    + intros H. apply Forall_cons in H as [H _]. discriminate H.
    + discriminate.
  - apply (handleSendMessage_routes_by_leading_character (typed [32; 9; 10]%N)).
    repeat constructor.
Defined.

End PageProofs.

(** ** PTY output parser *)

Module PtyParserProofs.
Import PtyParser.

Lemma scan_csi_app_found l x ps c ps' f r :
  scan_csi l ps c = CsiFound ps' f r ->
  scan_csi (l ++ x) ps c = CsiFound ps' f (r ++ x) /\ length r < length l.
Proof.
  revert ps c. induction l as [|b l IH]; intros ps c; simpl; [done|].
  destruct (is_digit b).
  { intros Hs. apply IH in Hs as [-> ?]. split; [done|lia]. }
  case_bool_decide as Hsep.
  { intros Hs. apply IH in Hs as [-> ?]. split; [done|lia]. }
  destruct (is_final b); [|done].
  intros [= <- <- <-]. split; [done|lia].
Qed.

Lemma scan_csi_app_malformed l x ps c :
  scan_csi l ps c = CsiMalformed -> scan_csi (l ++ x) ps c = CsiMalformed.
Proof.
  revert ps c. induction l as [|b l IH]; intros ps c; simpl; [done|].
  destruct (is_digit b); [by apply IH|].
  case_bool_decide; [by apply IH|].
  by destruct (is_final b).
Qed.

(** A complete token does not depend on the bytes that follow it. *)
Lemma next_token_app l x t r :
  next_token l = Complete t r ->
  next_token (l ++ x) = Complete t (r ++ x) /\ length r < length l.
Proof.
  destruct l as [|b l]; simpl; [done|].
  case_bool_decide as Hesc.
  - destruct l as [|b' l]; simpl; [done|].
    case_bool_decide as Hbr.
    + destruct (scan_csi l [] 0) as [ps f r'| |] eqn:Hs.
      * apply (scan_csi_app_found _ x) in Hs as [-> ?].
        intros [= <- <-]. split; [done|lia].
      * done.
      * rewrite (scan_csi_app_malformed _ x _ _ Hs).
        intros [= <- <-]. split; [done|simpl; lia].
    + intros [= <- <-]. split; [done|simpl; lia].
  - case_bool_decide; intros [= <- <-]; split; try done; simpl; lia.
Qed.

Lemma next_token_Finished l : next_token l = Finished -> l = [].
Proof.
  destruct l as [|b l]; simpl; [done|].
  case_bool_decide.
  - destruct l as [|b' l]; [done|]. case_bool_decide; [|done].
    by destruct (scan_csi l [] 0).
  - by case_bool_decide.
Qed.

(** Fuel beyond the length of the input changes nothing. *)
Lemma run_fuel f1 f2 l g :
  length l <= f1 -> length l <= f2 -> run f1 l g = run f2 l g.
Proof.
  revert f2 l g. induction f1 as [|n IH]; intros f2 l g H1 H2.
  - destruct l; simpl in *; [|lia]. by destruct f2.
  - destruct f2 as [|m].
    + destruct l; simpl in *; [done|lia].
    + simpl. destruct (next_token l) as [t r| |] eqn:Ht; try done.
      apply (next_token_app _ []) in Ht as [_ Hlen]. apply IH; lia.
Qed.

Lemma run_app f1 f2 f3 l x g :
  length l <= f1 -> length (l ++ x) <= f2 ->
  length ((run f1 l g).2 ++ x) <= f3 ->
  run f2 (l ++ x) g = run f3 ((run f1 l g).2 ++ x) (run f1 l g).1.
Proof.
  revert f2 l g. induction f1 as [|n IH]; intros f2 l g H1 H2 H3.
  - destruct l; simpl in *; [|lia]. by apply run_fuel.
  - simpl in *. destruct (next_token l) as [t r| |] eqn:Ht; simpl in *.
    + apply (next_token_app _ x) in Ht as [Ht Hlen].
      rewrite length_app in H2.
      destruct f2 as [|m]; [lia|]. simpl. rewrite Ht.
      apply IH; [lia|rewrite length_app; lia|done].
    + by apply run_fuel.
    + apply next_token_Finished in Ht as ->. by apply run_fuel.
Qed.

(** C7. Split-invariance of the parser: feeding two chunks in successive
    calls leaves the parser, its grid included, in the state that feeding
    their concatenation in one call leaves it in, wherever the split
    falls. *)
Theorem feed_split_invariant (p : Parser) (chunk1 chunk2 : list N) :
  feed (feed p chunk1) chunk2 = feed p (chunk1 ++ chunk2).
Proof.
  unfold feed. rewrite (assoc_L (++)).
  pose proof (run_app (length (pending p ++ chunk1))
                (length ((pending p ++ chunk1) ++ chunk2))
                (length ((run (length (pending p ++ chunk1)) (pending p ++ chunk1)
                              (grid p)).2 ++ chunk2))
                (pending p ++ chunk1) chunk2 (grid p)) as H.
  destruct (run (length (pending p ++ chunk1)) (pending p ++ chunk1) (grid p))
    as [g1 r1]. simpl in *.
  rewrite H by lia. done.
Qed.

(** The colour sequence of [red_X] cut after its third byte. *)
Example feed_red_X_in_two_chunks :
  feed (feed (new_parser 4 2) (take 3 red_X)) (drop 3 red_X)
  = feed (new_parser 4 2) red_X /\
  pending (feed (new_parser 4 2) (take 3 red_X)) = take 3 red_X /\
  cells (grid (feed (new_parser 4 2) red_X)) !! 0
  = Some [{| ch := 88; fg := 1; bg := 0 |}; blank_cell; blank_cell; blank_cell].
Proof. repeat split; vm_compute; reflexivity. Qed.

End PtyParserProofs.

(** ** Paths and file names *)

Module PathNamesProofs.
Import JS PathNames.

Lemma split_nonempty sep s : split sep s <> [].
Proof.
  destruct s as [|c s]; simpl; [done|].
  case_bool_decide; [done|]. by destruct (split sep s).
Qed.

Lemma split_no_sep (sep : N) (s : jsstring) : sep ∉ s -> split sep s = [s].
Proof.
  induction s as [|c s IH]; simpl; [done|].
  intros Hnot. apply not_elem_of_cons in Hnot as [Hc Hs].
  rewrite bool_decide_false by done. by rewrite IH.
Qed.

Lemma split_app_sep sep d n :
  split sep (d ++ sep :: n) = split sep d ++ split sep n.
Proof.
  induction d as [|c d IH]; simpl.
  - by rewrite bool_decide_true.
  - case_bool_decide; rewrite IH; [done|].
    pose proof (split_nonempty sep d). by destruct (split sep d).
Qed.

Lemma join_split sep s : join sep (split sep s) = s.
Proof.
  induction s as [|c s IH]; simpl; [done|].
  pose proof (split_nonempty sep s) as Hne.
  case_bool_decide as Hc.
  - subst c. destruct (split sep s) as [|seg segs] eqn:Hs; [done|].
    simpl. simpl in IH. by rewrite IH.
  - destruct (split sep s) as [|seg segs] eqn:Hs; [done|].
    destruct segs as [|seg' segs]; simpl in *; by rewrite <- IH.
Qed.

(** A string holds no separator, or is cut at its last one. *)
Lemma last_sep (sep : N) (s : jsstring) :
  sep ∉ s \/ exists d n, s = d ++ sep :: n /\ sep ∉ n.
Proof.
  induction s as [|c s IH]; [left; apply not_elem_of_nil|].
  destruct IH as [Hnot|(d & n & -> & Hn)].
  - destruct (decide (c = sep)) as [->|Hc].
    + right. by exists [], s.
    + left. by apply not_elem_of_cons.
  - right. by exists (c :: d), n.
Qed.

Lemma split_last (sep : N) (d n : jsstring) :
  sep ∉ n ->
  removelast (split sep (d ++ sep :: n)) = split sep d /\
  last (split sep (d ++ sep :: n)) = Some n.
Proof.
  intros Hn. rewrite split_app_sep, (split_no_sep sep n) by done.
  split; [apply removelast_last|apply last_snoc].
Qed.

Lemma parent_of_cut d n :
  slash ∉ n -> parent_of (d ++ slash :: n) = or_units d [slash].
Proof.
  intros Hn. unfold parent_of.
  destruct (split_last slash d n Hn) as [-> _]. by rewrite join_split.
Qed.

Lemma parent_of_no_slash s : slash ∉ s -> parent_of s = [slash].
Proof. intros Hs. unfold parent_of. by rewrite split_no_sep. Qed.

Lemma slashes_cut d n : slash ∉ n -> slashes (d ++ slash :: n) = S (slashes d).
Proof.
  intros Hn.
  assert (slashes n = 0) as Hnil.
  { induction n as [|c n IH]; [done|].
    apply not_elem_of_cons in Hn as [Hc Hn]. cbn [slashes].
    rewrite bool_decide_false by done. by apply IH. }
  induction d as [|c d IH]; cbn [slashes app].
  - rewrite bool_decide_true by done. by rewrite Hnil.
  - case_bool_decide; by rewrite IH.
Qed.

Lemma iter_parent_root k : Nat.iter k parent_of [slash] = [slash].
Proof. induction k as [|k IH]; [done|]. simpl. by rewrite IH. Qed.

(** X10. "Go up" in the file picker.  The parent of a path is the text
    before its last ['/'], or ["/"] when that text is empty or the path
    has no ['/']; the root is its own parent; the parent is never empty;
    and from any path, asking for the parent once more than the path
    has slashes arrives at the root. *)
Theorem handleUp_reaches_root (currentPath : jsstring) :
  (handleUp currentPath = None <-> currentPath = []) /\
  (forall d n, currentPath = d ++ slash :: n -> slash ∉ n ->
     parent_of currentPath = (if decide (d = []) then [slash] else d)) /\
  (slash ∉ currentPath -> parent_of currentPath = [slash]) /\
  parent_of currentPath <> [] /\
  Nat.iter (S (slashes currentPath)) parent_of currentPath = [slash].
Proof.
  split; [by destruct currentPath|]. split; [|split; [|split]].
  - intros d n -> Hn. rewrite parent_of_cut by done. by destruct d.
  - apply parent_of_no_slash.
  - destruct (last_sep slash currentPath) as [Hnot|(d & n & -> & Hn)].
    + by rewrite parent_of_no_slash.
    + rewrite parent_of_cut by done. by destruct d.
  - assert (forall k s, slashes s <= k -> Nat.iter (S k) parent_of s = [slash]) as H.
    { induction k as [|k IH]; intros s Hk; rewrite Nat.iter_succ_r.
      - destruct (last_sep slash s) as [Hnot|(d & n & -> & Hn)].
        + by rewrite parent_of_no_slash.
        + rewrite slashes_cut in Hk by done. lia.
      - destruct (last_sep slash s) as [Hnot|(d & n & -> & Hn)].
        + rewrite parent_of_no_slash by done. apply iter_parent_root.
        + rewrite parent_of_cut by done. rewrite slashes_cut in Hk by done.
          destruct d as [|c d]; [apply (iter_parent_root (S k))|].
          apply IH. unfold or_units. lia. }
    by apply H.
Qed.

Lemma handleUp_reaches_root_witness :
  parent_of (units "/home/user") = units "/home" /\
  parent_of (units "/home") = units "/" /\
  parent_of (units "relative") = units "/".
Proof.
  pose proof (handleUp_reaches_root (units "/home/user")) as (_ & H1 & _).
  pose proof (handleUp_reaches_root (units "/home")) as (_ & H2 & _).
  pose proof (handleUp_reaches_root (units "relative")) as (_ & _ & H3 & _).
  split; [|split].
  - apply (H1 (units "/home") (units "user")); [reflexivity|].
    apply (bool_decide_unpack _). vm_compute. reflexivity.
  - apply (H2 [] (units "home")); [reflexivity|].
    apply (bool_decide_unpack _). vm_compute. reflexivity.
  - apply H3. apply (bool_decide_unpack _). vm_compute. reflexivity.
Defined.

Lemma last_segment (sep : N) (d n : jsstring) :
  sep ∉ n -> default [] (last (split sep (d ++ sep :: n))) = n.
Proof. intros Hn. by destruct (split_last sep d n Hn) as [_ ->]. Qed.

Lemma last_segment_whole (sep : N) (s : jsstring) :
  sep ∉ s -> default [] (last (split sep s)) = s.
Proof. intros Hs. by rewrite split_no_sep. Qed.

Lemma untitled_has_no_slash : slash ∉ units "Untitled Workspace".
Proof. apply (bool_decide_unpack _). vm_compute. reflexivity. Qed.

(** X11. Choosing a directory in the dashboard.  Nothing is added for
    an empty path.  Otherwise a local workspace is added under the
    chosen path, titled with the text after the last ['/'] of the path
    (the whole path when it has none), or "Untitled Workspace" when the
    path ends in ['/']; the title is never empty and holds no ['/']. *)
Theorem handleWorkspaceSelected_titles_by_last_segment (path : jsstring) :
  (handleWorkspaceSelected path = None <-> path = []) /\
  (path <> [] ->
     handleWorkspaceSelected path = Some (title_of path, path, local)) /\
  (forall d n, path = d ++ slash :: n -> slash ∉ n ->
     title_of path = (if decide (n = []) then units "Untitled Workspace" else n)) /\
  (slash ∉ path -> path <> [] -> title_of path = path) /\
  title_of path <> [] /\
  slash ∉ title_of path.
Proof.
  split; [by destruct path|]. split; [by destruct path|].
  split; [|split].
  - intros d n -> Hn. unfold title_of. rewrite last_segment by done.
    by destruct n.
  - intros Hs Hne. unfold title_of. rewrite last_segment_whole by done.
    by destruct path.
  - destruct (last_sep slash path) as [Hnot|(d & n & -> & Hn)]; unfold title_of.
    + rewrite last_segment_whole by done.
      destruct path; [by split; [|apply untitled_has_no_slash]|by split].
    + rewrite last_segment by done.
      destruct n; [by split; [|apply untitled_has_no_slash]|by split].
Qed.

Lemma handleWorkspaceSelected_titles_witness :
  handleWorkspaceSelected (units "/home/user/axiom")
    = Some (units "axiom", units "/home/user/axiom", local) /\
  title_of (units "/home/user/") = units "Untitled Workspace" /\
  title_of (units "axiom") = units "axiom".
Proof.
  pose proof (handleWorkspaceSelected_titles_by_last_segment
                (units "/home/user/axiom")) as (_ & H1 & H2 & _).
  pose proof (handleWorkspaceSelected_titles_by_last_segment
                (units "/home/user/")) as (_ & _ & H3 & _).
  pose proof (handleWorkspaceSelected_titles_by_last_segment
                (units "axiom")) as (_ & _ & _ & H4 & _).
  split; [|split].
  - rewrite H1 by done.
    rewrite (H2 (units "/home/user") (units "axiom")); [reflexivity..|].
    apply (bool_decide_unpack _). vm_compute. reflexivity.
  - rewrite (H3 (units "/home/user") []); [reflexivity..|].
    apply not_elem_of_nil.
  - apply H4; [|done]. apply (bool_decide_unpack _). vm_compute. reflexivity.
Defined.

(** X12. Syntax highlighting is chosen by the text after the last ['.']
    of the file name alone, whatever the case of its ASCII letters: the
    text before that dot does not matter, a name without a dot is read
    as an extension, and the language is one of eight. *)
Theorem getLanguage_reads_last_extension (stem ext : jsstring) :
  dot ∉ ext -> ascii_units ext ->
  getLanguage (stem ++ dot :: ext) = getLanguage ext /\
  (forall stem' ext', dot ∉ ext' -> ascii_units ext' ->
     toLowerCase ext' = toLowerCase ext ->
     getLanguage (stem' ++ dot :: ext') = getLanguage (stem ++ dot :: ext)) /\
  getLanguage (stem ++ dot :: ext) ∈
    ["typescript"; "javascript"; "css"; "json"; "html"; "markdown"; "python";
     "text"]%string.
Proof.
  intros Hext _. split; [|split].
  - unfold getLanguage. by rewrite last_segment, last_segment_whole.
  - intros stem' ext' Hext' _ Hlow. unfold getLanguage.
    rewrite !last_segment by done. by rewrite Hlow.
  - unfold getLanguage.
    repeat (case_decide; [rewrite !elem_of_cons; tauto|]).
    rewrite !elem_of_cons; tauto.
Qed.

Lemma getLanguage_reads_last_extension_witness :
  getLanguage (units "archive.tar.TS") = "typescript"%string.
Proof.
  assert (dot ∉ units "TS") as Hdot
    by (apply (bool_decide_unpack _); vm_compute; reflexivity).
  assert (ascii_units (units "TS")) as Hascii
    by (repeat constructor).
  destruct (getLanguage_reads_last_extension (units "archive.tar") (units "TS")
              Hdot Hascii) as (H & _).
  change (units "archive.tar.TS") with (units "archive.tar" ++ dot :: units "TS").
  rewrite H. reflexivity.
Defined.

End PathNamesProofs.

(** ** The file list of the developer agent *)

Module FileTreeProofs.
Import FileTree.

Lemma elem_of_listDirectory fs dir entries e :
  listDirectory fs dir = Some entries ->
  e ∈ entries <->
  exists ds, fs dir = Some ds /\
    {| d_name := name e; d_isDirectory := isDirectory e |} ∈ ds /\
    hidden (name e) = false /\ path e = dir ++ [name e].
Proof.
  unfold listDirectory. destruct (fs dir) as [ds|]; [|done].
  intros [= <-]. rewrite list_elem_of_omap. split.
  - intros ([n d] & Hin & He). simpl in He.
    destruct (hidden n) eqn:Hn; [done|]. injection He as <-. simpl.
    by exists ds.
  - intros (ds' & [= <-] & Hin & Hn & Hp).
    exists {| d_name := name e; d_isDirectory := isDirectory e |}.
    split; [done|]. simpl. rewrite Hn. f_equal. destruct e; simpl in *.
    by rewrite Hp.
Qed.

Lemma hidden_not_skipped n :
  hidden n = false -> skipped n = bool_decide (n = "node_modules").
Proof.
  intros Hn. unfold skipped.
  rewrite (bool_decide_false (n = ".git")), (bool_decide_false (n = ".next")).
  - by rewrite !orb_false_r.
  - by intros ->.
  - by intros ->.
Qed.

Lemma getSimpleFileTree_from_spec fs levels : forall dir p,
  p ∈ getSimpleFileTree_from levels fs dir <->
  exists names, p = dir ++ names /\ length names <= levels /\
                leads_to_file fs dir names.
Proof.
  induction levels as [|levels IH]; intros dir p; simpl.
  - split; [by intros ?%elem_of_nil|].
    intros (names & _ & Hlen & Hlead). destruct Hlead; simpl in Hlen; lia.
  - destruct (listDirectory fs dir) as [entries|] eqn:Hls.
    + rewrite list_elem_of_In, in_flat_map. split.
      * intros (e & He & Hp). apply list_elem_of_In in He.
        apply (elem_of_listDirectory _ _ _ _ Hls) in He
          as (ds & Hds & Hin & Hhid & Hpath).
        rewrite (hidden_not_skipped _ Hhid) in Hp.
        case_bool_decide as Hnm; [done|].
        destruct (isDirectory e) eqn:Hdir.
        -- apply list_elem_of_In, IH in Hp as (names & -> & Hlen & Hlead).
           exists (name e :: names). rewrite Hpath, <- app_assoc.
           split; [done|]. split; [simpl; lia|].
           rewrite Hpath in Hlead. by eapply file_below.
        -- destruct Hp as [<-|[]]. exists [name e].
           split; [done|]. split; [simpl; lia|]. by eapply file_here.
      * intros (names & -> & Hlen & Hlead).
        inversion Hlead as [dir' ds n Hds Hin Hshown|dir' ds n names' Hds Hin Hshown Hrest];
          subst; destruct Hshown as [Hhid Hnm].
        -- exists {| name := n; path := dir ++ [n]; isDirectory := false |}.
           split.
           ++ apply list_elem_of_In, (elem_of_listDirectory _ _ _ _ Hls).
              by exists ds.
           ++ simpl. rewrite (hidden_not_skipped _ Hhid), bool_decide_false by done.
              by left.
        -- exists {| name := n; path := dir ++ [n]; isDirectory := true |}.
           split.
           ++ apply list_elem_of_In, (elem_of_listDirectory _ _ _ _ Hls).
              by exists ds.
           ++ simpl. rewrite (hidden_not_skipped _ Hhid), bool_decide_false by done.
              apply list_elem_of_In, IH. exists names'.
              rewrite <- app_assoc. split; [done|]. split; [simpl in Hlen; lia|done].
    + split; [by intros ?%elem_of_nil|].
      intros (names & _ & _ & Hlead). unfold listDirectory in Hls.
      destruct Hlead as [? ? ? Hds|? ? ? ? Hds]; by rewrite Hds in Hls.
Qed.

(** X13. The files that the developer agent is told about.  A path is
    in the list exactly when it is a file at most four names below the
    workspace directory, reached through directories that can be listed,
    no name on the way (the file's included) starting with ['.'] or
    being [node_modules].  A directory that cannot be listed contributes
    nothing, and neither does one five or more levels down.  Since
    [listDirectory] has left out the hidden names already, the tests for
    [.git] and [.next] never decide anything. *)
Theorem getSimpleFileTree_lists_shown_files (fs : FileSystem) (dir : Path) :
  (forall p,
     p ∈ getSimpleFileTree fs dir <->
     exists names, p = dir ++ names /\ length names <= 4 /\
                   leads_to_file fs dir names) /\
  (fs dir = None -> getSimpleFileTree fs dir = []) /\
  (forall d entries e,
     listDirectory fs d = Some entries -> e ∈ entries ->
     skipped (name e) = bool_decide (name e = "node_modules")).
Proof.
  split; [|split].
  - intros p. apply getSimpleFileTree_from_spec.
  - intros Hnone. unfold getSimpleFileTree. simpl. unfold listDirectory.
    by rewrite Hnone.
  - intros d entries e Hls He.
    apply (elem_of_listDirectory _ _ _ _ Hls) in He as (_ & _ & _ & Hhid & _).
    by apply hidden_not_skipped.
Qed.

Lemma getSimpleFileTree_lists_shown_files_witness :
  ["ws"; "src"; "main.ts"]%string ∈ getSimpleFileTree sample_fs ["ws"%string] /\
  getSimpleFileTree sample_fs ["elsewhere"%string] = [].
Proof.
  destruct (getSimpleFileTree_lists_shown_files sample_fs ["ws"%string])
    as (Hin & _ & _).
  destruct (getSimpleFileTree_lists_shown_files sample_fs ["elsewhere"%string])
    as (_ & Hnone & _).
  split; [|by apply Hnone].
  apply Hin. exists ["src"; "main.ts"]%string.
  split; [reflexivity|]. split; [simpl; lia|].
  eapply file_below; [reflexivity| |by split|].
  - apply elem_of_cons. by left.
  - eapply file_here; [reflexivity| |by split].
    apply elem_of_cons. by left.
Defined.

End FileTreeProofs.

(** ** Replies of the language model *)

Module AgentRepliesProofs.
Import JS PathNames AgentReplies.

Lemma remove_all_from_drop pat s : forall k,
  remove_all_from k pat s = remove_all pat (drop k s).
Proof.
  induction s as [|c s IH]; intros [|k]; try done.
  simpl. by rewrite IH.
Qed.

Lemma begins_with_app pat s : begins_with pat (pat ++ s) = true.
Proof. unfold begins_with. by rewrite bool_decide_true by apply take_app_length. Qed.

Lemma begins_with_true pat s : begins_with pat s = true -> exists s', s = pat ++ s'.
Proof.
  unfold begins_with. intros H%bool_decide_eq_true.
  exists (drop (length pat) s). by rewrite <- H at 1; rewrite take_drop.
Qed.

Lemma remove_all_match c pat s :
  remove_all (c :: pat) ((c :: pat) ++ s) = remove_all (c :: pat) s.
Proof.
  unfold remove_all at 1. cbn [app remove_all_from].
  change (c :: pat ++ s) with ((c :: pat) ++ s). rewrite begins_with_app.
  rewrite remove_all_from_drop.
  replace (length (c :: pat) - 1) with (length pat) by (simpl; lia).
  by rewrite drop_app_length.
Qed.

Lemma remove_all_keep pat c s :
  begins_with pat (c :: s) = false ->
  remove_all pat (c :: s) = c :: remove_all pat s.
Proof. intros H. unfold remove_all. cbn [remove_all_from]. by rewrite H. Qed.

Lemma begins_with_other q pat c s : c <> q -> begins_with (q :: pat) (c :: s) = false.
Proof.
  intros Hc. unfold begins_with. apply bool_decide_eq_false. simpl. congruence.
Qed.

Lemma remove_all_absent q pat (a b : jsstring) :
  q ∉ a -> remove_all (q :: pat) (a ++ b) = a ++ remove_all (q :: pat) b.
Proof.
  induction a as [|c a IH]; intros Hq; [done|].
  apply not_elem_of_cons in Hq as [Hc Hq]. simpl.
  rewrite remove_all_keep by (apply begins_with_other; congruence).
  by rewrite IH.
Qed.

Lemma begins_with_fence s :
  begins_with fence s = true <-> exists t, s = backtick :: backtick :: backtick :: t.
Proof.
  split.
  - intros (t & ->)%begins_with_true. by exists t.
  - intros (t & ->). apply (begins_with_app fence).
Qed.

Lemma remove_all_fence_match t :
  remove_all fence (backtick :: backtick :: backtick :: t) = remove_all fence t.
Proof. apply (remove_all_match backtick [backtick; backtick] t). Qed.

(** What is left after the fences are removed begins with no more
    backticks than the text did, and holds no fence. *)
Lemma remove_all_fence_spec n : forall s, length s <= n ->
  ~ occurs fence (remove_all fence s) /\
  (forall t, remove_all fence s = backtick :: t -> exists t', s = backtick :: t') /\
  (forall t, remove_all fence s = backtick :: backtick :: t ->
             exists t', s = backtick :: backtick :: t').
Proof.
  induction n as [|n IH]; intros s Hlen.
  { destruct s; [|simpl in Hlen; lia]. split; [|by split].
    intros (a & b & H). by destruct a. }
  destruct s as [|c s].
  { split; [|by split]. intros (a & b & H). by destruct a. }
  destruct (begins_with fence (c :: s)) eqn:Hb.
  - apply begins_with_fence in Hb as (t & Hs). rewrite Hs.
    rewrite remove_all_fence_match.
    destruct (IH t) as (Hno & H1 & H2).
    { simpl in Hlen. injection Hs as -> ->. simpl in Hlen. lia. }
    split; [done|]. split; intros; eexists; reflexivity.
  - rewrite remove_all_keep by done.
    destruct (IH s) as (Hno & H1 & H2); [simpl in Hlen; lia|].
    split; [|split].
    + intros (a & b & H). destruct a as [|x a].
      * simpl in H. injection H as -> H.
        destruct (H2 _ H) as (t' & ->).
        by rewrite (proj2 (begins_with_fence _)) in Hb by by eexists.
      * simpl in H. injection H as _ H. apply Hno. by exists a, b.
    + intros t [= -> _]. by eexists.
    + intros t [= -> H]. destruct (H1 _ H) as (t' & ->). by eexists.
Qed.

Lemma trimStart_suffix s : exists a, s = a ++ trimStart s.
Proof.
  induction s as [|c s [a IH]]; simpl; [by exists []|].
  destruct (is_white_space c); [|by exists []].
  exists (c :: a). simpl. by rewrite <- IH.
Qed.

Lemma trim_infix s : exists a b, s = a ++ trim s ++ b.
Proof.
  unfold trim, trimEnd. destruct (trimStart_suffix s) as [a Ha].
  destruct (trimStart_suffix (reverse (trimStart s))) as [b Hb].
  exists a, (reverse b). rewrite <- reverse_app, <- Hb, reverse_involutive.
  exact Ha.
Qed.

Lemma trim_newlines body : trim (newline :: body ++ [newline]) = trim body.
Proof.
  unfold trim. change (trimStart (newline :: body ++ [newline]))
    with (trimStart (body ++ [newline])).
  destruct (trimStart body) as [|c r] eqn:Hs.
  - assert (trimStart (body ++ [newline]) = []) as ->; [|done].
    apply PageProofs.trimStart_nil. apply PageProofs.trimStart_nil in Hs.
    apply Forall_app. split; [done|]. by repeat constructor.
  - assert (trimStart (body ++ [newline]) = (c :: r) ++ [newline]) as ->.
    { destruct (trimStart_suffix body) as [a Ha]. rewrite Hs in Ha.
      rewrite Ha at 1. rewrite <- app_assoc. simpl.
      rewrite PageProofs.trimStart_app_nonblank
        by (by eapply PageProofs.trimStart_cons).
      assert (trimStart a = []) as ->; [|done].
      apply PageProofs.trimStart_nil.
      assert (trimStart (a ++ c :: r) = c :: r) as Hacr by (by rewrite <- Ha).
      rewrite PageProofs.trimStart_app_nonblank in Hacr
        by (by eapply PageProofs.trimStart_cons).
      apply PageProofs.trimStart_nil.
      destruct (trimStart a); [done|].
      apply (f_equal length) in Hacr. simpl in Hacr. rewrite length_app in Hacr.
      simpl in Hacr. lia. }
    unfold trimEnd. by rewrite reverse_app.
Qed.

Lemma remove_all_nothing q pat (s : jsstring) :
  q ∉ s -> remove_all (q :: pat) s = s.
Proof.
  intros Hq. rewrite <- (app_nil_r s) at 1.
  rewrite remove_all_absent by done. by rewrite app_nil_r.
Qed.

Lemma begins_with_fence_json_newline pre x :
  pre `suffix_of` fence ->
  begins_with fence_json (pre ++ newline :: x) = false.
Proof.
  intros (k & Hk). unfold begins_with. apply bool_decide_eq_false.
  unfold fence in Hk.
  destruct k as [|? [|? [|? [|? k]]]]; simplify_eq/=; by intros [=].
Qed.

Lemma remove_all_fence_json_plain x :
  remove_all fence_json (fence ++ newline :: x)
  = fence ++ newline :: remove_all fence_json x.
Proof.
  unfold fence at 1 2. cbn [app].
  rewrite remove_all_keep
    by (apply (begins_with_fence_json_newline fence); by exists []).
  rewrite remove_all_keep
    by (apply (begins_with_fence_json_newline [backtick; backtick]);
        by exists [backtick]).
  rewrite remove_all_keep
    by (apply (begins_with_fence_json_newline [backtick]);
        by exists [backtick; backtick]).
  rewrite remove_all_keep; [done|].
  apply (begins_with_fence_json_newline []). by exists fence.
Qed.

(** X14. A reply in a code fence is read like the bare reply.  For a
    text without backticks, wrapping it in a fence, labelled [json] or
    not, changes nothing in what [JSON.parse] is given, which is the
    text trimmed; so both agents return the parsed value of the text
    when it parses, and, when it does not, the orchestrator's fallback
    carries the whole reply, fence included, as its task. *)
Theorem fenced_reply_is_unwrapped {Value : Type}
    (JSON_parse : jsstring -> option Value) (body : jsstring) :
  backtick ∉ body ->
  cleanContent (fenced body) = trim body /\
  cleanContent (fence ++ newline :: body ++ newline :: fence) = trim body /\
  cleanContent body = trim body /\
  (forall v, JSON_parse (trim body) = Some v ->
     orchestrate JSON_parse (fenced body) = parsed v /\
     runDeveloperAgent JSON_parse (fenced body) = parsed v) /\
  (JSON_parse (trim body) = None ->
     orchestrate JSON_parse (fenced body)
     = fallback {| nextAgent := units "user";
                   reasoning := units "Direct response";
                   task := fenced body |}).
Proof.
  intros Hbody.
  assert (backtick ∉ newline :: body ++ [newline]) as Hpad.
  { rewrite not_elem_of_cons, not_elem_of_app, not_elem_of_cons.
    repeat split; try done. apply not_elem_of_nil. }
  assert (cleanContent (fenced body) = trim body) as Hfenced.
  { unfold cleanContent, fenced.
    change fence_json with (backtick :: backtick :: backtick :: units "json").
    rewrite remove_all_match.
    change (newline :: body ++ newline :: fence)
      with ((newline :: body) ++ newline :: fence).
    replace ((newline :: body) ++ newline :: fence)
      with ((newline :: body ++ [newline]) ++ fence)
      by (by simpl; rewrite <- app_assoc).
    rewrite remove_all_absent by done.
    change (remove_all (backtick :: backtick :: backtick :: units "json") fence)
      with fence.
    unfold fence at 1. rewrite remove_all_absent by done.
    change (remove_all [backtick; backtick; backtick] fence) with (@nil N).
    rewrite app_nil_r. apply trim_newlines. }
  split; [done|]. split; [|split; [|split]].
  - unfold cleanContent. rewrite remove_all_fence_json_plain.
    change fence_json with (backtick :: backtick :: backtick :: units "json").
    replace (body ++ newline :: fence) with ((body ++ [newline]) ++ fence)
      by (by rewrite <- app_assoc).
    rewrite remove_all_absent
      by (rewrite not_elem_of_app, not_elem_of_cons; repeat split;
          [done|done|apply not_elem_of_nil]).
    change (remove_all (backtick :: backtick :: backtick :: units "json") fence)
      with fence.
    change (fence ++ newline :: (body ++ [newline]) ++ fence)
      with (backtick :: backtick :: backtick
            :: (newline :: body ++ [newline]) ++ fence).
    rewrite remove_all_fence_match. unfold fence at 1.
    rewrite remove_all_absent by done.
    change (remove_all [backtick; backtick; backtick] fence) with (@nil N).
    rewrite app_nil_r. apply trim_newlines.
  - unfold cleanContent.
    change fence_json with (backtick :: backtick :: backtick :: units "json").
    rewrite remove_all_nothing by done. unfold fence.
    by rewrite remove_all_nothing.
  - intros v Hv. unfold orchestrate, runDeveloperAgent.
    by rewrite Hfenced, Hv.
  - intros Hnone. unfold orchestrate. by rewrite Hfenced, Hnone.
Qed.

Lemma fenced_reply_is_unwrapped_witness :
  orchestrate parse_empty_object (fenced (units "{}")) = parsed tt.
Proof.
  assert (backtick ∉ units "{}") as Hbody
    by (apply (bool_decide_unpack _); vm_compute; reflexivity).
  destruct (fenced_reply_is_unwrapped parse_empty_object (units "{}") Hbody)
    as (_ & _ & _ & Hparsed & _).
  by apply Hparsed.
Defined.

(** X15. No code fence reaches [JSON.parse].  Whatever the model
    replied, the text that the two agents parse holds no three
    backticks in a row: fences are removed wherever they stand, also
    inside the strings of the JSON value, such as the content of a file
    to write. *)
Theorem cleaned_reply_holds_no_fence (content : jsstring) :
  ~ occurs fence (cleanContent content).
Proof.
  intros (a & b & Hocc). unfold cleanContent in Hocc.
  destruct (trim_infix (remove_all fence (remove_all fence_json content)))
    as (a' & b' & Hinfix).
  destruct (remove_all_fence_spec _ (remove_all fence_json content) (le_n _))
    as (Hno & _).
  apply Hno. exists (a' ++ a), (b ++ b').
  rewrite Hinfix, Hocc. by rewrite <- !app_assoc.
Qed.

End AgentRepliesProofs.
